(** * manus-machina: orchestration, resilience, guardrails, session state, events

    A shallow embedding of the parts of the Python package [manus_machina]
    that its specification makes checkable statements about, with the
    statements proved (or refuted) against the embedding.

    Conventions used throughout:
    - a Python [dict] keyed by strings is a [gmap string _]; where the
      iteration order of the dict is observable (the guard registries) it is
      an insertion-ordered association list instead, and a dict that is
      itself a value is the list of its items;
    - a call that may raise returns an [outcome]: [Returned v] or [Raised e];
    - [datetime.utcnow()] is a reading of a clock that the caller of the
      model supplies, in microseconds;
    - an [async] function is modelled by the function it computes: none of the
      modelled code awaits anything but its own callees, one at a time. *)

From Stdlib Require Import ZArith QArith Qminmax Qround Qpower Qabs Lia Lqa Psatz Ascii.
From Stdlib Require Import Sorted.
From stdpp Require Import gmap strings list fin_maps pretty sorting.

Local Open Scope string_scope.
Local Open Scope list_scope.

(** ** Python values and exceptions *)

(** The values of type [Any] that the modelled code stores and passes on.
    A float is the rational number it stands for; [PyObject] stands for any
    object that is not JSON data. *)
#[warnings="-register-all"]
Inductive pyval : Type :=
| PyNone
| PyBool (b : bool)
| PyInt (z : Z)
| PyFloat (q : Q)
| PyStr (s : string)
| PyList (xs : list pyval)
| PyDict (kv : list (string * pyval))
| PyObject (tag : nat).

(** An exception instance: its class name, its message ([str(e)]) and the
    exception it was raised [from]. *)
#[warnings="-register-all"]
Inductive exn : Type :=
| Exn (cls : string) (msg : string) (cause : option exn).

Definition exn_class (e : exn) : string := let 'Exn c _ _ := e in c.
Definition exn_str (e : exn) : string := let 'Exn _ m _ := e in m.
Definition exn_cause (e : exn) : option exn := let 'Exn _ _ c := e in c.

Inductive outcome (A : Type) : Type :=
| Returned (a : A)
| Raised (e : exn).
Arguments Returned {A} a.
Arguments Raised {A} e.

(** ** orchestration/saga.py *)

Module Saga.

Inductive SagaStepStatus :=
| STEP_PENDING | STEP_RUNNING | STEP_COMPLETED
| STEP_FAILED | STEP_COMPENSATING | STEP_COMPENSATED.

Inductive SagaStatus :=
| PENDING | RUNNING | COMPLETED | FAILED | COMPENSATING | COMPENSATED.

(** The string value of the [SagaStatus] enumeration member. *)
Definition status_value (s : SagaStatus) : string :=
  match s with
  | PENDING => "pending" | RUNNING => "running" | COMPLETED => "completed"
  | FAILED => "failed" | COMPENSATING => "compensating"
  | COMPENSATED => "compensated"
  end.

#[global] Instance SagaStatus_eq_dec : EqDecision SagaStatus.
Proof. solve_decision. Defined.

(** An action or compensation receives the saga's context dict, which it may
    mutate, and returns or raises an exception (an instance of [Exception],
    which is what the handlers of [execute] catch). *)
Definition callable : Type :=
  gmap string pyval -> gmap string pyval * outcome pyval.

Record SagaStep := mkStep {
  name : string;
  action : callable;
  compensation : callable;
  status : SagaStepStatus;
  result : pyval;
  error : option string
}.

(** The [started_at]/[completed_at] stamps of steps and saga are only ever
    written by [execute]; they are left out. *)
Record Saga := mkSaga {
  saga_name : string;
  steps : list SagaStep;
  saga_status : SagaStatus;
  context : gmap string pyval;
  saga_error : option string
}.

Definition new_saga (nm : string) : Saga := mkSaga nm [] PENDING ∅ None.

Definition add_step (nm : string) (act comp : callable) (sg : Saga) : Saga :=
  mkSaga (saga_name sg)
         (steps sg ++ [mkStep nm act comp STEP_PENDING PyNone None])
         (saga_status sg) (context sg) (saga_error sg).

(** Field updates, on the saga and on the step object stored at position
    [i] of [self.steps]. *)
Definition set_status (s : SagaStatus) (sg : Saga) : Saga :=
  mkSaga (saga_name sg) (steps sg) s (context sg) (saga_error sg).
Definition set_context (c : gmap string pyval) (sg : Saga) : Saga :=
  mkSaga (saga_name sg) (steps sg) (saga_status sg) c (saga_error sg).
Definition set_error (e : option string) (sg : Saga) : Saga :=
  mkSaga (saga_name sg) (steps sg) (saga_status sg) (context sg) e.
Definition update_step (i : nat) (f : SagaStep -> SagaStep) (sg : Saga) : Saga :=
  mkSaga (saga_name sg) (alter f i (steps sg)) (saga_status sg)
         (context sg) (saga_error sg).

Definition step_status (s : SagaStepStatus) (st : SagaStep) : SagaStep :=
  mkStep (name st) (action st) (compensation st) s (result st) (error st).
Definition step_result (v : pyval) (st : SagaStep) : SagaStep :=
  mkStep (name st) (action st) (compensation st) (status st) v (error st).
Definition step_error (e : string) (st : SagaStep) : SagaStep :=
  mkStep (name st) (action st) (compensation st) (status st) (result st) (Some e).

(** What [execute] called, in order, and how each call ended.  The number
    is the position of the step in [self.steps]. *)
Inductive call :=
| ActionReturned (i : nat) (v : pyval)
| ActionRaised (i : nat) (e : exn)
| CompensationReturned (i : nat)
| CompensationRaised (i : nat) (e : exn).

Definition SagaFailedError (sg_name step_name : string) (e : exn) : exn :=
  Exn "SagaFailedError"
      ("Saga '" +:+ sg_name +:+ "' failed at step '" +:+ step_name +:+ "': "
         +:+ exn_str e)
      (Some e).

Definition SagaCompensationError (step_name : string) (e : exn) : exn :=
  Exn "SagaCompensationError"
      ("Failed to compensate step '" +:+ step_name +:+ "': " +:+ exn_str e)
      (Some e).

(** The loop of [_compensate] over [reversed(completed_steps)].  A completed
    step is a reference to a step object: its position, paired with the
    object as enumerated, from which only the fields that [execute] never
    writes ([name], [compensation]) are read. *)
Fixpoint compensate_loop (todo : list (nat * SagaStep)) (sg : Saga)
    (log : list call) : Saga * list call * option exn :=
  match todo with
  | [] => (sg, log, None)
  | (i, st) :: rest =>
      let sg1 := update_step i (step_status STEP_COMPENSATING) sg in
      let '(ctx, r) := compensation st (context sg1) in
      let sg2 := set_context ctx sg1 in
      match r with
      | Returned _ =>
          compensate_loop rest
            (update_step i (step_status STEP_COMPENSATED) sg2)
            (log ++ [CompensationReturned i])
      | Raised e =>
          (update_step i (step_error ("Compensation failed: " +:+ exn_str e)) sg2,
           log ++ [CompensationRaised i e],
           Some (SagaCompensationError (name st) e))
      end
  end.

Definition _compensate (completed_steps : list (nat * SagaStep)) (sg : Saga)
    (log : list call) : Saga * list call * option exn :=
  let sg1 := set_status COMPENSATING sg in
  let '(sg2, log', err) := compensate_loop (reverse completed_steps) sg1 log in
  match err with
  | Some e => (sg2, log', Some e)
  | None => (set_status COMPENSATED sg2, log', None)
  end.

(** The [for step in self.steps] loop of [execute], from position [i] on;
    [None] when every remaining step completed, [Some e] for the exception
    that leaves the loop. *)
Fixpoint forward (todo : list SagaStep) (i : nat) (sg : Saga)
    (completed_steps : list (nat * SagaStep)) (log : list call)
    : Saga * list call * option exn :=
  match todo with
  | [] => (sg, log, None)
  | st :: rest =>
      let sg1 := update_step i (step_status STEP_RUNNING) sg in
      let '(ctx, r) := action st (context sg1) in
      let sg2 := set_context ctx sg1 in
      match r with
      | Returned v =>
          let sg3 := set_context (<[name st +:+ "_result" := v]> (context sg2)) sg2 in
          let sg4 := update_step i
                       (fun s => step_status STEP_COMPLETED (step_result v s)) sg3 in
          forward rest (S i) sg4 (completed_steps ++ [(i, st)])
                  (log ++ [ActionReturned i v])
      | Raised e =>
          let sg3 := update_step i
                       (fun s => step_error (exn_str e) (step_status STEP_FAILED s)) sg2 in
          let sg4 := set_error
                       (Some ("Step '" +:+ name st +:+ "' failed: " +:+ exn_str e))
                       (set_status FAILED sg3) in
          let '(sg5, log', err) :=
            _compensate completed_steps sg4 (log ++ [ActionRaised i e]) in
          match err with
          | Some ce => (sg5, log', Some ce)
          | None => (sg5, log', Some (SagaFailedError (saga_name sg) (name st) e))
          end
      end
  end.

(** [Saga.execute]: the saga after the call, the calls made, and what
    [execute] returned or raised.  [initial_context = None] is the default
    argument; an empty dict is falsy and updating with it changes nothing. *)
Definition execute (sg : Saga) (initial_context : option (gmap string pyval))
    : Saga * list call * outcome pyval :=
  let sg0 := match initial_context with
             | Some m => set_context (m ∪ context sg) sg
             | None => sg
             end in
  let sg1 := set_status RUNNING sg0 in
  let '(sg2, log, err) := forward (steps sg1) 0 sg1 [] [] in
  match err with
  | None =>
      let sg3 := set_status COMPLETED sg2 in
      (sg3, log,
       Returned (match last (steps sg3) with
                 | Some st => result st
                 | None => PyNone
                 end))
  | Some e =>
      let sg3 := if decide (saga_status sg2 = COMPENSATED) then sg2
                 else set_status FAILED sg2 in
      (sg3, log, Raised e)
  end.

(** *** Properties of [execute] *)




(** *** Failure and compensation, call by call *)

(** The context that the calls hand on: the action of step [i] is called on
    [before i], and [before (S i)] is what it leaves, with its result
    stored; the compensation of step [i] is called on [after (S i)] and
    leaves [after i]. *)
Definition action_returns (before : nat → gmap string pyval)
    (results : nat → pyval) (i : nat) (st : SagaStep) : Prop :=
  ∃ ctx, action st (before i) = (ctx, Returned (results i))
         ∧ before (S i) = <[name st +:+ "_result" := results i]> ctx.

Definition compensation_returns (after : nat → gmap string pyval)
    (i : nat) (st : SagaStep) : Prop :=
  ∃ v, compensation st (after (S i)) = (after i, Returned v).

Lemma zip_seq_snoc (l : list SagaStep) (n : nat) (st : SagaStep) :
  l !! n = Some st →
  zip (seq 0 (S n)) (take (S n) l) = zip (seq 0 n) (take n l) ++ [(n, st)].
Proof.
  intros Hst. rewrite seq_S, (take_S_r _ _ _ Hst). cbn [Nat.add].
  rewrite zip_with_app; [done|].
  rewrite length_seq, length_take. apply lookup_lt_Some in Hst. lia.
Qed.

(** While the actions return, the loop of [execute] goes on to the next
    step. *)
Lemma forward_returns (l : list SagaStep) (before : nat → gmap string pyval)
    (results : nat → pyval) (k : nat) :
  (k ≤ length l)%nat →
  (∀ i st, i < k → l !! i = Some st → action_returns before results i st) →
  ∀ sg, context sg = before 0 →
  ∃ sg1,
    context sg1 = before k ∧ saga_status sg1 = saga_status sg
    ∧ saga_name sg1 = saga_name sg
    ∧ forward l 0 sg [] []
      = forward (drop k l) k sg1 (zip (seq 0 k) (take k l))
                (map (λ i, ActionReturned i (results i)) (seq 0 k)).
Proof.
  intros Hk Hact sg Hctx. induction k as [|k IH].
  - exists sg. by rewrite drop_0.
  - destruct IH as (sg1 & Hctx1 & Hst1 & Hnm1 & ->); [lia|auto|].
    destruct (lookup_lt_is_Some_2 l k) as [st Hst]; [lia|].
    destruct (Hact k st) as (ctx & Hcall & Hnext); [lia|done|].
    rewrite (drop_S _ _ _ Hst). cbn [forward update_step context].
    rewrite Hctx1, Hcall. cbn [set_context context].
    eexists. split; [|split; [|split]]; [| | |].
    4:{ rewrite (zip_seq_snoc _ _ _ Hst), seq_S, map_app. reflexivity. }
    all: cbn; done.
Qed.

(** While the compensations return, the loop of [_compensate] goes on to
    the step before. *)
Lemma compensate_loop_returns (l : list SagaStep)
    (after : nat → gmap string pyval) (j d : nat) :
  (j + d ≤ length l)%nat →
  (∀ i st, (j ≤ i < j + d)%nat → l !! i = Some st → compensation_returns after i st) →
  ∀ sg log, context sg = after (j + d) →
  ∃ sg1,
    context sg1 = after j ∧ saga_status sg1 = saga_status sg
    ∧ saga_name sg1 = saga_name sg
    ∧ compensate_loop (reverse (zip (seq 0 (j + d)) (take (j + d) l))) sg log
      = compensate_loop (reverse (zip (seq 0 j) (take j l))) sg1
          (log ++ map CompensationReturned (reverse (seq j d))).
Proof.
  induction d as [|d IH]; intros Hlen Hcomp sg log Hctx.
  - exists sg. rewrite Nat.add_0_r in *. by rewrite app_nil_r.
  - replace (j + S d) with (S (j + d)) in * by lia.
    destruct (lookup_lt_is_Some_2 l (j + d)) as [st Hst]; [lia|].
    destruct (Hcomp (j + d) st) as [v Hcall]; [lia|done|].
    rewrite (zip_seq_snoc _ _ _ Hst), reverse_snoc.
    cbn [compensate_loop update_step context]. rewrite Hctx, Hcall.
    edestruct (IH ltac:(lia)) as (sg1 & Hctx1 & Hst1 & Hnm1 & ->);
      [intros i sti Hi; apply Hcomp; lia| |].
    { cbn. reflexivity. }
    exists sg1. split; [done|]. split; [by rewrite Hst1|].
    split; [by rewrite Hnm1|].
    by rewrite seq_S, reverse_snoc, <- app_assoc.
Qed.

(** C1.  Let the actions of the steps before step [k] return and the
    action of step [k] raise [e], each called on the context that the call
    before it left.  Then [execute] calls the compensations of the steps
    before [k], and of no other step, from step [k - 1] downwards.  If each
    of them returns, the saga's status is "compensated" and [execute] raises
    SagaFailedError from [e].  If the compensation of step [j] is the first
    to raise, with [e'], the compensations of the steps before [j] are not
    called, the status is "failed" and [execute] raises
    SagaCompensationError from [e'].  Either way the context of the saga is
    the one that the last compensation called has left. *)
Theorem saga_failure_compensates_in_reverse
    (sg : Saga) (init : option (gmap string pyval)) (k : nat) (st : SagaStep)
    (e : exn) (results : nat → pyval) (before after : nat → gmap string pyval) :
  steps sg !! k = Some st →
  before 0 = match init with
             | Some m => m ∪ context sg
             | None => context sg
             end →
  (∀ i sti, i < k → steps sg !! i = Some sti →
            action_returns before results i sti) →
  action st (before k) = (after k, Raised e) →
  let '(sg', log, res) := execute sg init in
  let actions := map (λ i, ActionReturned i (results i)) (seq 0 k)
                   ++ [ActionRaised k e] in
  ((∀ i sti, i < k → steps sg !! i = Some sti →
             compensation_returns after i sti) →
   log = actions ++ map CompensationReturned (reverse (seq 0 k))
   ∧ context sg' = after 0
   ∧ status_value (saga_status sg') = "compensated"
   ∧ res = Raised (SagaFailedError (saga_name sg) (name st) e)
   ∧ exn_cause (SagaFailedError (saga_name sg) (name st) e) = Some e)
  ∧ (∀ j stj e',
       j < k → steps sg !! j = Some stj →
       (∀ i sti, j < i < k → steps sg !! i = Some sti →
                 compensation_returns after i sti) →
       compensation stj (after (S j)) = (after j, Raised e') →
       log = actions
               ++ map CompensationReturned (reverse (seq (S j) (k - S j)))
               ++ [CompensationRaised j e']
       ∧ context sg' = after j
       ∧ status_value (saga_status sg') = "failed"
       ∧ res = Raised (SagaCompensationError (name stj) e')
       ∧ exn_class (SagaCompensationError (name stj) e')
         ≠ exn_class (SagaFailedError (saga_name sg) (name st) e)).
Proof.
  intros Hst Hinit Hacts Hraise. unfold execute.
  set (sg1 := set_status RUNNING _).
  assert (Hsteps : steps sg1 = steps sg) by (subst sg1; by destruct init).
  assert (Hname : saga_name sg1 = saga_name sg) by (subst sg1; by destruct init).
  assert (Hctx : context sg1 = before 0) by (subst sg1; by destruct init).
  clearbody sg1. rewrite Hsteps.
  assert (Hk : k < length (steps sg)) by (by eapply lookup_lt_Some).
  destruct (forward_returns (steps sg) before results k ltac:(lia) Hacts sg1 Hctx)
    as (sg2 & Hctx2 & Hst2 & Hnm2 & ->).
  rewrite (drop_S _ _ _ Hst). cbn [forward update_step context].
  rewrite Hctx2, Hraise. unfold _compensate.
  set (sgf := set_status COMPENSATING _).
  set (logf := _ ++ [ActionRaised k e]).
  assert (Hctxf : context sgf = after k) by done.
  assert (Hnmf : saga_name sgf = saga_name sg) by (cbn; congruence).
  assert (Hstf : saga_status sgf = COMPENSATING) by done.
  clearbody sgf.
  match goal with
  | |- match ?run with _ => _ end =>
      destruct run as [[sg' log] res] eqn:Hrun
  end.
  split.
  - intros Hcomp.
    destruct (compensate_loop_returns (steps sg) after 0 k ltac:(lia)
                ltac:(intros i sti Hi; apply Hcomp; lia) sgf logf Hctxf)
      as (sg3 & Hctx3 & Hst3 & Hnm3 & Hloop).
    cbn [Nat.add] in Hloop. rewrite Hloop in Hrun. cbn in Hrun.
    injection Hrun as <- <- <-. rewrite Hnm2, Hname.
    repeat split; done.
  - intros j stj e' Hj Hstj Hcomp Hcall.
    destruct (compensate_loop_returns (steps sg) after (S j) (k - S j)
                ltac:(lia) ltac:(intros i sti Hi; apply Hcomp; lia) sgf logf)
      as (sg3 & Hctx3 & Hst3 & Hnm3 & Hloop).
    { rewrite Hctxf. f_equal. lia. }
    replace (S j + (k - S j)) with k in Hloop by lia.
    rewrite Hloop, (zip_seq_snoc _ _ _ Hstj), reverse_snoc in Hrun.
    cbn [compensate_loop update_step context] in Hrun.
    rewrite Hctx3, Hcall in Hrun. cbn in Hrun.
    rewrite Hst3, Hstf in Hrun. injection Hrun as <- <- <-.
    subst logf. rewrite <- !app_assoc. repeat split; done.
Qed.

(** A three-step order saga whose last action raises. *)
Definition returns (v : pyval) : callable := fun ctx => (ctx, Returned v).
Definition raises (e : exn) : callable := fun ctx => (ctx, Raised e).
Definition boom : exn := Exn "RuntimeError" "carrier unavailable" None.
Definition order_saga : Saga :=
  add_step "ship" (raises boom) (returns PyNone)
    (add_step "charge" (returns (PyInt 2)) (returns PyNone)
       (add_step "reserve" (returns (PyInt 1)) (returns PyNone)
          (new_saga "order"))).

Example order_saga_compensated :
  let '(sg, log, res) := execute order_saga None in
  log = [ActionReturned 0 (PyInt 1); ActionReturned 1 (PyInt 2);
         ActionRaised 2 boom; CompensationReturned 1; CompensationReturned 0]
  ∧ saga_status sg = COMPENSATED
  ∧ status <$> steps sg = [STEP_COMPENSATED; STEP_COMPENSATED; STEP_FAILED]
  ∧ res = Raised (Exn "SagaFailedError"
                      "Saga 'order' failed at step 'ship': carrier unavailable"
                      (Some boom)).
Proof. vm_compute. repeat split. Qed.

(** The same saga when refunding the charge fails: the reservation is not
    released. *)
Definition stuck : exn := Exn "IOError" "refund rejected" None.
Definition order_saga_stuck : Saga :=
  add_step "ship" (raises boom) (returns PyNone)
    (add_step "charge" (returns (PyInt 2)) (raises stuck)
       (add_step "reserve" (returns (PyInt 1)) (returns PyNone)
          (new_saga "order"))).

Example order_saga_compensation_fails :
  let '(sg, log, res) := execute order_saga_stuck None in
  log = [ActionReturned 0 (PyInt 1); ActionReturned 1 (PyInt 2);
         ActionRaised 2 boom; CompensationRaised 1 stuck]
  ∧ saga_status sg = FAILED
  ∧ status <$> steps sg = [STEP_COMPLETED; STEP_COMPENSATING; STEP_FAILED]
  ∧ res = Raised (Exn "SagaCompensationError"
                      "Failed to compensate step 'charge': refund rejected"
                      (Some stuck)).
Proof. vm_compute. repeat split. Qed.

(** A four-step booking whose payment fails.  Cancelling the car succeeds
    and is noted in the context; cancelling the hotel fails, so that the
    flight is left booked. *)
Definition noting (key : string) : callable :=
  fun ctx => (<[key := PyBool true]> ctx, Returned PyNone).
Definition trip_saga : Saga :=
  add_step "pay" (raises boom) (returns PyNone)
    (add_step "car" (returns (PyInt 3)) (noting "car_cancelled")
       (add_step "hotel" (returns (PyInt 2)) (raises stuck)
          (add_step "flight" (returns (PyInt 1)) (noting "flight_cancelled")
             (new_saga "trip")))).

Definition trip_results (i : nat) : pyval := PyInt (Z.of_nat (S i)).
Definition trip_before (i : nat) : gmap string pyval :=
  match i with
  | 0 => ∅
  | 1 => <["flight_result" := PyInt 1]> ∅
  | 2 => <["hotel_result" := PyInt 2]> (<["flight_result" := PyInt 1]> ∅)
  | _ => <["car_result" := PyInt 3]>
           (<["hotel_result" := PyInt 2]> (<["flight_result" := PyInt 1]> ∅))
  end.
Definition trip_after (i : nat) : gmap string pyval :=
  match i with
  | 0 => ∅
  | 1 | 2 => <["car_cancelled" := PyBool true]> (trip_before 3)
  | _ => trip_before 3
  end.

Lemma saga_failure_compensates_in_reverse_witness :
  (∀ i sti, i < 3 → steps trip_saga !! i = Some sti →
            action_returns trip_before trip_results i sti)
  ∧ (∃ st, steps trip_saga !! 3 = Some st
           ∧ action st (trip_before 3) = (trip_after 3, Raised boom))
  ∧ (execute trip_saga None).1.2
    = [ActionReturned 0 (PyInt 1); ActionReturned 1 (PyInt 2);
       ActionReturned 2 (PyInt 3); ActionRaised 3 boom;
       CompensationReturned 2; CompensationRaised 1 stuck]
  ∧ context (execute trip_saga None).1.1 = trip_after 1
  ∧ saga_status (execute trip_saga None).1.1 = FAILED
  ∧ (execute trip_saga None).2
    = Raised (Exn "SagaCompensationError"
                  "Failed to compensate step 'hotel': refund rejected"
                  (Some stuck)).
Proof.
  assert (Hacts : ∀ i sti, i < 3 → steps trip_saga !! i = Some sti →
                           action_returns trip_before trip_results i sti).
  { intros i sti Hi Hsti. destruct i as [|[|[|i]]]; [| | |lia];
      injection Hsti as <-; eexists; split; reflexivity. }
  split; [exact Hacts|].
  split; [eexists; split; reflexivity|].
  pose proof (saga_failure_compensates_in_reverse
                trip_saga None 3 _ boom trip_results trip_before trip_after
                eq_refl eq_refl Hacts eq_refl) as Hrun.
  destruct (execute trip_saga None) as [[sg' log] res].
  destruct Hrun as [_ Hrun].
  destruct (Hrun 1 _ stuck ltac:(lia) eq_refl) as (Hlog & Hctx & Hstatus & Hres & _).
  - intros i sti Hi Hsti. destruct i as [|[|[|i]]]; try lia.
    injection Hsti as <-. eexists. reflexivity.
  - reflexivity.
  - cbn [fst snd]. split; [exact Hlog|]. split; [exact Hctx|].
    split; [by destruct (saga_status sg')|]. exact Hres.
Defined.

(** *** The step records after [execute] *)

(** What the outcome of a call writes to the record of its step: the
    assignments to [step.status], [step.result] and [step.error] made around
    the call, taken together. *)
Definition completed (v : pyval) (st : SagaStep) : SagaStep :=
  mkStep (name st) (action st) (compensation st) STEP_COMPLETED v (error st).
Definition failed (e : exn) (st : SagaStep) : SagaStep :=
  mkStep (name st) (action st) (compensation st) STEP_FAILED (result st)
         (Some (exn_str e)).
Definition compensated (st : SagaStep) : SagaStep :=
  mkStep (name st) (action st) (compensation st) STEP_COMPENSATED (result st)
         (error st).
Definition compensation_failed (e : exn) (st : SagaStep) : SagaStep :=
  mkStep (name st) (action st) (compensation st) STEP_COMPENSATING (result st)
         (Some ("Compensation failed: " +:+ exn_str e)).

Definition call_index (c : call) : nat :=
  match c with
  | ActionReturned i _ | ActionRaised i _
  | CompensationReturned i | CompensationRaised i _ => i
  end.

Definition call_effect (c : call) : SagaStep -> SagaStep :=
  match c with
  | ActionReturned _ v => completed v
  | ActionRaised _ e => failed e
  | CompensationReturned _ => compensated
  | CompensationRaised _ e => compensation_failed e
  end.

(** The record of step [j] after the calls [cs]. *)
Definition step_after (cs : list call) (j : nat) (st : SagaStep) : SagaStep :=
  foldl (fun s c => if decide (call_index c = j) then call_effect c s else s)
        st cs.







Lemma step_after_cons (c : call) (cs : list call) (j : nat) (st : SagaStep) :
  step_after (c :: cs) j st
  = step_after cs j (if decide (call_index c = j) then call_effect c st else st).
Proof. done. Qed.

Lemma step_after_unmentioned (cs : list call) (j : nat) :
  ∀ st, (∀ c, c ∈ cs → call_index c ≠ j) → step_after cs j st = st.
Proof.
  induction cs as [|c cs IH]; intros st Hcs; [done|].
  rewrite step_after_cons. rewrite decide_False by (apply Hcs; left).
  apply IH. intros c' Hc'. apply Hcs. by right.
Qed.












End Saga.

(** ** The clock *)

(** [datetime.utcnow()] reads a clock.  A clock is the sequence of its
    readings, in microseconds, and the number of readings made so far; no
    relation between successive readings is assumed. *)
Record Clock := mkClock { readings : nat -> Z; position : nat }.

Definition utcnow (c : Clock) : Z * Clock :=
  (readings c (position c), mkClock (readings c) (S (position c))).

(** ** resilience/circuit_breaker.py *)

Module CircuitBreaker.

Local Open Scope Z_scope.

Inductive CircuitState := CLOSED | OPEN | HALF_OPEN.

#[global] Instance CircuitState_eq_dec : EqDecision CircuitState.
Proof. solve_decision. Defined.

(** [timeout] is [timedelta(seconds=timeout_seconds)], in microseconds;
    [expected_exceptions] is the [isinstance] test against the tuple of
    exception classes. *)
Record CircuitBreakerConfig := mkConfig {
  failure_threshold : Z;
  success_threshold : Z;
  timeout : Z;
  expected_exceptions : exn -> bool
}.

Record CircuitBreaker := mkCircuitBreaker {
  name : string;
  config : CircuitBreakerConfig;
  state : CircuitState;
  _failure_count : Z;
  _success_count : Z;
  _last_failure_time : option Z;
  _last_state_change : Z;
  _total_calls : Z;
  _total_failures : Z;
  _total_successes : Z;
  _total_rejected : Z
}.

Definition set_state (v : CircuitState) (cb : CircuitBreaker) : CircuitBreaker :=
  mkCircuitBreaker (name cb) (config cb) v (_failure_count cb)
    (_success_count cb) (_last_failure_time cb) (_last_state_change cb)
    (_total_calls cb) (_total_failures cb) (_total_successes cb)
    (_total_rejected cb) .
Definition set_failure_count (v : Z) (cb : CircuitBreaker) : CircuitBreaker :=
  mkCircuitBreaker (name cb) (config cb) (state cb) v (_success_count cb)
    (_last_failure_time cb) (_last_state_change cb) (_total_calls cb)
    (_total_failures cb) (_total_successes cb) (_total_rejected cb) .
Definition set_success_count (v : Z) (cb : CircuitBreaker) : CircuitBreaker :=
  mkCircuitBreaker (name cb) (config cb) (state cb) (_failure_count cb) v
    (_last_failure_time cb) (_last_state_change cb) (_total_calls cb)
    (_total_failures cb) (_total_successes cb) (_total_rejected cb) .
Definition set_last_failure_time (v : option Z) (cb : CircuitBreaker) : CircuitBreaker :=
  mkCircuitBreaker (name cb) (config cb) (state cb) (_failure_count cb)
    (_success_count cb) v (_last_state_change cb) (_total_calls cb)
    (_total_failures cb) (_total_successes cb) (_total_rejected cb) .
Definition set_last_state_change (v : Z) (cb : CircuitBreaker) : CircuitBreaker :=
  mkCircuitBreaker (name cb) (config cb) (state cb) (_failure_count cb)
    (_success_count cb) (_last_failure_time cb) v (_total_calls cb)
    (_total_failures cb) (_total_successes cb) (_total_rejected cb) .
Definition set_total_calls (v : Z) (cb : CircuitBreaker) : CircuitBreaker :=
  mkCircuitBreaker (name cb) (config cb) (state cb) (_failure_count cb)
    (_success_count cb) (_last_failure_time cb) (_last_state_change cb) v
    (_total_failures cb) (_total_successes cb) (_total_rejected cb) .
Definition set_total_failures (v : Z) (cb : CircuitBreaker) : CircuitBreaker :=
  mkCircuitBreaker (name cb) (config cb) (state cb) (_failure_count cb)
    (_success_count cb) (_last_failure_time cb) (_last_state_change cb)
    (_total_calls cb) v (_total_successes cb) (_total_rejected cb) .
Definition set_total_successes (v : Z) (cb : CircuitBreaker) : CircuitBreaker :=
  mkCircuitBreaker (name cb) (config cb) (state cb) (_failure_count cb)
    (_success_count cb) (_last_failure_time cb) (_last_state_change cb)
    (_total_calls cb) (_total_failures cb) v (_total_rejected cb) .
Definition set_total_rejected (v : Z) (cb : CircuitBreaker) : CircuitBreaker :=
  mkCircuitBreaker (name cb) (config cb) (state cb) (_failure_count cb)
    (_success_count cb) (_last_failure_time cb) (_last_state_change cb)
    (_total_calls cb) (_total_failures cb) (_total_successes cb) v.

(** [CircuitBreaker.__init__] *)
Definition new (nm : string) (cfg : CircuitBreakerConfig) (clk : Clock)
    : CircuitBreaker * Clock :=
  let '(now, clk) := utcnow clk in
  (mkCircuitBreaker nm cfg CLOSED 0 0 None now 0 0 0 0, clk).

Definition _should_attempt_reset (cb : CircuitBreaker) (clk : Clock)
    : bool * Clock :=
  match _last_failure_time cb with
  | None => (true, clk)
  | Some last =>
      let '(now, clk) := utcnow clk in
      let elapsed := now - last in
      (timeout (config cb) <=? elapsed, clk)
  end.

Definition _transition_to_open (cb : CircuitBreaker) (clk : Clock)
    : CircuitBreaker * Clock :=
  let '(now, clk) := utcnow clk in
  (set_success_count 0 (set_last_state_change now (set_state OPEN cb)), clk).

Definition _transition_to_half_open (cb : CircuitBreaker) (clk : Clock)
    : CircuitBreaker * Clock :=
  let '(now, clk) := utcnow clk in
  (set_success_count 0
     (set_failure_count 0 (set_last_state_change now (set_state HALF_OPEN cb))),
   clk).

Definition _transition_to_closed (cb : CircuitBreaker) (clk : Clock)
    : CircuitBreaker * Clock :=
  let '(now, clk) := utcnow clk in
  (set_success_count 0
     (set_failure_count 0 (set_last_state_change now (set_state CLOSED cb))),
   clk).

Definition reset := _transition_to_closed.

Definition _on_success (cb : CircuitBreaker) (clk : Clock)
    : CircuitBreaker * Clock :=
  let cb := set_total_successes (_total_successes cb + 1) cb in
  let cb := set_failure_count 0 cb in
  let cb := set_success_count (_success_count cb + 1) cb in
  match state cb with
  | HALF_OPEN =>
      if success_threshold (config cb) <=? _success_count cb
      then _transition_to_closed cb clk
      else (cb, clk)
  | _ => (cb, clk)
  end.

Definition _on_failure (cb : CircuitBreaker) (clk : Clock)
    : CircuitBreaker * Clock :=
  let cb := set_total_failures (_total_failures cb + 1) cb in
  let cb := set_failure_count (_failure_count cb + 1) cb in
  let cb := set_success_count 0 cb in
  let '(now, clk) := utcnow clk in
  let cb := set_last_failure_time (Some now) cb in
  match state cb with
  | CLOSED =>
      if failure_threshold (config cb) <=? _failure_count cb
      then _transition_to_open cb clk
      else (cb, clk)
  | HALF_OPEN => _transition_to_open cb clk
  | OPEN => (cb, clk)
  end.

(** [str()] of the optional datetime, rendered as its microsecond count. *)
Definition datetime_str (t : option Z) : string :=
  match t with
  | None => "None"
  | Some t => pretty t
  end.

Definition CircuitBreakerOpenError (cb : CircuitBreaker) : exn :=
  Exn "CircuitBreakerOpenError"
      ("Circuit breaker '" +:+ name cb +:+ "' is OPEN. Last failure: "
         +:+ datetime_str (_last_failure_time cb))
      None.

(** What a call leaves behind: the breaker, the clock, what the call
    returned or raised, and whether the wrapped function was invoked. *)
Record CallResult := mkCallResult {
  breaker : CircuitBreaker;
  clock : Clock;
  result : outcome pyval;
  invoked : bool
}.

(** The first half of [call], up to the [try]: count the call, and when the
    circuit is open either move to half-open or reject. *)
Definition check_circuit (cb : CircuitBreaker) (clk : Clock)
    : CircuitBreaker * Clock * option exn :=
  let cb := set_total_calls (_total_calls cb + 1) cb in
  match state cb with
  | OPEN =>
      let '(should_reset, clk) := _should_attempt_reset cb clk in
      if should_reset
      then let '(cb, clk) := _transition_to_half_open cb clk in (cb, clk, None)
      else let cb := set_total_rejected (_total_rejected cb + 1) cb in
           (cb, clk, Some (CircuitBreakerOpenError cb))
  | _ => (cb, clk, None)
  end.

(** The [try] block of [call]: invoke the function and record how it went.
    An exception outside [expected_exceptions] passes through unrecorded. *)
Definition attempt (cb : CircuitBreaker) (clk : Clock)
    (func : unit -> outcome pyval) : CallResult :=
  match func tt with
  | Returned v =>
      let '(cb, clk) := _on_success cb clk in
      mkCallResult cb clk (Returned v) true
  | Raised e =>
      if expected_exceptions (config cb) e
      then let '(cb, clk) := _on_failure cb clk in
           mkCallResult cb clk (Raised e) true
      else mkCallResult cb clk (Raised e) true
  end.

Definition call (cb : CircuitBreaker) (clk : Clock)
    (func : unit -> outcome pyval) : CallResult :=
  match check_circuit cb clk with
  | (cb, clk, Some e) => mkCallResult cb clk (Raised e) false
  | (cb, clk, None) => attempt cb clk func
  end.

(** *** The state machine *)

(** A wrapped function fails when it raises one of the expected exceptions,
    and succeeds when it returns. *)
Definition fails (cb : CircuitBreaker) (func : unit -> outcome pyval) : Prop :=
  ∃ e, func tt = Raised e ∧ expected_exceptions (config cb) e = true.

Definition succeeds (func : unit -> outcome pyval) : Prop :=
  ∃ v, func tt = Returned v.

Ltac unfold_call :=
  unfold call, check_circuit, attempt, _on_failure, _on_success, _should_attempt_reset,
    _transition_to_open, _transition_to_half_open, _transition_to_closed,
    utcnow in *.

Ltac crunch :=
  repeat (cbn;
          match goal with
          | H : state ?cb = _ |- context [state ?cb] => rewrite H
          | H : _last_failure_time ?cb = _
            |- context [_last_failure_time ?cb] => rewrite H
          | |- context [if ?b then _ else _] => destruct b eqn:?
          end); cbn.

Lemma call_config (cb : CircuitBreaker) (clk : Clock) func :
  config (breaker (call cb clk func)) = config cb.
Proof.
  unfold_call.
  destruct (state cb) eqn:Hs, (_last_failure_time cb) as [last|] eqn:Hl,
    (func tt) as [v|e]; crunch; reflexivity.
Qed.

(** One recorded failure while closed: the count goes up by one and the
    circuit opens exactly when the count reaches the threshold. *)
Lemma closed_failure (cb : CircuitBreaker) (clk : Clock) func :
  state cb = CLOSED → fails cb func →
  let r := call cb clk func in
  invoked r = true ∧
  state (breaker r) =
    (if failure_threshold (config cb) <=? _failure_count cb + 1
     then OPEN else CLOSED) ∧
  (state (breaker r) = CLOSED → _failure_count (breaker r) = _failure_count cb + 1).
Proof.
  intros Hs (e & He & Hexp). unfold_call. cbn. rewrite Hs, He. cbn.
  rewrite Hexp, Hs. cbn.
  destruct (failure_threshold (config cb) <=? _failure_count cb + 1); cbn;
    by repeat split.
Qed.

(** One success while half-open: the circuit closes exactly when the count
    of successes reaches the threshold. *)
Lemma half_open_success (cb : CircuitBreaker) (clk : Clock) func :
  state cb = HALF_OPEN → succeeds func →
  let r := call cb clk func in
  invoked r = true ∧
  state (breaker r) =
    (if success_threshold (config cb) <=? _success_count cb + 1
     then CLOSED else HALF_OPEN) ∧
  (state (breaker r) = HALF_OPEN → _success_count (breaker r) = _success_count cb + 1).
Proof.
  intros Hs (v & Hv). unfold_call. cbn. rewrite Hs, Hv. cbn. rewrite Hs. cbn.
  destruct (success_threshold (config cb) <=? _success_count cb + 1); cbn;
    by repeat split.
Qed.




(** Where the counts are zero: in a new breaker, after a success while
    closed, and in the half-open breaker that the function is invoked in
    after the timeout (see [open_probes]). *)
Lemma new_counts nm cfg clk :
  state (new nm cfg clk).1 = CLOSED ∧ _failure_count (new nm cfg clk).1 = 0.
Proof. done. Qed.

Lemma closed_success (cb : CircuitBreaker) (clk : Clock) func :
  state cb = CLOSED → succeeds func →
  let r := call cb clk func in
  invoked r = true ∧ state (breaker r) = CLOSED ∧ _failure_count (breaker r) = 0.
Proof.
  intros Hs (v & Hv). unfold_call. cbn. rewrite Hs, Hv. cbn. by rewrite Hs.
Qed.

(** From open, after the timeout: the call that probes and the next call,
    both succeeding, close the circuit when the threshold is 2. *)
Lemma probe_and_success_close (cb : CircuitBreaker) (clk : Clock) f1 f2 (last : Z) :
  success_threshold (config cb) = 2 →
  state cb = OPEN → _last_failure_time cb = Some last →
  timeout (config cb) ≤ readings clk (position clk) - last →
  succeeds f1 → succeeds f2 →
  let r1 := call cb clk f1 in
  let r2 := call (breaker r1) (clock r1) f2 in
  state (breaker r1) = HALF_OPEN ∧ state (breaker r2) = CLOSED.
Proof.
  intros Hst Hs Hl Hle (v1 & Hv1) (v2 & Hv2) r1 r2.
  assert (Hr1 : state (breaker r1) = HALF_OPEN ∧ _success_count (breaker r1) = 1
                ∧ config (breaker r1) = config cb).
  { subst r1. unfold_call. cbn. rewrite Hs, Hl. cbn.
    destruct (Z.leb_spec (timeout (config cb)) (readings clk (position clk) - last));
      [|lia]. cbn. rewrite Hv1. cbn. by rewrite Hst. }
  destruct Hr1 as (Hs1 & Hc1 & Hcfg1). split; [exact Hs1|].
  destruct (half_open_success (breaker r1) (clock r1) f2 Hs1) as (_ & Hs2 & _);
    [by exists v2|].
  fold r2 in Hs2. rewrite Hs2, Hcfg1, Hst, Hc1. reflexivity.
Qed.

(** An open circuit always has a last-failure time, in every state that a
    sequence of calls and resets can reach from a new breaker. *)
Definition open_has_failure_time (cb : CircuitBreaker) : Prop :=
  state cb = OPEN → is_Some (_last_failure_time cb).

Lemma new_open_has_failure_time nm cfg clk :
  open_has_failure_time (new nm cfg clk).1.
Proof. by intros Hs. Qed.

Lemma reset_open_has_failure_time cb clk :
  open_has_failure_time (reset cb clk).1.
Proof. by intros Hs. Qed.

Lemma call_open_has_failure_time cb clk func :
  open_has_failure_time cb → open_has_failure_time (breaker (call cb clk func)).
Proof.
  unfold open_has_failure_time. intros Hinv. unfold_call.
  destruct (state cb) eqn:Hs, (_last_failure_time cb) as [last|] eqn:Hl,
    (func tt) as [v|e]; crunch; try done;
    intros; try (by eexists); by apply Hinv.
Qed.


(** The breaker and the clock after a sequence of calls. *)
Fixpoint after_calls (cb : CircuitBreaker) (clk : Clock)
    (funcs : list (unit -> outcome pyval)) : CircuitBreaker * Clock :=
  match funcs with
  | [] => (cb, clk)
  | func :: rest =>
      let r := call cb clk func in after_calls (breaker r) (clock r) rest
  end.

(** For any threshold: a closed breaker that has counted [c] failures stays
    closed while the failures counted are below the threshold and is open
    after the failure that reaches it. *)
Lemma consecutive_failures_open (funcs : list (unit -> outcome pyval)) :
  ∀ (cb : CircuitBreaker) (clk : Clock),
    state cb = CLOSED →
    Forall (fails cb) funcs →
    _failure_count cb + Z.of_nat (length funcs) ≤ failure_threshold (config cb) →
    state (after_calls cb clk funcs).1
    = match funcs with
      | [] => CLOSED
      | _ => if _failure_count cb + Z.of_nat (length funcs)
                =? failure_threshold (config cb)
             then OPEN else CLOSED
      end.
Proof.
  induction funcs as [|func funcs IH]; intros cb clk Hs Hfails Hle; [done|].
  apply Forall_cons in Hfails as [Hf Hfails].
  destruct (closed_failure cb clk func Hs Hf) as (_ & Hs1 & Hc1).
  cbn [after_calls]. cbn [length] in *.
  destruct (Z.leb_spec (failure_threshold (config cb)) (_failure_count cb + 1))
    as [Hreach|Hbelow].
  - (* the threshold is reached by this failure: no call follows *)
    destruct funcs as [|? ?]; [|cbn [length] in Hle; lia].
    simpl. rewrite Hs1. simpl in Hle.
    by rewrite (proj2 (Z.eqb_eq _ _)) by lia.
  - specialize (Hc1 Hs1).
    assert (Hcfg : config (breaker (call cb clk func)) = config cb)
      by apply call_config.
    rewrite IH.
    + rewrite Hc1, Hcfg. destruct funcs as [|f' funcs'].
      * simpl. by rewrite (proj2 (Z.eqb_neq _ _)) by lia.
      * replace (_failure_count cb + 1 + Z.of_nat (length (f' :: funcs')))
          with (_failure_count cb + Z.of_nat (S (length (f' :: funcs'))))
          by lia.
        done.
    + exact Hs1.
    + eapply Forall_impl; [exact Hfails|].
      intros f (e & He & Hexp). exists e. split; [done|]. by rewrite Hcfg.
    + rewrite Hc1, Hcfg. lia.
Qed.

(** A run of the breaker: one wrapped function per call, the circuit state
    and the invocation flag after each. *)
Fixpoint run_calls (cb : CircuitBreaker) (clk : Clock)
    (funcs : list (unit -> outcome pyval)) : list (CircuitState * bool) :=
  match funcs with
  | [] => []
  | func :: rest =>
      let r := call cb clk func in
      (state (breaker r), invoked r) :: run_calls (breaker r) (clock r) rest
  end.

(** A breaker with thresholds 3 and 2 and a timeout of 60 s, on a clock whose
    successive readings are 20 s apart. *)
Definition demo_config : CircuitBreakerConfig :=
  mkConfig 3 2 60000000 (fun _ => true).
Definition demo_clock : Clock :=
  mkClock (fun n => Z.of_nat n * 20000000) 0.
Definition demo_breaker : CircuitBreaker := (new "svc" demo_config demo_clock).1.
Definition demo_clock1 : Clock := (new "svc" demo_config demo_clock).2.
Definition down : unit -> outcome pyval :=
  fun _ => Raised (Exn "ConnectionError" "refused" None).
Definition up : unit -> outcome pyval := fun _ => Returned (PyStr "ok").

Example demo_run_recovers :
  run_calls demo_breaker demo_clock1 [down; down; down; up; up; up]
  = [(CLOSED, true); (CLOSED, true); (OPEN, true);
     (OPEN, false); (HALF_OPEN, true); (CLOSED, true)].
Proof. vm_compute. reflexivity. Qed.

Example demo_run_reopens :
  run_calls demo_breaker demo_clock1 [down; down; down; up; down; up]
  = [(CLOSED, true); (CLOSED, true); (OPEN, true);
     (OPEN, false); (OPEN, true); (OPEN, false)].
Proof. vm_compute. reflexivity. Qed.


(** *** Rejections, counters and unexpected exceptions *)






(** The counts agree with the state: they are not negative, a closed
    breaker has counted fewer failures than the failure threshold, a
    half-open one no failure and fewer successes than the success
    threshold, and an open one has a last-failure time. *)
Definition consistent (cb : CircuitBreaker) : Prop :=
  0 ≤ _failure_count cb ∧ 0 ≤ _success_count cb ∧
  match state cb with
  | CLOSED => _failure_count cb < failure_threshold (config cb)
  | HALF_OPEN => _failure_count cb = 0 ∧
                 _success_count cb < success_threshold (config cb)
  | OPEN => is_Some (_last_failure_time cb)
  end.

(** X5.  With positive thresholds, the counts of a breaker agree with its
    state when it is created, after [reset], and after every [call] made on
    a breaker whose counts agree with its state. *)
Theorem counts_agree_with_state (cfg : CircuitBreakerConfig) :
  0 < failure_threshold cfg → 0 < success_threshold cfg →
  (∀ nm clk, consistent (new nm cfg clk).1)
  ∧ (∀ cb clk, config cb = cfg → consistent (reset cb clk).1)
  ∧ (∀ cb clk func, config cb = cfg → consistent cb →
       consistent (breaker (call cb clk func))).
Proof.
  intros Hf Hsu. split; [|split].
  - intros nm clk. unfold consistent. cbn. lia.
  - intros cb clk <-. unfold consistent. cbn. lia.
  - intros cb clk func <- (Hfc & Hsc & Hst). unfold consistent.
    revert Hst. unfold_call.
    destruct (state cb) eqn:Hs, (_last_failure_time cb) as [last|] eqn:Hl;
      intros Hst; cbn; rewrite ?Hs, ?Hl; cbn.
    all: try match goal with
           | |- context [?t <=? ?x - last] =>
               destruct (Z.leb_spec t (x - last)); cbn
           end.
    all: destruct (func tt) as [v|e] eqn:Hfn; cbn; rewrite ?Hs; cbn.
    all: try (destruct (expected_exceptions (config cb) e) eqn:Hexp).
    all: repeat (cbn; rewrite ?Hexp, ?Hs, ?Hl;
                 try match goal with
                   | |- context [if ?b then _ else _] =>
                       let H := fresh in destruct b eqn:H;
                       first [apply Z.leb_le in H | apply Z.leb_gt in H]
                   end).
    all: repeat split; try lia; try done; try (by eexists).
    all: try (destruct Hst; lia).
Qed.

Lemma counts_agree_with_state_witness :
  0 < failure_threshold demo_config ∧ 0 < success_threshold demo_config ∧
  consistent (breaker (call demo_breaker demo_clock1 down)).
Proof.
  split; [reflexivity|]. split; [reflexivity|].
  apply (proj2 (proj2 (counts_agree_with_state demo_config
                         eq_refl eq_refl))); [reflexivity|].
  apply (proj1 (counts_agree_with_state demo_config eq_refl eq_refl)).
Defined.

(** The function raises an exception outside [expected_exceptions]. *)
Definition raises_unexpected (cb : CircuitBreaker)
    (func : unit -> outcome pyval) : Prop :=
  ∃ e, func tt = Raised e ∧ expected_exceptions (config cb) e = false.

Lemma call_unexpected (cb : CircuitBreaker) (clk : Clock) func :
  state cb ≠ OPEN → raises_unexpected cb func →
  breaker (call cb clk func) = set_total_calls (_total_calls cb + 1) cb
  ∧ clock (call cb clk func) = clk
  ∧ result (call cb clk func) = func tt.
Proof.
  intros Hs (e & He & Hexp). unfold_call.
  destruct (state cb) eqn:Hst; [|done|]; cbn; rewrite Hst, He; cbn;
    by rewrite Hexp.
Qed.

(** X6.  Exceptions outside [expected_exceptions] are never counted: on a
    breaker that is not open, any number of calls whose functions raise
    such exceptions leaves the state, the failure and success counts, the
    last-failure time and the totals of failures, successes and rejections
    as they were; only the total of calls grows. *)
Theorem unexpected_exceptions_are_not_counted
    (funcs : list (unit -> outcome pyval)) :
  ∀ (cb : CircuitBreaker) (clk : Clock),
    state cb ≠ OPEN →
    Forall (raises_unexpected cb) funcs →
    (after_calls cb clk funcs).1
    = set_total_calls (_total_calls cb + Z.of_nat (length funcs)) cb.
Proof.
  induction funcs as [|func funcs IH]; intros cb clk Hs Hall.
  - cbn. rewrite Z.add_0_r. by destruct cb.
  - apply Forall_cons in Hall as [Hf Hfs].
    destruct (call_unexpected cb clk func Hs Hf) as (Hb & Hc & _).
    cbn [after_calls length]. rewrite Hb, Hc, IH; [| done |].
    + unfold set_total_calls. cbn. f_equal. lia.
    + eapply Forall_impl; [exact Hfs|]. by intros f (e & He & Hexp); exists e.
Qed.

(** A breaker that counts connection errors only. *)
Definition connection_errors_only : CircuitBreakerConfig :=
  mkConfig 3 2 60000000 (fun e => String.eqb (exn_class e) "ConnectionError").
Definition bug : unit -> outcome pyval :=
  fun _ => Raised (Exn "KeyError" "'id'" None).

Definition picky_breaker : CircuitBreaker :=
  (new "svc" connection_errors_only demo_clock).1.

Lemma unexpected_exceptions_are_not_counted_witness :
  state picky_breaker ≠ OPEN ∧
  Forall (raises_unexpected picky_breaker) [bug; bug; bug; bug] ∧
  (after_calls picky_breaker demo_clock1 [bug; bug; bug; bug]).1
  = set_total_calls (_total_calls picky_breaker + Z.of_nat 4) picky_breaker.
Proof.
  assert (Hs : state picky_breaker ≠ OPEN) by discriminate.
  assert (Hall : Forall (raises_unexpected picky_breaker) [bug; bug; bug; bug]).
  { repeat constructor; by eexists. }
  split; [exact Hs|]. split; [exact Hall|].
  exact (unexpected_exceptions_are_not_counted [bug; bug; bug; bug]
           picky_breaker demo_clock1 Hs Hall).
Defined.


End CircuitBreaker.

(** ** resilience/retry.py *)

Module Retry.

Local Open Scope Z_scope.

Inductive BackoffStrategy := FIXED | LINEAR | EXPONENTIAL.

Inductive JitterType := NONE | FULL | EQUAL | DECORRELATED.

Section RetryPolicy.

(** The type of floats.  The control flow of [execute] depends on the delay
    arithmetic only through its result and through whether it raises, so
    [execute] is stated over any type of delays and any delay computation
    (below, [_calculate_delay] on exact rationals is one). *)
Variable float : Type.

Record RetryConfig := mkRetryConfig {
  max_attempts : Z;
  base_delay : float;
  max_delay : float;
  backoff_strategy : BackoffStrategy;
  jitter_type : JitterType;
  multiplier : float;
  retry_on_exceptions : exn -> bool;
  retry_on_result : option (pyval -> bool)
}.

(** The method [_calculate_delay]: from the configuration, the attempt
    number and the previous delay it gives a delay, or raises (on floats
    the power [multiplier ** (attempt - 1)] raises OverflowError when it
    leaves the range of floats). *)
Variable _calculate_delay : RetryConfig -> Z -> float -> outcome float.

Record RetryPolicy := mkRetryPolicy {
  name : string;
  config : RetryConfig;
  _total_calls : Z;
  _total_retries : Z;
  _total_successes : Z;
  _total_failures : Z
}.

Definition new (nm : string) (cfg : RetryConfig) : RetryPolicy :=
  mkRetryPolicy nm cfg 0 0 0 0.

Definition count_call (p : RetryPolicy) : RetryPolicy :=
  mkRetryPolicy (name p) (config p) (_total_calls p + 1) (_total_retries p)
                (_total_successes p) (_total_failures p).
Definition count_retry (p : RetryPolicy) : RetryPolicy :=
  mkRetryPolicy (name p) (config p) (_total_calls p) (_total_retries p + 1)
                (_total_successes p) (_total_failures p).
Definition count_success (p : RetryPolicy) : RetryPolicy :=
  mkRetryPolicy (name p) (config p) (_total_calls p) (_total_retries p)
                (_total_successes p + 1) (_total_failures p).
Definition count_failure (p : RetryPolicy) : RetryPolicy :=
  mkRetryPolicy (name p) (config p) (_total_calls p) (_total_retries p)
                (_total_successes p) (_total_failures p + 1).

Definition exception_str (e : option exn) : string :=
  match e with
  | None => "None"
  | Some e => exn_str e
  end.

(** [raise RetryExhaustedError(...) from last_exception] *)
Definition RetryExhaustedError (p : RetryPolicy) (last_exception : option exn)
    : exn :=
  Exn "RetryExhaustedError"
      ("Retry policy '" +:+ name p +:+ "' exhausted after "
         +:+ pretty (max_attempts (config p)) +:+ " attempts. Last exception: "
         +:+ exception_str last_exception)
      last_exception.

(** [self.config.retry_on_result and self.config.retry_on_result(result)] *)
Definition result_wants_retry (cfg : RetryConfig) (result : pyval) : bool :=
  match retry_on_result cfg with
  | None => false
  | Some predicate => predicate result
  end.

(** What [execute] leaves behind: the policy with its counters, what was
    returned or raised, the attempts at which the function was invoked and
    the delays slept. *)
Record Execution := mkExecution {
  policy : RetryPolicy;
  result : outcome pyval;
  invoked_at : list Z;
  slept : list float
}.

(** The [for attempt in range(1, max_attempts + 1)] loop with [remaining]
    iterations to go.  [func attempt] is what the wrapped function does when
    it is invoked at that attempt.  [handle] is the [except] clause; a delay
    computation that raises inside the [try] block is handled by it like any
    exception, one that raises inside the clause leaves [execute]. *)
Fixpoint attempts (func : Z -> outcome pyval) (remaining : nat) (attempt : Z)
    (p : RetryPolicy) (previous_delay : float) (last_exception : option exn)
    (inv : list Z) (sl : list float) : Execution :=
  match remaining with
  | O => mkExecution p (Raised (RetryExhaustedError p last_exception)) inv sl
  | S remaining =>
      let inv := inv ++ [attempt] in
      let handle (e : exn) : Execution :=
        if retry_on_exceptions (config p) e then
          if attempt <? max_attempts (config p) then
            match _calculate_delay (config p) attempt previous_delay with
            | Returned delay =>
                attempts func remaining (attempt + 1) (count_retry p) delay
                         (Some e) inv (sl ++ [delay])
            | Raised e' => mkExecution p (Raised e') inv sl
            end
          else
            let p := count_failure p in
            mkExecution p (Raised (RetryExhaustedError p (Some e))) inv sl
        else mkExecution p (Raised e) inv sl in
      match func attempt with
      | Returned result =>
          if result_wants_retry (config p) result
             && (attempt <? max_attempts (config p))
          then
            match _calculate_delay (config p) attempt previous_delay with
            | Returned delay =>
                attempts func remaining (attempt + 1) (count_retry p) delay
                         last_exception inv (sl ++ [delay])
            | Raised e => handle e
            end
          else mkExecution (count_success p) (Returned result) inv sl
      | Raised e => handle e
      end
  end.

Definition execute (p : RetryPolicy) (func : Z -> outcome pyval) : Execution :=
  let p := count_call p in
  attempts func (Z.to_nat (max_attempts (config p))) 1 p
           (base_delay (config p)) None [] [].

(** *** The two retry triggers *)


(** The attempts from [a] to [max_attempts], as [range] enumerates them. *)
Definition attempt_range (a : Z) (n : nat) : list Z :=
  (λ i : nat, a + Z.of_nat i) <$> seq 0 n.

Lemma attempt_range_cons (a : Z) (n : nat) :
  attempt_range a (S n) = a :: attempt_range (a + 1) n.
Proof.
  unfold attempt_range. simpl. rewrite Z.add_0_r. f_equal.
  rewrite <- fmap_S_seq, <- list_fmap_compose. apply list_fmap_ext.
  intros _ i _. simpl. lia.
Qed.

Section Loop.

Variable func : Z -> outcome pyval.
Variable cfg : RetryConfig.

Hypothesis delay_returns :
  ∀ a prev, 1 ≤ a < max_attempts cfg →
            ∃ d, _calculate_delay cfg a prev = Returned d.



End Loop.


(** *** The attempts of any function *)

(** The policy after [n] more retries have been counted. *)
Definition add_retries (n : Z) (p : RetryPolicy) : RetryPolicy :=
  mkRetryPolicy (name p) (config p) (_total_calls p) (_total_retries p + n)
                (_total_successes p) (_total_failures p).

Lemma attempt_range_snoc (a : Z) (n : nat) :
  attempt_range a (S n) = attempt_range a n ++ [a + Z.of_nat n].
Proof. unfold attempt_range. by rewrite seq_S, fmap_app. Qed.

Lemma attempts_shape (func : Z -> outcome pyval) (n : nat) :
  ∀ a p prev last inv sl,
    n = O ∨ a + Z.of_nat n = max_attempts (config p) + 1 →
    let r := attempts func n a p prev last inv sl in
    ∃ (m : nat) (ds : list float),
      (m ≤ n)%nat ∧ (n ≠ O → m ≠ O) ∧
      invoked_at r = inv ++ attempt_range a m ∧
      slept r = sl ++ ds ∧
      length ds = (m - 1)%nat ∧
      _total_retries (policy r) = _total_retries p + Z.of_nat (length ds) ∧
      _total_calls (policy r) = _total_calls p.
Proof.
  induction n as [|n IH]; intros a p prev last inv sl Hn r; subst r.
  - exists 0%nat, []. cbn. rewrite !app_nil_r. repeat split; lia.
  - destruct Hn as [|Hn]; [done|].
    assert (Hstop : ∀ q res,
              _total_retries q = _total_retries p →
              _total_calls q = _total_calls p →
              let r := mkExecution q res (inv ++ [a]) sl in
              ∃ (m : nat) (ds : list float),
                (m ≤ S n)%nat ∧ (S n ≠ O → m ≠ O) ∧
                invoked_at r = inv ++ attempt_range a m ∧
                slept r = sl ++ ds ∧ length ds = (m - 1)%nat ∧
                _total_retries (policy r) = _total_retries p + Z.of_nat (length ds) ∧
                _total_calls (policy r) = _total_calls p).
    { intros q res Hq Hc. exists 1%nat, []. cbn. rewrite app_nil_r, Z.add_0_r.
      repeat split; [lia|lia|lia|done]. }
    assert (Hgo : ∀ d last',
              a < max_attempts (config p) →
              let r := attempts func n (a + 1) (count_retry p) d last'
                                (inv ++ [a]) (sl ++ [d]) in
              ∃ (m : nat) (ds : list float),
                (m ≤ S n)%nat ∧ (S n ≠ O → m ≠ O) ∧
                invoked_at r = inv ++ attempt_range a m ∧
                slept r = sl ++ ds ∧ length ds = (m - 1)%nat ∧
                _total_retries (policy r) = _total_retries p + Z.of_nat (length ds) ∧
                _total_calls (policy r) = _total_calls p).
    { intros d last' Hlt.
      destruct (IH (a + 1) (count_retry p) d last' (inv ++ [a]) (sl ++ [d]))
        as (m & ds & Hm & Hm1 & Hinv & Hsl & Hlen & Hret & Hcalls);
        [right; cbn; lia|].
      assert (m ≠ O) by (apply Hm1; lia).
      exists (S m), (d :: ds). cbn [length].
      rewrite attempt_range_cons, Hinv, Hsl, <- !app_assoc. cbn in *.
      repeat split; try lia; done. }
    cbn [attempts].
    destruct (func a) as [v|e].
    + destruct (result_wants_retry (config p) v) eqn:Hw;
        destruct (Z.ltb_spec a (max_attempts (config p))); cbn [andb];
        try (by apply Hstop).
      destruct (_calculate_delay (config p) a prev) as [d|e']; [by apply Hgo|].
      destruct (retry_on_exceptions (config p) e'); by apply Hstop.
    + destruct (retry_on_exceptions (config p) e); [|by apply Hstop].
      destruct (Z.ltb_spec a (max_attempts (config p))); [|by apply Hstop].
      destruct (_calculate_delay (config p) a prev) as [d|e']; [by apply Hgo|].
      by apply Hstop.
Qed.

(** X7.  Whatever the function does and whatever the delay computation
    does, [execute] counts one call and invokes the function at the
    attempts 1, 2, ..., m, one after the other, for some m that is at most
    [max_attempts] (and at least 1 when [max_attempts] is); it sleeps once
    between two consecutive attempts and counts one retry per sleep. *)
Theorem execute_attempts_are_bounded
    (p : RetryPolicy) (func : Z -> outcome pyval) :
  ∃ m : nat,
    Z.of_nat m ≤ Z.max 0 (max_attempts (config p)) ∧
    (1 ≤ max_attempts (config p) → m ≠ O) ∧
    invoked_at (execute p func) = attempt_range 1 m ∧
    length (slept (execute p func)) = (m - 1)%nat ∧
    _total_retries (policy (execute p func))
    = _total_retries p + Z.of_nat (m - 1) ∧
    _total_calls (policy (execute p func)) = _total_calls p + 1.
Proof.
  unfold execute.
  destruct (attempts_shape func (Z.to_nat (max_attempts (config (count_call p))))
              1 (count_call p) (base_delay (config (count_call p))) None [] [])
    as (m & ds & Hm & Hm1 & Hinv & Hsl & Hlen & Hret & Hcalls).
  { cbn. destruct (Z.to_nat (max_attempts (config p))) eqn:Hn; [by left|].
    right. lia. }
  exists m. cbn in *. rewrite Hinv, Hsl, Hret, Hcalls, Hlen.
  repeat split; try lia; done.
Qed.

Definition asks_retry (cfg : RetryConfig) (o : outcome pyval) : bool :=
  match o with
  | Returned v => result_wants_retry cfg v
  | Raised e => retry_on_exceptions cfg e
  end.

Lemma add_retries_count_retry (n : Z) (p : RetryPolicy) :
  add_retries n (count_retry p) = add_retries (1 + n) p.
Proof. unfold add_retries, count_retry. cbn. f_equal. lia. Qed.

Section Decisive.

Variable func : Z -> outcome pyval.
Variable cfg : RetryConfig.

Hypothesis delay_returns :
  ∀ a prev, 1 ≤ a < max_attempts cfg →
            ∃ d, _calculate_delay cfg a prev = Returned d.

(** The attempts that ask for a retry, while attempts are left, lead to
    the first attempt that does not. *)
Lemma attempts_retried_prefix (m : nat) :
  ∀ a p prev last inv sl n,
    config p = cfg → 1 ≤ a →
    a + Z.of_nat m ≤ max_attempts cfg →
    (∀ b, a ≤ b < a + Z.of_nat m → asks_retry cfg (func b) = true) →
    ∃ prev' last' ds,
      length ds = m ∧
      attempts func (m + n) a p prev last inv sl
      = attempts func n (a + Z.of_nat m) (add_retries (Z.of_nat m) p)
                 prev' last' (inv ++ attempt_range a m) (sl ++ ds).
Proof.
  induction m as [|m IH]; intros a p prev last inv sl n Hcfg Ha Hmax Hretry.
  - exists prev, last, []. split; [done|]. cbn.
    rewrite !app_nil_r, Z.add_0_r. f_equal.
    unfold add_retries. destruct p; cbn. f_equal. lia.
  - destruct (delay_returns a prev) as [d Hd]; [lia|].
    assert (Hask := Hretry a ltac:(lia)).
    assert (Hstep : ∃ last1,
              attempts func (S m + n) a p prev last inv sl
              = attempts func (m + n) (a + 1) (count_retry p) d last1
                         (inv ++ [a]) (sl ++ [d])).
    { cbn [Nat.add attempts]. rewrite Hcfg.
      destruct (func a) as [v|e]; cbn in Hask; rewrite Hask.
      - rewrite (proj2 (Z.ltb_lt _ _)) by lia. cbn. rewrite Hd. by eexists.
      - rewrite (proj2 (Z.ltb_lt _ _)) by lia. rewrite Hd. by eexists. }
    destruct Hstep as [last1 Hstep].
    destruct (IH (a + 1) (count_retry p) d last1 (inv ++ [a]) (sl ++ [d]) n)
      as (prev' & last' & ds & Hlen & Heq); [done|lia|lia| |].
    { intros b Hb. apply Hretry. lia. }
    exists prev', last', (d :: ds). split; [cbn; by rewrite Hlen|].
    rewrite Hstep, Heq, attempt_range_cons, add_retries_count_retry.
    rewrite <- !app_assoc. cbn [app].
    replace (a + 1 + Z.of_nat m) with (a + Z.of_nat (S m)) by lia.
    by replace (1 + Z.of_nat m) with (Z.of_nat (S m)) by lia.
Qed.

End Decisive.

(** X8.  With every delay computation returning: if the attempts before
    the [k]-th ask for a retry (they raise an exception that is retried on,
    or return a result that the predicate flags) and the [k]-th returns a
    result that is not flagged, [execute] returns that result after exactly
    [k] invocations, having counted [k - 1] retries and one success. *)
Theorem execute_returns_first_unflagged_result
    (p : RetryPolicy) (func : Z -> outcome pyval) (k : Z) (v : pyval) :
  1 ≤ k ≤ max_attempts (config p) →
  (∀ a prev, 1 ≤ a < max_attempts (config p) →
             ∃ d, _calculate_delay (config p) a prev = Returned d) →
  (∀ b, 1 ≤ b < k → asks_retry (config p) (func b) = true) →
  func k = Returned v →
  result_wants_retry (config p) v = false →
  result (execute p func) = Returned v
  ∧ invoked_at (execute p func) = attempt_range 1 (Z.to_nat k)
  ∧ length (slept (execute p func)) = Z.to_nat (k - 1)
  ∧ policy (execute p func)
    = count_success (add_retries (k - 1) (count_call p)).
Proof.
  intros Hk Hdelay Hretry Hv Hflag. unfold execute.
  change (config (count_call p)) with (config p).
  destruct (attempts_retried_prefix func (config p) Hdelay (Z.to_nat (k - 1))
              1 (count_call p) (base_delay (config p)) None [] []
              (S (Z.to_nat (max_attempts (config p) - k))))
    as (prev' & last' & ds & Hlen & Heq); [done|lia|lia| |].
  { intros b Hb. apply Hretry. lia. }
  replace (Z.to_nat (max_attempts (config p)))
    with (Z.to_nat (k - 1) + S (Z.to_nat (max_attempts (config p) - k)))%nat
    by lia.
  rewrite Heq. cbn [attempts].
  replace (1 + Z.of_nat (Z.to_nat (k - 1))) with k by lia.
  rewrite Hv. change (config (add_retries _ _)) with (config p).
  rewrite Hflag. cbn.
  split; [done|]. split; [|split].
  - replace (Z.to_nat k) with (S (Z.to_nat (k - 1))) by lia.
    rewrite attempt_range_snoc. do 2 f_equal. lia.
  - rewrite Hlen. lia.
  - do 2 f_equal. lia.
Qed.

(** X9.  With every delay computation returning: if the attempts before
    the [k]-th ask for a retry and the [k]-th raises an exception that is
    not retried on, [execute] raises that very exception, not wrapped in
    RetryExhaustedError, after exactly [k] invocations; the call is counted
    neither as a success nor as a failure. *)
Theorem execute_reraises_exception_not_retried_on
    (p : RetryPolicy) (func : Z -> outcome pyval) (k : Z) (e : exn) :
  1 ≤ k ≤ max_attempts (config p) →
  (∀ a prev, 1 ≤ a < max_attempts (config p) →
             ∃ d, _calculate_delay (config p) a prev = Returned d) →
  (∀ b, 1 ≤ b < k → asks_retry (config p) (func b) = true) →
  func k = Raised e →
  retry_on_exceptions (config p) e = false →
  result (execute p func) = Raised e
  ∧ invoked_at (execute p func) = attempt_range 1 (Z.to_nat k)
  ∧ length (slept (execute p func)) = Z.to_nat (k - 1)
  ∧ policy (execute p func) = add_retries (k - 1) (count_call p).
Proof.
  intros Hk Hdelay Hretry He Hno. unfold execute.
  change (config (count_call p)) with (config p).
  destruct (attempts_retried_prefix func (config p) Hdelay (Z.to_nat (k - 1))
              1 (count_call p) (base_delay (config p)) None [] []
              (S (Z.to_nat (max_attempts (config p) - k))))
    as (prev' & last' & ds & Hlen & Heq); [done|lia|lia| |].
  { intros b Hb. apply Hretry. lia. }
  replace (Z.to_nat (max_attempts (config p)))
    with (Z.to_nat (k - 1) + S (Z.to_nat (max_attempts (config p) - k)))%nat
    by lia.
  rewrite Heq. cbn [attempts].
  replace (1 + Z.of_nat (Z.to_nat (k - 1))) with k by lia.
  rewrite He. change (config (add_retries _ _)) with (config p).
  rewrite Hno. cbn.
  split; [done|]. split; [|split].
  - replace (Z.to_nat k) with (S (Z.to_nat (k - 1))) by lia.
    rewrite attempt_range_snoc. do 2 f_equal. lia.
  - rewrite Hlen. lia.
  - f_equal. lia.
Qed.

(** The delays slept stay where the delay computation keeps them: if it
    maps a previous delay in [good] to a delay in [good], and the base
    delay is in [good], so is every delay slept. *)
Lemma attempts_slept (good : float -> Prop) (func : Z -> outcome pyval)
    (n : nat) :
  ∀ a p prev last inv sl,
    (∀ b prev' d, a ≤ b → good prev' →
                  _calculate_delay (config p) b prev' = Returned d → good d) →
    good prev → Forall good sl →
    Forall good (slept (attempts func n a p prev last inv sl)).
Proof.
  induction n as [|n IH]; intros a p prev last inv sl Hcalc Hprev Hsl; [done|].
  assert (Hgo : ∀ d last',
            _calculate_delay (config p) a prev = Returned d →
            Forall good
              (slept (attempts func n (a + 1) (count_retry p) d last'
                               (inv ++ [a]) (sl ++ [d])))).
  { intros d last' Hd. assert (good d) by (eapply Hcalc; [|done..]; lia).
    apply IH; [|done|].
    - intros b prev' d' Hb. apply Hcalc. lia.
    - apply Forall_app. by repeat constructor. }
  cbn [attempts].
  destruct (func a) as [v|e].
  - destruct (result_wants_retry (config p) v && (a <? max_attempts (config p)));
      [|done].
    destruct (_calculate_delay (config p) a prev) as [d|e'] eqn:Hd;
      [by apply Hgo|].
    destruct (retry_on_exceptions (config p) e'); [|done].
    by destruct (a <? max_attempts (config p)).
  - destruct (retry_on_exceptions (config p) e); [|done].
    destruct (a <? max_attempts (config p)); [|done].
    destruct (_calculate_delay (config p) a prev) as [d|e'] eqn:Hd;
      [by apply Hgo|done].
Qed.


End RetryPolicy.

(** [random.uniform(a, b)], for the draw [u] of [random.random()]. *)
Definition uniform (u a b : Q) : Q := (a + (b - a) * u)%Q.

(** Floats are the rationals they stand for.  Of their finite range the
    model keeps what makes [_calculate_delay] raise: the conversion of an int
    to a float and the power [**] raise OverflowError when the float nearest
    to the result is beyond the largest float, which is so from
    [2^1024 - 2^970] on.  A product does not raise there, it is [inf], and
    the cap by [max_delay] that follows gives [max_delay], as it does for
    the exact product. *)
Definition float_range : Q := (2 ^ 1024 - 2 ^ 970)%Q.

Definition overflows (x : Q) : bool := Qle_bool float_range (Qabs x).

Definition OverflowError (msg : string) : exn := Exn "OverflowError" msg None.

(** The conversion of the int operand of a float operation. *)
Definition int_to_float (n : Z) : outcome Q :=
  if overflows (inject_Z n)
  then Raised (OverflowError "int too large to convert to float")
  else Returned (inject_Z n).

(** [x ** n] for a float [x] and an int [n]. *)
Definition float_pow (x : Q) (n : Z) : outcome Q :=
  match int_to_float n with
  | Raised e => Raised e
  | Returned _ =>
      if Qeq_bool x 0 && (n <? 0)
      then Raised (Exn "ZeroDivisionError"
                       "0.0 cannot be raised to a negative power" None)
      else if overflows (x ^ n)
      then Raised (OverflowError "(34, 'Numerical result out of range')")
      else Returned (x ^ n)%Q
  end.

(** [_calculate_delay].  [draw attempt] is the random number drawn at that
    attempt (at most one is drawn per call). *)
Definition _calculate_delay (draw : Z -> Q) (cfg : RetryConfig Q)
    (attempt : Z) (previous_delay : Q) : outcome Q :=
  let base :=
    match backoff_strategy Q cfg with
    | FIXED => Returned (base_delay Q cfg)
    | LINEAR =>
        match int_to_float attempt with
        | Returned a => Returned (base_delay Q cfg * a)%Q
        | Raised e => Raised e
        end
    | EXPONENTIAL =>
        match float_pow (multiplier Q cfg) (attempt - 1) with
        | Returned m => Returned (base_delay Q cfg * m)%Q
        | Raised e => Raised e
        end
    end in
  match base with
  | Raised e => Raised e
  | Returned base =>
      let base := Qmin base (max_delay Q cfg) in
      Returned
        match jitter_type Q cfg with
        | NONE => base
        | FULL => uniform (draw attempt) 0 base
        | EQUAL => (base / 2 + uniform (draw attempt) 0 (base / 2))%Q
        | DECORRELATED =>
            uniform (draw attempt) (base_delay Q cfg)
                    (Qmin (previous_delay * 3) (max_delay Q cfg))
        end
  end.

(** The default configuration but for three attempts and a result
    predicate, with every random draw 1/2. *)
Definition fixed_delay : RetryConfig Q -> Z -> Q -> outcome Q :=
  _calculate_delay (fun _ => 1 # 2).
Definition demo_policy : RetryPolicy Q :=
  new Q "api" (mkRetryConfig Q 3 1%Q 60%Q EXPONENTIAL FULL 2%Q
                             (fun _ => true) (Some (fun _ => true))).
Definition always_down (attempt : Z) : outcome pyval :=
  Raised (Exn "TimeoutError" ("attempt " +:+ pretty attempt) None).
Definition always_pending (attempt : Z) : outcome pyval :=
  Returned (PyInt attempt).

Example demo_exception_path :
  let r := execute Q fixed_delay demo_policy always_down in
  exn_class <$> (match result Q r with Raised e => Some e | _ => None end)
    = Some "RetryExhaustedError"
  ∧ invoked_at Q r = [1; 2; 3] ∧ _total_retries Q (policy Q r) = 2
  ∧ _total_failures Q (policy Q r) = 1
  ∧ Forall2 Qeq (slept Q r) [1 # 2; 1]%Q.
Proof. vm_compute. repeat split; repeat constructor. Qed.

Example demo_result_path :
  let r := execute Q fixed_delay demo_policy always_pending in
  result Q r = Returned (PyInt 3)
  ∧ invoked_at Q r = [1; 2; 3] ∧ _total_retries Q (policy Q r) = 2
  ∧ _total_successes Q (policy Q r) = 1.
Proof. vm_compute. repeat split. Qed.




(** *** The delays on exact rationals *)

Lemma uniform_between (u a b : Q) :
  (0 <= u <= 1)%Q →
  (Qmin a b <= uniform u a b <= Qmax a b)%Q.
Proof.
  intros [Hu0 Hu1]. unfold uniform.
  destruct (Q.min_spec a b) as [[Hlt ->]|[Hle ->]];
    destruct (Q.max_spec a b) as [[Hlt' ->]|[Hle' ->]]; split; nra.
Qed.

Lemma _calculate_delay_bounds (draw : Z -> Q) (cfg : RetryConfig Q)
    (attempt : Z) (previous_delay d : Q) :
  (0 <= base_delay Q cfg <= max_delay Q cfg)%Q →
  (0 <= multiplier Q cfg)%Q →
  (0 <= draw attempt <= 1)%Q →
  1 ≤ attempt →
  (0 <= previous_delay)%Q →
  _calculate_delay draw cfg attempt previous_delay = Returned d →
  (0 <= d <= max_delay Q cfg)%Q.
Proof.
  intros [Hb0 Hbm] Hm Hu Ha Hp Hd. unfold _calculate_delay in Hd.
  assert (∃ base,
            (0 <= base)%Q ∧
            d = match jitter_type Q cfg with
                | NONE => Qmin base (max_delay Q cfg)
                | FULL => uniform (draw attempt) 0 (Qmin base (max_delay Q cfg))
                | EQUAL =>
                    (Qmin base (max_delay Q cfg) / 2
                     + uniform (draw attempt) 0
                               (Qmin base (max_delay Q cfg) / 2))%Q
                | DECORRELATED =>
                    uniform (draw attempt) (base_delay Q cfg)
                            (Qmin (previous_delay * 3) (max_delay Q cfg))
                end) as (base & Hbase & ->).
  { destruct (backoff_strategy Q cfg).
    - injection Hd as <-. exists (base_delay Q cfg). by split.
    - unfold int_to_float in Hd.
      destruct (overflows (inject_Z attempt)); [done|].
      injection Hd as <-. exists (base_delay Q cfg * inject_Z attempt)%Q.
      split; [|done].
      apply Qmult_le_0_compat; [done|].
      change 0%Q with (inject_Z 0). rewrite <- Zle_Qle. lia.
    - unfold float_pow, int_to_float in Hd.
      destruct (overflows (inject_Z (attempt - 1))); [done|].
      destruct (Qeq_bool (multiplier Q cfg) 0 && (attempt - 1 <? 0)); [done|].
      destruct (overflows (multiplier Q cfg ^ (attempt - 1))); [done|].
      injection Hd as <-.
      exists (base_delay Q cfg * multiplier Q cfg ^ (attempt - 1))%Q.
      split; [|done].
      apply Qmult_le_0_compat; [done|]. by apply Qpower_0_le. }
  assert (Hcap : (0 <= Qmin base (max_delay Q cfg) <= max_delay Q cfg)%Q).
  { split; [apply Q.min_glb; [done|lra]|apply Q.le_min_r]. }
  destruct (jitter_type Q cfg).
  - done.
  - pose proof (uniform_between (draw attempt) 0 (Qmin base (max_delay Q cfg)) Hu)
      as [Hlo Hhi].
    rewrite Q.min_l in Hlo by lra. rewrite Q.max_r in Hhi by lra. lra.
  - pose proof (uniform_between (draw attempt) 0
                  (Qmin base (max_delay Q cfg) / 2) Hu) as [Hlo Hhi].
    assert (Hhalf : (0 <= Qmin base (max_delay Q cfg) / 2)%Q).
    { apply Qle_shift_div_l; lra. }
    rewrite Q.min_l in Hlo by lra. rewrite Q.max_r in Hhi by lra.
    assert (Qmin base (max_delay Q cfg) / 2 + Qmin base (max_delay Q cfg) / 2
            == Qmin base (max_delay Q cfg))%Q by field.
    lra.
  - pose proof (uniform_between (draw attempt) (base_delay Q cfg)
                  (Qmin (previous_delay * 3) (max_delay Q cfg)) Hu) as [Hlo Hhi].
    assert (H3 : (0 <= Qmin (previous_delay * 3) (max_delay Q cfg)
                  <= max_delay Q cfg)%Q).
    { split; [apply Q.min_glb; lra|apply Q.le_min_r]. }
    split.
    + eapply Qle_trans; [|exact Hlo]. apply Q.min_glb; lra.
    + eapply Qle_trans; [exact Hhi|]. apply Q.max_lub; lra.
Qed.

(** X10.  On exact rationals, with [0 <= base_delay <= max_delay], a
    multiplier that is not negative and random draws in [0, 1]: whatever the
    function does, every delay that [execute] sleeps is between 0 and
    [max_delay], for each backoff strategy and each kind of jitter. *)
Theorem sleeps_are_within_max_delay
    (draw : Z -> Q) (p : RetryPolicy Q) (func : Z -> outcome pyval) :
  (0 <= base_delay Q (config Q p) <= max_delay Q (config Q p))%Q →
  (0 <= multiplier Q (config Q p))%Q →
  (∀ a, 0 <= draw a <= 1)%Q →
  Forall (fun d => 0 <= d <= max_delay Q (config Q p))%Q
         (slept Q (execute Q (_calculate_delay draw) p func)).
Proof.
  intros Hb Hm Hu. unfold execute.
  apply (attempts_slept Q (_calculate_delay draw)
           (fun d => 0 <= d <= max_delay Q (config Q p))%Q); [|done|done].
  intros b prev' d Hb1 [Hp _] Hd. cbn in Hd.
  by eapply (_calculate_delay_bounds draw (config Q p) b prev' d).
Qed.

(** A policy that retries on timeouts only and flags no result, and a
    function that times out twice before it returns. *)
Definition timeouts_only : RetryPolicy Q :=
  new Q "api" (mkRetryConfig Q 5 1%Q 60%Q EXPONENTIAL DECORRELATED 2%Q
                 (fun e => String.eqb (exn_class e) "TimeoutError") None).
Definition recovers (attempt : Z) : outcome pyval :=
  if attempt <? 3 then always_down attempt else Returned (PyStr "ok").
Definition breaks (attempt : Z) : outcome pyval :=
  if attempt <? 3 then always_down attempt
  else Raised (Exn "ValueError" "bad request" None).

Lemma sleeps_are_within_max_delay_witness :
  (0 <= base_delay Q (config Q timeouts_only)
   <= max_delay Q (config Q timeouts_only))%Q ∧
  (0 <= multiplier Q (config Q timeouts_only))%Q ∧
  (∀ a : Z, 0 <= 1 # 2 <= 1)%Q ∧
  Forall (fun d => 0 <= d <= max_delay Q (config Q timeouts_only))%Q
         (slept Q (execute Q fixed_delay timeouts_only recovers)).
Proof.
  assert (H1 : (0 <= base_delay Q (config Q timeouts_only)
                <= max_delay Q (config Q timeouts_only))%Q)
    by (split; discriminate).
  assert (H2 : (0 <= multiplier Q (config Q timeouts_only))%Q) by discriminate.
  assert (H3 : (∀ a : Z, 0 <= 1 # 2 <= 1)%Q) by (intros _; split; discriminate).
  split; [exact H1|]. split; [exact H2|]. split; [exact H3|].
  exact (sleeps_are_within_max_delay (fun _ => 1 # 2) timeouts_only recovers
           H1 H2 H3).
Defined.

Lemma execute_returns_first_unflagged_result_witness :
  1 ≤ 3 ≤ max_attempts Q (config Q timeouts_only) ∧
  result Q (execute Q fixed_delay timeouts_only recovers)
  = Returned (PyStr "ok")
  ∧ invoked_at Q (execute Q fixed_delay timeouts_only recovers)
    = attempt_range 1 (Z.to_nat 3)
  ∧ length (slept Q (execute Q fixed_delay timeouts_only recovers))
    = Z.to_nat (3 - 1)
  ∧ policy Q (execute Q fixed_delay timeouts_only recovers)
    = count_success Q (add_retries Q (3 - 1) (count_call Q timeouts_only)).
Proof.
  assert (H1 : 1 ≤ 3 ≤ max_attempts Q (config Q timeouts_only))
    by (vm_compute; split; discriminate).
  split; [exact H1|].
  apply (execute_returns_first_unflagged_result Q fixed_delay timeouts_only
           recovers 3 (PyStr "ok") H1).
  - intros a prev Ha.
    assert (a = 1 ∨ a = 2 ∨ a = 3 ∨ a = 4) as [-> | [-> | [-> | ->]]]
      by (change (max_attempts Q (config Q timeouts_only)) with 5 in Ha; lia);
      eexists; reflexivity.
  - intros b Hb. assert (b = 1 ∨ b = 2) as [-> | ->] by lia; reflexivity.
  - reflexivity.
  - reflexivity.
Defined.

Lemma execute_reraises_exception_not_retried_on_witness :
  1 ≤ 3 ≤ max_attempts Q (config Q timeouts_only) ∧
  result Q (execute Q fixed_delay timeouts_only breaks)
  = Raised (Exn "ValueError" "bad request" None)
  ∧ invoked_at Q (execute Q fixed_delay timeouts_only breaks)
    = attempt_range 1 (Z.to_nat 3)
  ∧ length (slept Q (execute Q fixed_delay timeouts_only breaks))
    = Z.to_nat (3 - 1)
  ∧ policy Q (execute Q fixed_delay timeouts_only breaks)
    = add_retries Q (3 - 1) (count_call Q timeouts_only).
Proof.
  assert (H1 : 1 ≤ 3 ≤ max_attempts Q (config Q timeouts_only))
    by (vm_compute; split; discriminate).
  split; [exact H1|].
  apply (execute_reraises_exception_not_retried_on Q fixed_delay timeouts_only
           breaks 3 (Exn "ValueError" "bad request" None) H1).
  - intros a prev Ha.
    assert (a = 1 ∨ a = 2 ∨ a = 3 ∨ a = 4) as [-> | [-> | [-> | ->]]]
      by (change (max_attempts Q (config Q timeouts_only)) with 5 in Ha; lia);
      eexists; reflexivity.
  - intros b Hb. assert (b = 1 ∨ b = 2) as [-> | ->] by lia; reflexivity.
  - reflexivity.
  - reflexivity.
Defined.


End Retry.

(** ** Python strings *)

(** A string is the sequence of its code points, here those below 256.
    [lower], [isspace] and [split] follow [str.lower], [str.isspace] and
    [str.split()] on that range. *)
Module PyString.

Local Open Scope nat_scope.

Definition isspace (c : ascii) : bool :=
  let n := nat_of_ascii c in
  ((9 <=? n) && (n <=? 13)) || ((28 <=? n) && (n <=? 32))
  || (n =? 133) || (n =? 160).

Definition lower_char (c : ascii) : ascii :=
  let n := nat_of_ascii c in
  if ((65 <=? n) && (n <=? 90))
     || ((192 <=? n) && (n <=? 222) && negb (n =? 215))
  then ascii_of_nat (n + 32) else c.

Fixpoint lower (s : string) : string :=
  match s with
  | EmptyString => EmptyString
  | String c s => String (lower_char c) (lower s)
  end.

(** [s.startswith(prefix)] *)
Fixpoint startswith (s prefix : string) : bool :=
  match prefix, s with
  | EmptyString, _ => true
  | String p prefix, String c s => bool_decide (p = c) && startswith s prefix
  | String _ _, EmptyString => false
  end.

(** [sub in s] *)
Fixpoint contains (sub s : string) : bool :=
  startswith s sub
  || match s with
     | EmptyString => false
     | String _ s => contains sub s
     end.

(** [s.count(sub)] for a non-empty [sub]: occurrences from left to right,
    without overlap.  [skip] is the number of characters still covered by
    the occurrence found last. *)
Fixpoint count_from (sub s : string) (skip : nat) : nat :=
  match s with
  | EmptyString => 0
  | String _ s' =>
      match skip with
      | S skip => count_from sub s' skip
      | O => if startswith s sub
             then S (count_from sub s' (String.length sub - 1))
             else count_from sub s' 0
      end
  end.
Definition count (sub s : string) : nat := count_from sub s 0.

(** [s.split()]: the maximal runs of characters that are not whitespace.
    [word] holds the characters of the run being read, last first. *)
Fixpoint split_from (word : string) (s : string) : list string :=
  let flush := match word with
               | EmptyString => []
               | _ => [String.rev word]
               end in
  match s with
  | EmptyString => flush
  | String c s =>
      if isspace c then flush ++ split_from EmptyString s
      else split_from (String c word) s
  end.
Definition split (s : string) : list string := split_from EmptyString s.

Example lower_ex : lower "Kill ALL the Harm" = "kill all the harm".
Proof. reflexivity. Qed.
Example contains_ex : contains "harm" "pharmacy" = true ∧ contains "hate" "hat" = false.
Proof. split; reflexivity. Qed.
Example count_ex : count "hate" "hate hatehate" = 3 ∧ count "aa" "aaaaa" = 2.
Proof. split; reflexivity. Qed.
Example split_ex : split "  a bc   d " = ["a"; "bc"; "d"] ∧ split "   " = [].
Proof. split; reflexivity. Qed.

End PyString.

(** ** guardrails/guards.py *)

Module Guards.

Record GuardResult := mkGuardResult {
  passed : bool;
  message : option string;
  metadata : list (string * pyval)
}.

(** [GuardResult(passed=True)] *)
Definition pass : GuardResult := mkGuardResult true None [].

(** A guard: its name and its [validate] method, which may raise. *)
Record BaseGuard := mkGuard {
  name : string;
  validate : string -> option (gmap string pyval) -> outcome GuardResult
}.

(** The double that a quotient of two ints is: the one nearest to the
    exact quotient, with ties to even (doubles have 53 significant bits;
    the quotients taken here are far from the ends of their range).  And
    the rendering of a double with [:.2f], which rounds its exact value,
    with ties to even again.  Both only show in the message of a failed
    toxicity check. *)
Definition round_half_even (q : Q) : Z :=
  let f := Qfloor q in
  match (q - inject_Z f ?= 1 # 2)%Q with
  | Lt => f
  | Gt => (f + 1)%Z
  | Eq => if Z.even f then f else (f + 1)%Z
  end.

Definition nearest_double (q : Q) : Q :=
  if Qeq_bool q 0 then 0%Q
  else
    let a := Qabs q in
    let e0 := (Z.log2 (Qnum a) - Z.log2 (Zpos (Qden a)))%Z in
    let e := if Qle_bool (2 ^ e0) a then e0 else (e0 - 1)%Z in
    let ulp := (2 ^ (e - 52))%Q in
    (inject_Z (round_half_even (q / ulp)) * ulp)%Q.

Definition format_2f (q : Q) : string :=
  let n := round_half_even (q * 100) in
  let a := Z.abs n in
  (if (n <? 0)%Z then "-" else "")
    +:+ pretty (a / 100)%Z +:+ "."
    +:+ (if (a mod 100 <? 10)%Z then "0" else "") +:+ pretty (a mod 100)%Z.

(** *** ToxicityGuard *)

Definition TOXIC_KEYWORDS : list string :=
  ["hate"; "kill"; "violence"; "attack"; "harm"].

Record ToxicityGuard := mkToxicityGuard {
  toxicity_name : string;
  threshold : Q
}.

(** [ToxicityGuard.__init__]: [config.get("threshold", 0.5)]. *)
Definition new_toxicity_guard (nm : string) (configured : option Q) : ToxicityGuard :=
  mkToxicityGuard nm (default (1 # 2)%Q configured).

Definition ZeroDivisionError : exn :=
  Exn "ZeroDivisionError" "division by zero" None.

(** [sum(1 for keyword in keywords if keyword in content_lower)] *)
Definition keyword_matches (keywords : list string) (content_lower : string) : nat :=
  sum_list ((λ _, 1%nat) <$>
            filter (λ keyword, PyString.contains keyword content_lower = true) keywords).

(** [toxic_count / len(content.split()) if content else 0] *)
Definition toxicity_score (content : string) : outcome Q :=
  let content_lower := PyString.lower content in
  let toxic_count := keyword_matches TOXIC_KEYWORDS content_lower in
  match content with
  | EmptyString => Returned 0%Q
  | _ =>
      match length (PyString.split content) with
      | O => Raised ZeroDivisionError
      | S n => Returned (Z.of_nat toxic_count # Pos.of_succ_nat n)
      end
  end.

Definition toxicity_validate (g : ToxicityGuard) (content : string)
    (context : option (gmap string pyval)) : outcome GuardResult :=
  match toxicity_score content with
  | Raised e => Raised e
  | Returned score =>
      if negb (Qle_bool score (threshold g)) then
        Returned (mkGuardResult false
                    (Some ("Toxic content detected (score: "
                             +:+ format_2f (nearest_double score) +:+ ")"))
                    [("toxicity_score", PyFloat score)])
      else Returned pass
  end.

Definition toxicity_guard (g : ToxicityGuard) : BaseGuard :=
  mkGuard (toxicity_name g) (toxicity_validate g).

Example format_2f_ex :
  format_2f (nearest_double (1 # 40)) = "0.03"
  ∧ format_2f (nearest_double (1 # 8)) = "0.12"
  ∧ format_2f (nearest_double (3 # 8)) = "0.38"
  ∧ format_2f (nearest_double (2 # 3)) = "0.67"
  ∧ format_2f (nearest_double 5) = "5.00".
Proof. vm_compute. repeat split. Qed.

Example toxic_ex :
  toxicity_validate (new_toxicity_guard "tox" None) "KILL and Attack" None
  = Returned (mkGuardResult false (Some "Toxic content detected (score: 0.67)")
                            [("toxicity_score", PyFloat (2 # 3))]).
Proof. reflexivity. Qed.

(** *** LengthGuard *)

(** [max_length] defaults to infinity, which is [None] here. *)
Record LengthGuard := mkLengthGuard {
  length_name : string;
  min_length : nat;
  max_length : option nat
}.

Definition length_validate (g : LengthGuard) (content : string)
    (context : option (gmap string pyval)) : outcome GuardResult :=
  let len := String.length content in
  if (len <? min_length g)%nat then
    Returned (mkGuardResult false
                (Some ("Output too short: " +:+ pretty len +:+ " < "
                         +:+ pretty (min_length g)))
                [("length", PyInt (Z.of_nat len));
                 ("min_length", PyInt (Z.of_nat (min_length g)))])
  else
    match max_length g with
    | Some m =>
        if (m <? len)%nat then
          Returned (mkGuardResult false
                      (Some ("Output too long: " +:+ pretty len +:+ " > "
                               +:+ pretty m))
                      [("length", PyInt (Z.of_nat len));
                       ("max_length", PyInt (Z.of_nat m))])
        else Returned pass
    | None => Returned pass
    end.

Definition length_guard (g : LengthGuard) : BaseGuard :=
  mkGuard (length_name g) (length_validate g).

End Guards.

(** ** governance/safety.py: SafetyFilter *)

Module Safety.

Inductive SafetyCategory :=
| HATE | VIOLENCE | SEXUAL | DANGEROUS | HARASSMENT | SELF_HARM.

(** The [keywords] dict of [_check_category], with [.get(category, [])]. *)
Definition category_keywords (category : SafetyCategory) : list string :=
  match category with
  | HATE => ["hate"; "racist"; "discriminat"]
  | VIOLENCE => ["kill"; "murder"; "attack"]
  | SEXUAL => ["sexual"; "explicit"]
  | DANGEROUS => ["bomb"; "weapon"; "poison"]
  | HARASSMENT | SELF_HARM => []
  end.

(** [min(matches * 0.3, 1.0)] *)
Definition _check_category (content : string) (category : SafetyCategory) : Q :=
  let content_lower := PyString.lower content in
  let matches :=
    Guards.keyword_matches (category_keywords category) content_lower in
  Qmin (inject_Z (Z.of_nat matches) * (3 # 10)) 1.

End Safety.

(** ** The keyword heuristics of the toxicity guard and the safety filter *)

Module KeywordScores.

Import Guards Safety.

(** The number of the listed keywords that occur in the lower-cased
    content, each counted once however often it occurs. *)
Definition keywords_present (keywords : list string) (content : string) : nat :=
  length (filter (λ keyword,
                    PyString.contains keyword (PyString.lower content) = true)
                 keywords).


Definition word_count (content : string) : nat :=
  length (PyString.split content).



Lemma keyword_matches_present (keywords : list string) (content : string) :
  keyword_matches keywords (PyString.lower content)
  = keywords_present keywords content.
Proof.
  unfold keyword_matches, keywords_present.
  induction (filter _ keywords) as [|kw kws IH]; simpl; [done|].
  f_equal. exact IH.
Qed.

(** The score is a number unless the content is not empty and has no word. *)
Lemma toxicity_score_raises (content : string) :
  toxicity_score content = Raised ZeroDivisionError
  ↔ content ≠ "" ∧ PyString.split content = [].
Proof.
  unfold toxicity_score. destruct content as [|c content].
  - split; [discriminate|]. by intros [? _].
  - destruct (PyString.split (String c content)) as [|w ws] eqn:Hw; simpl.
    + by split.
    + split; [discriminate|]. by intros [_ ?].
Qed.

(** C9.  On a content that is a single space [validate] raises
    ZeroDivisionError instead of returning a result: the content is truthy,
    so the quotient is taken, and it has no word. *)
Lemma toxicity_validate_whitespace_raises :
  PyString.split " " = [] ∧
  toxicity_validate (new_toxicity_guard "toxicity" None) " " None
  = Raised ZeroDivisionError.
Proof. split; reflexivity. Qed.





(** *** Contents that cannot fail the toxicity guard *)

Lemma keywords_present_le (keywords : list string) (content : string) :
  (keywords_present keywords content ≤ length keywords)%nat.
Proof. unfold keywords_present. apply length_filter. Qed.

(** X11.  The toxicity score never exceeds five over the word count, there
    being five keywords: a content of [n] words with [5 <= threshold * n]
    passes the guard whatever it says.  With the default threshold 0.5 this
    is every content of ten words or more. *)
Theorem toxicity_guard_passes_long_content
    (g : ToxicityGuard) (content : string)
    (context : option (gmap string pyval)) :
  (5 <= threshold g * inject_Z (Z.of_nat (word_count content)))%Q →
  toxicity_validate g content context = Returned pass.
Proof.
  intros Hlong. unfold toxicity_validate, toxicity_score.
  rewrite keyword_matches_present.
  pose proof (keywords_present_le TOXIC_KEYWORDS content) as Hle.
  change (length TOXIC_KEYWORDS) with 5 in Hle.
  unfold word_count in Hlong.
  destruct content as [|c content].
  - exfalso. destruct (threshold g) as [tn td].
    unfold Qle, Qmult, inject_Z in Hlong. cbn in Hlong. lia.
  - destruct (PyString.split (String c content)) as [|w ws] eqn:Hw.
    + exfalso. destruct (threshold g) as [tn td].
      unfold Qle, Qmult, inject_Z in Hlong. cbn in Hlong. lia.
    + cbn [length]. cbn [length] in Hlong.
      set (n := length ws) in *.
      set (k := keywords_present TOXIC_KEYWORDS (String c content)) in *.
      assert (Hscore : (Z.of_nat k # Pos.of_succ_nat n <= threshold g)%Q).
      { destruct (threshold g) as [tn td].
        unfold Qle, Qmult, inject_Z in *. cbn in *.
        rewrite Zpos_P_of_succ_nat. nia. }
      apply Qle_bool_iff in Hscore. by rewrite Hscore.
Qed.

Lemma toxicity_guard_passes_long_content_witness :
  (5 <= threshold (new_toxicity_guard "toxicity" None)
        * inject_Z (Z.of_nat (word_count
            "we hate to kill time but violence and harm attack us")))%Q
  ∧ toxicity_validate (new_toxicity_guard "toxicity" None)
      "we hate to kill time but violence and harm attack us" None
    = Returned pass.
Proof.
  assert (H : (5 <= threshold (new_toxicity_guard "toxicity" None)
                    * inject_Z (Z.of_nat (word_count
                        "we hate to kill time but violence and harm attack us")))%Q)
    by (vm_compute; discriminate).
  split; [exact H|].
  exact (toxicity_guard_passes_long_content
           (new_toxicity_guard "toxicity" None)
           "we hate to kill time but violence and harm attack us" None H).
Defined.


End KeywordScores.

(** ** governance/safety.py: the check of the safety filter *)

Module SafetyFilter.

Import Safety KeywordScores.

Inductive SafetyThreshold :=
| BLOCK_NONE | BLOCK_LOW_AND_ABOVE | BLOCK_MEDIUM_AND_ABOVE | BLOCK_HIGH_AND_ABOVE.

#[global] Instance SafetyCategory_eq_dec : EqDecision SafetyCategory.
Proof. solve_decision. Defined.

(** The string value of the [SafetyCategory] member, which [join] reads. *)
Definition value (category : SafetyCategory) : string :=
  match category with
  | HATE => "hate" | VIOLENCE => "violence" | SEXUAL => "sexual"
  | DANGEROUS => "dangerous" | HARASSMENT => "harassment"
  | SELF_HARM => "self_harm"
  end.

(** [scores] is a dict keyed by category, in insertion order. *)
Record SafetyResult := mkSafetyResult {
  passed : bool;
  blocked_categories : list SafetyCategory;
  scores : list (SafetyCategory * Q);
  reason : option string
}.

Record SafetyFilter := mkSafetyFilter {
  categories : list SafetyCategory;
  threshold : SafetyThreshold
}.

(** [SafetyFilter.__init__]: [categories or [...]], so that an empty list
    of categories stands for the default ones as [None] does. *)
Definition new (cats : option (list SafetyCategory)) (t : SafetyThreshold)
    : SafetyFilter :=
  mkSafetyFilter
    match cats with
    | None | Some [] => [HATE; VIOLENCE; SEXUAL; DANGEROUS]
    | Some cats => cats
    end
    t.

Definition _should_block (f : SafetyFilter) (score : Q) : bool :=
  match threshold f with
  | BLOCK_NONE => false
  | BLOCK_LOW_AND_ABOVE => Qle_bool (1 # 4) score
  | BLOCK_MEDIUM_AND_ABOVE => Qle_bool (1 # 2) score
  | BLOCK_HIGH_AND_ABOVE => Qle_bool (3 # 4) score
  end.

(** [scores[category] = score] *)
Fixpoint scores_set (d : list (SafetyCategory * Q)) (category : SafetyCategory)
    (score : Q) : list (SafetyCategory * Q) :=
  match d with
  | [] => [(category, score)]
  | (c, s) :: d =>
      if decide (c = category) then (category, score) :: d
      else (c, s) :: scores_set d category score
  end.

(** The loop of [check] over [self.categories]. *)
Fixpoint check_loop (f : SafetyFilter) (content : string)
    (todo : list SafetyCategory) (scores : list (SafetyCategory * Q))
    (blocked : list SafetyCategory)
    : list (SafetyCategory * Q) * list SafetyCategory :=
  match todo with
  | [] => (scores, blocked)
  | category :: rest =>
      let score := _check_category content category in
      let scores := scores_set scores category score in
      if _should_block f score
      then check_loop f content rest scores (blocked ++ [category])
      else check_loop f content rest scores blocked
  end.

Definition check (f : SafetyFilter) (content : string) : SafetyResult :=
  let '(scores, blocked) := check_loop f content (categories f) [] [] in
  let passed := bool_decide (length blocked = 0%nat) in
  let reason :=
    if passed then None
    else Some ("Blocked categories: " +:+ String.concat ", " (value <$> blocked)) in
  mkSafetyResult passed blocked scores reason.

(** *** Which categories are blocked *)

(** The number of keywords of a category that a content must contain for
    the category to be blocked. *)
Definition keywords_needed (t : SafetyThreshold) : option nat :=
  match t with
  | BLOCK_NONE => None
  | BLOCK_LOW_AND_ABOVE => Some 1%nat
  | BLOCK_MEDIUM_AND_ABOVE => Some 2%nat
  | BLOCK_HIGH_AND_ABOVE => Some 3%nat
  end.

Definition blocks (f : SafetyFilter) (content : string)
    (category : SafetyCategory) : Prop :=
  ∃ n, keywords_needed (threshold f) = Some n ∧
       (n ≤ keywords_present (category_keywords category) content)%nat.

Lemma _should_block_keywords (f : SafetyFilter) (content : string)
    (category : SafetyCategory) :
  _should_block f (_check_category content category) = true
  ↔ blocks f content category.
Proof.
  unfold _should_block, blocks, _check_category.
  rewrite keyword_matches_present.
  set (m := keywords_present (category_keywords category) content).
  assert (Hmin : ∀ q : Q,
            (q <= 1)%Q →
            Qle_bool q (Qmin (inject_Z (Z.of_nat m) * (3 # 10)) 1) = true
            ↔ (q <= inject_Z (Z.of_nat m) * (3 # 10))%Q).
  { intros q Hq. rewrite Qle_bool_iff. split.
    - intros H. eapply Qle_trans; [exact H|]. apply Q.le_min_l.
    - intros H. by apply Q.min_glb. }
  destruct (threshold f); cbn [keywords_needed].
  - split; [discriminate|]. by intros (n & ? & _).
  - rewrite Hmin by discriminate. split.
    + intros H. exists 1%nat. split; [done|].
      unfold Qle, Qmult, inject_Z in H. cbn in H. lia.
    + intros (n & [= <-] & Hn). unfold Qle, Qmult, inject_Z. cbn. lia.
  - rewrite Hmin by discriminate. split.
    + intros H. exists 2%nat. split; [done|].
      unfold Qle, Qmult, inject_Z in H. cbn in H. lia.
    + intros (n & [= <-] & Hn). unfold Qle, Qmult, inject_Z. cbn. lia.
  - rewrite Hmin by discriminate. split.
    + intros H. exists 3%nat. split; [done|].
      unfold Qle, Qmult, inject_Z in H. cbn in H. lia.
    + intros (n & [= <-] & Hn). unfold Qle, Qmult, inject_Z. cbn. lia.
Qed.

Lemma check_loop_blocked (f : SafetyFilter) (content : string)
    (todo : list SafetyCategory) :
  ∀ scores blocked,
    (check_loop f content todo scores blocked).2
    = blocked ++ filter (λ c, _should_block f (_check_category content c) = true)
                        todo.
Proof.
  induction todo as [|c todo IH]; intros scores blocked; cbn [check_loop].
  - by rewrite app_nil_r.
  - destruct (_should_block f (_check_category content c)) eqn:Hb.
    + rewrite IH, filter_cons_True by done. by rewrite <- app_assoc.
    + rewrite IH, filter_cons_False by congruence. done.
Qed.

Lemma blocked_categories_check (f : SafetyFilter) (content : string) :
  blocked_categories (check f content)
  = filter (λ c, _should_block f (_check_category content c) = true)
           (categories f)
  ∧ passed (check f content)
    = bool_decide (blocked_categories (check f content) = []).
Proof.
  unfold check.
  pose proof (check_loop_blocked f content (categories f) [] []) as Hb.
  destruct (check_loop f content (categories f) [] []) as [scores blocked].
  cbn in *. subst blocked. split; [done|].
  by destruct (filter _ _).
Qed.

(** X12.  A category is reported as blocked by [check] exactly when it is
    one of the filter's categories and the lower-cased content contains at
    least one (BLOCK_LOW_AND_ABOVE), two (BLOCK_MEDIUM_AND_ABOVE) or three
    (BLOCK_HIGH_AND_ABOVE) of its keywords, and never with BLOCK_NONE; the
    check passes exactly when no category is blocked.  So the harassment and
    self-harm categories, which have no keywords, are never blocked, and the
    sexual category, which has two, is never blocked by
    BLOCK_HIGH_AND_ABOVE. *)
Theorem check_blocks_by_keywords_present
    (f : SafetyFilter) (content : string) :
  (∀ category,
     category ∈ blocked_categories (check f content)
     ↔ category ∈ categories f ∧ blocks f content category)
  ∧ (passed (check f content) = true
     ↔ ∀ category, category ∈ categories f → ¬ blocks f content category)
  ∧ (HARASSMENT ∉ blocked_categories (check f content))
  ∧ (SELF_HARM ∉ blocked_categories (check f content))
  ∧ (threshold f = BLOCK_HIGH_AND_ABOVE →
     SEXUAL ∉ blocked_categories (check f content)).
Proof.
  destruct (blocked_categories_check f content) as [Hb Hp].
  assert (Hin : ∀ category,
            category ∈ blocked_categories (check f content)
            ↔ category ∈ categories f ∧ blocks f content category).
  { intros category. rewrite Hb, list_elem_of_filter, _should_block_keywords.
    tauto. }
  assert (Hfew : ∀ category n,
            (length (category_keywords category) < n)%nat →
            keywords_needed (threshold f) = Some n →
            category ∉ blocked_categories (check f content)).
  { intros category n Hlen Hn [_ (n' & Hn' & Hle)]%Hin.
    pose proof (keywords_present_le (category_keywords category) content).
    simplify_eq. lia. }
  split; [exact Hin|]. split; [|split; [|split]].
  - rewrite Hp, bool_decide_eq_true. split.
    + intros Hnil category Hc Hblocks.
      assert (category ∈ blocked_categories (check f content)) as Hel
        by (apply Hin; by split).
      rewrite Hnil in Hel. by apply elem_of_nil in Hel.
    + intros Hnone. destruct (blocked_categories (check f content)) as [|c cs] eqn:Hbs;
        [done|].
      exfalso. destruct (proj1 (Hin c)) as [Hc Hblocks]; [left|].
      by apply (Hnone c).
  - intros [_ (n & Hn & Hle)]%Hin. cbn in Hle.
    destruct (threshold f); cbn in Hn; simplify_eq; lia.
  - intros [_ (n & Hn & Hle)]%Hin. cbn in Hle.
    destruct (threshold f); cbn in Hn; simplify_eq; lia.
  - intros Ht. apply (Hfew SEXUAL 3%nat); [cbn; lia|]. by rewrite Ht.
Qed.

Example check_kill_and_attack :
  let r := check (new None BLOCK_MEDIUM_AND_ABOVE) "KILL and Attack" in
  passed r = false ∧ blocked_categories r = [VIOLENCE]
  ∧ reason r = Some "Blocked categories: violence"
  ∧ Forall2 (λ s e, s.1 = e.1 ∧ (s.2 == e.2)%Q) (scores r)
      [(HATE, 0%Q); (VIOLENCE, 3 # 5); (SEXUAL, 0%Q); (DANGEROUS, 0%Q)].
Proof. vm_compute. repeat split; repeat constructor. Qed.

End SafetyFilter.


(** ** governance/safety.py: RateLimiter *)

Module RateLimiter.

Local Open Scope Z_scope.

(** A timestamp is a reading of [time.time()], in seconds; the reading that
    a method makes is an argument of its model. *)
Record RateLimiter := mkRateLimiter {
  requests_per_minute : Z;
  tokens_per_minute : Z;
  request_timestamps : list Q;
  token_usage : list (Q * Z)
}.

Definition new (requests_per_minute tokens_per_minute : Z) : RateLimiter :=
  mkRateLimiter requests_per_minute tokens_per_minute [] [].

(** [ts > minute_ago], where [minute_ago = now - 60] *)
Definition recent (now ts : Q) : bool := negb (Qle_bool ts (now - 60)).

Definition check_request (rl : RateLimiter) (now : Q) : bool * RateLimiter :=
  let timestamps := filter (λ ts, recent now ts = true) (request_timestamps rl) in
  if requests_per_minute rl <=? Z.of_nat (length timestamps)
  then (false,
        mkRateLimiter (requests_per_minute rl) (tokens_per_minute rl)
                      timestamps (token_usage rl))
  else (true,
        mkRateLimiter (requests_per_minute rl) (tokens_per_minute rl)
                      (timestamps ++ [now]) (token_usage rl)).

(** [sum(t for _, t in usage)] *)
Definition total (usage : list (Q * Z)) : Z := foldr Z.add 0 usage.*2.

Definition check_tokens (rl : RateLimiter) (tokens : Z) (now : Q)
    : bool * RateLimiter :=
  let usage := filter (λ p, recent now p.1 = true) (token_usage rl) in
  let current_usage := total usage in
  if tokens_per_minute rl <? current_usage + tokens
  then (false,
        mkRateLimiter (requests_per_minute rl) (tokens_per_minute rl)
                      (request_timestamps rl) usage)
  else (true,
        mkRateLimiter (requests_per_minute rl) (tokens_per_minute rl)
                      (request_timestamps rl) (usage ++ [(now, tokens)])).

(** *** The sliding window *)

(** A run of [check_request], one call per reading of the clock: each
    reading with the answer given at it. *)
Fixpoint run_requests (rl : RateLimiter) (times : list Q) : list (Q * bool) :=
  match times with
  | [] => []
  | now :: rest =>
      let '(ok, rl) := check_request rl now in (now, ok) :: run_requests rl rest
  end.

(** The requests of a log that were allowed less than a minute before
    [now]. *)
Definition allowed_within (now : Q) (log : list (Q * bool)) : list Q :=
  filter (λ ts, recent now ts = true) (filter (λ p, p.2 = true) log).*1.

Lemma recent_self (now : Q) : recent now now = true.
Proof.
  unfold recent. destruct (Qle_bool now (now - 60)) eqn:H; [|done].
  apply Qle_bool_iff in H. lra.
Qed.

Lemma recent_mono (t now ts : Q) :
  (t <= now)%Q → recent now ts = true → recent t ts = true.
Proof.
  unfold recent. intros Hle Hr.
  destruct (Qle_bool ts (t - 60)) eqn:H; [|done].
  apply Qle_bool_iff in H.
  destruct (Qle_bool ts (now - 60)) eqn:H'; [done|].
  assert (ts <= now - 60)%Q as Hc by lra.
  apply Qle_bool_iff in Hc. congruence.
Qed.

Lemma filter_recent_mono {A} (f : A -> Q) (t now : Q) (l : list A) :
  (t <= now)%Q →
  filter (λ x, recent now (f x) = true) (filter (λ x, recent t (f x) = true) l)
  = filter (λ x, recent now (f x) = true) l.
Proof.
  intros Hle. induction l as [|x l IH]; [done|].
  destruct (recent now (f x)) eqn:Hn.
  - rewrite (filter_cons_True (λ x, recent t (f x) = true))
      by (by eapply recent_mono).
    rewrite !filter_cons_True by done. by rewrite IH.
  - rewrite (filter_cons_False (λ x, recent now (f x) = true) x l) by congruence.
    destruct (recent t (f x)) eqn:Ht.
    + rewrite (filter_cons_True (λ x, recent t (f x) = true)) by done.
      rewrite filter_cons_False by congruence. done.
    + rewrite (filter_cons_False (λ x, recent t (f x) = true)) by congruence.
      done.
Qed.

Lemma allowed_within_snoc (now t : Q) (ok : bool) (log : list (Q * bool)) :
  allowed_within now (log ++ [(t, ok)])
  = allowed_within now log ++ (if ok && recent now t then [t] else []).
Proof.
  unfold allowed_within. rewrite filter_app, fmap_app, filter_app. f_equal.
  destruct ok; cbn [andb].
  - rewrite (filter_cons_True (λ p : Q * bool, p.2 = true)) by done.
    rewrite filter_nil. cbn [fmap list_fmap fst].
    destruct (recent now t) eqn:Hr.
    + by rewrite filter_cons_True.
    + by rewrite filter_cons_False by congruence.
  - by rewrite (filter_cons_False (λ p : Q * bool, p.2 = true)) by done.
Qed.

Lemma run_requests_window (times : list Q) :
  ∀ (rl : RateLimiter) (pre : list (Q * bool)) (t_prev : Q),
    request_timestamps rl = allowed_within t_prev pre →
    Z.of_nat (length (request_timestamps rl)) ≤ Z.max 0 (requests_per_minute rl) →
    Forall (Qle t_prev) times →
    StronglySorted Qle times →
    ∀ i t ok,
      run_requests rl times !! i = Some (t, ok) →
      (ok = true ↔
         Z.of_nat (length (allowed_within t
                             (pre ++ take i (run_requests rl times))))
         < requests_per_minute rl)
      ∧ Z.of_nat (length (allowed_within t
                            (pre ++ take (S i) (run_requests rl times))))
        ≤ Z.max 0 (requests_per_minute rl).
Proof.
  induction times as [|now times IH];
    intros rl pre t_prev Hinv Hlen Hprev Hsorted i t ok Hi; [done|].
  apply Forall_cons in Hprev as [Hnow Hprev].
  apply StronglySorted_inv in Hsorted as [Hsorted Hlater].
  cbn [run_requests] in *.
  set (timestamps := filter (λ ts, recent now ts = true) (request_timestamps rl)).
  assert (Hts : timestamps = allowed_within now pre).
  { subst timestamps. rewrite Hinv. unfold allowed_within.
    by apply (filter_recent_mono id). }
  assert (Htslen : Z.of_nat (length timestamps) ≤ Z.max 0 (requests_per_minute rl)).
  { etrans; [|exact Hlen]. apply inj_le. apply length_filter. }
  destruct (check_request rl now) as [ok0 rl'] eqn:Hcheck.
  unfold check_request in Hcheck. fold timestamps in Hcheck.
  assert (Hok0 : ok0 = true ↔ Z.of_nat (length timestamps) < requests_per_minute rl).
  { destruct (Z.leb_spec (requests_per_minute rl) (Z.of_nat (length timestamps)));
      injection Hcheck as <- <-; split; (done || lia). }
  assert (Hrl' : request_timestamps rl' = allowed_within now (pre ++ [(now, ok0)])
                 ∧ requests_per_minute rl' = requests_per_minute rl).
  { rewrite allowed_within_snoc, recent_self, andb_true_r, <- Hts.
    destruct (requests_per_minute rl <=? Z.of_nat (length timestamps));
      injection Hcheck as <- <-; cbn; by rewrite ?app_nil_r. }
  destruct Hrl' as [Hinv' Hrpm'].
  assert (Hlen' : Z.of_nat (length (request_timestamps rl'))
                  ≤ Z.max 0 (requests_per_minute rl)).
  { destruct (Z.leb_spec (requests_per_minute rl) (Z.of_nat (length timestamps)));
      injection Hcheck as <- <-; cbn; [done|].
    rewrite length_app. cbn. lia. }
  destruct i as [|i].
  - injection Hi as <- <-. cbn [take]. rewrite !take_0, app_nil_r, <- Hts.
    split; [exact Hok0|]. by rewrite <- Hinv'.
  - cbn [lookup list_lookup] in Hi. cbn [take].
    rewrite !(cons_middle (now, ok0)), !app_assoc, <- Hrpm'.
    apply (IH rl' (pre ++ [(now, ok0)]) now); try done.
    by rewrite Hrpm'.
Qed.

(** X13.  Over a run of [check_request] on a new limiter at readings of the
    clock that do not decrease: a request is allowed exactly when fewer than
    [requests_per_minute] requests were allowed less than a minute before
    it, and so at no reading more than [requests_per_minute] of the requests
    allowed lie less than a minute back (none when the limit is not
    positive). *)
Theorem requests_allowed_within_a_minute_are_limited
    (requests_per_minute tokens_per_minute : Z) (times : list Q)
    (i : nat) (t : Q) (ok : bool) :
  StronglySorted Qle times →
  run_requests (new requests_per_minute tokens_per_minute) times !! i
  = Some (t, ok) →
  (ok = true ↔
     Z.of_nat (length (allowed_within t
                 (take i (run_requests
                            (new requests_per_minute tokens_per_minute) times))))
     < requests_per_minute)
  ∧ Z.of_nat (length (allowed_within t
                (take (S i) (run_requests
                               (new requests_per_minute tokens_per_minute) times))))
    ≤ Z.max 0 requests_per_minute.
Proof.
  intros Hsorted Hi. destruct times as [|t0 times]; [done|].
  apply (run_requests_window (t0 :: times)
           (new requests_per_minute tokens_per_minute) [] t0); try done.
  - cbn. lia.
  - apply StronglySorted_inv in Hsorted as [_ Hlater].
    constructor; [apply Qle_refl|done].
Qed.

(** Two requests a minute: requests at 0 s, 10 s, 20 s, 61 s and 62 s. *)
Example two_requests_a_minute :
  run_requests (new 2 100000) [0; 10; 20; 61; 62]%Q
  = [(0, true); (10, true); (20, false); (61, true); (62, false)]%Q.
Proof. reflexivity. Qed.

Lemma requests_allowed_within_a_minute_are_limited_witness :
  StronglySorted Qle [0; 10; 20; 61; 62]%Q ∧
  run_requests (new 2 100000) [0; 10; 20; 61; 62]%Q !! 2%nat
  = Some (20%Q, false) ∧
  (false = true ↔
     Z.of_nat (length (allowed_within 20
                 (take 2 (run_requests (new 2 100000) [0; 10; 20; 61; 62]%Q))))
     < 2)
  ∧ Z.of_nat (length (allowed_within 20
                (take 3 (run_requests (new 2 100000) [0; 10; 20; 61; 62]%Q))))
    ≤ Z.max 0 2.
Proof.
  assert (Hs : StronglySorted Qle [0; 10; 20; 61; 62]%Q).
  { repeat constructor; discriminate. }
  split; [exact Hs|]. split; [reflexivity|].
  exact (requests_allowed_within_a_minute_are_limited
           2 100000 [0; 10; 20; 61; 62]%Q 2 20%Q false Hs eq_refl).
Defined.

(** A run of [check_tokens]: each reading and number of tokens with the
    answer given. *)
Fixpoint run_tokens (rl : RateLimiter) (asks : list (Q * Z))
    : list (Q * Z * bool) :=
  match asks with
  | [] => []
  | (now, tokens) :: rest =>
      let '(ok, rl) := check_tokens rl tokens now in
      (now, tokens, ok) :: run_tokens rl rest
  end.

(** The usage of a log that was allowed less than a minute before [now]. *)
Definition usage_within (now : Q) (log : list (Q * Z * bool)) : list (Q * Z) :=
  filter (λ p, recent now p.1 = true) (filter (λ p, p.2 = true) log).*1.

Lemma usage_within_snoc (now t : Q) (n : Z) (ok : bool)
    (log : list (Q * Z * bool)) :
  usage_within now (log ++ [(t, n, ok)])
  = usage_within now log ++ (if ok && recent now t then [(t, n)] else []).
Proof.
  unfold usage_within. rewrite filter_app, fmap_app, filter_app. f_equal.
  destruct ok; cbn [andb].
  - rewrite (filter_cons_True (λ p : Q * Z * bool, p.2 = true)) by done.
    rewrite filter_nil. cbn [fmap list_fmap fst].
    destruct (recent now t) eqn:Hr.
    + by rewrite filter_cons_True.
    + by rewrite filter_cons_False by (cbn; congruence).
  - by rewrite (filter_cons_False (λ p : Q * Z * bool, p.2 = true)) by done.
Qed.

Lemma total_app (a b : list (Q * Z)) : total (a ++ b) = total a + total b.
Proof.
  unfold total. rewrite fmap_app. induction (a.*2) as [|x xs IH]; cbn; lia.
Qed.

Lemma total_filter (P : Q * Z -> Prop) `{!∀ p, Decision (P p)}
    (usage : list (Q * Z)) :
  Forall (λ p, 0 ≤ p.2) usage →
  0 ≤ total (filter P usage) ≤ total usage.
Proof.
  unfold total. induction 1 as [|p usage Hp Hall IH]; [done|].
  destruct (decide (P p)).
  - rewrite filter_cons_True by done. cbn. lia.
  - rewrite filter_cons_False by done. cbn. lia.
Qed.

Lemma run_tokens_window (asks : list (Q * Z)) :
  ∀ (rl : RateLimiter) (pre : list (Q * Z * bool)) (t_prev : Q),
    token_usage rl = usage_within t_prev pre →
    Forall (λ p, 0 ≤ p.2) (token_usage rl) →
    total (token_usage rl) ≤ Z.max 0 (tokens_per_minute rl) →
    Forall (λ p, (t_prev <= p.1)%Q ∧ 0 ≤ p.2) asks →
    StronglySorted (λ p q, (p.1 <= q.1)%Q) asks →
    ∀ i t n ok,
      run_tokens rl asks !! i = Some (t, n, ok) →
      (ok = true ↔
         total (usage_within t (pre ++ take i (run_tokens rl asks))) + n
         ≤ tokens_per_minute rl)
      ∧ total (usage_within t (pre ++ take (S i) (run_tokens rl asks)))
        ≤ Z.max 0 (tokens_per_minute rl).
Proof.
  induction asks as [|[now tokens] asks IH];
    intros rl pre t_prev Hinv Hpos Hlen Hprev Hsorted i t n ok Hi; [done|].
  apply Forall_cons in Hprev as [[Hnow Htokens] Hprev]. cbn in Hnow, Htokens.
  apply StronglySorted_inv in Hsorted as [Hsorted Hlater].
  cbn [run_tokens] in *.
  set (usage := filter (λ p : Q * Z, recent now p.1 = true) (token_usage rl)).
  assert (Hus : usage = usage_within now pre).
  { subst usage. rewrite Hinv. unfold usage_within.
    by apply (filter_recent_mono fst). }
  assert (Huspos : Forall (λ p : Q * Z, 0 ≤ p.2) usage).
  { apply Forall_forall. intros p [_ Hp]%list_elem_of_filter.
    by apply (proj1 (Forall_forall _ _) Hpos). }
  assert (Huslen : 0 ≤ total usage ≤ Z.max 0 (tokens_per_minute rl)).
  { pose proof (total_filter (λ p : Q * Z, recent now p.1 = true)
                  (token_usage rl) Hpos) as Hf.
    fold usage in Hf. lia. }
  destruct (check_tokens rl tokens now) as [ok0 rl'] eqn:Hcheck.
  unfold check_tokens in Hcheck. fold usage in Hcheck.
  assert (Hok0 : ok0 = true ↔ total usage + tokens ≤ tokens_per_minute rl).
  { destruct (Z.ltb_spec (tokens_per_minute rl) (total usage + tokens));
      injection Hcheck as <- <-; split; (done || lia). }
  assert (Hrl' : token_usage rl' = usage_within now (pre ++ [(now, tokens, ok0)])
                 ∧ tokens_per_minute rl' = tokens_per_minute rl).
  { rewrite usage_within_snoc, recent_self, andb_true_r, <- Hus.
    destruct (tokens_per_minute rl <? total usage + tokens);
      injection Hcheck as <- <-; cbn; by rewrite ?app_nil_r. }
  destruct Hrl' as [Hinv' Htpm'].
  assert (Hpos' : Forall (λ p : Q * Z, 0 ≤ p.2) (token_usage rl')
                  ∧ total (token_usage rl') ≤ Z.max 0 (tokens_per_minute rl)).
  { destruct (Z.ltb_spec (tokens_per_minute rl) (total usage + tokens));
      injection Hcheck as <- <-; cbn [token_usage]; [split; [done|lia]|].
    split; [apply Forall_app; by repeat constructor|].
    rewrite total_app. unfold total at 2. cbn. lia. }
  destruct Hpos' as [Hpos' Hlen'].
  destruct i as [|i].
  - injection Hi as <- <- <-. cbn [take]. rewrite !take_0, app_nil_r, <- Hus.
    split; [exact Hok0|]. by rewrite <- Hinv'.
  - cbn [lookup list_lookup] in Hi. cbn [take].
    rewrite !(cons_middle (now, tokens, ok0)), !app_assoc, <- Htpm'.
    apply (IH rl' (pre ++ [(now, tokens, ok0)]) now); try done.
    + by rewrite Htpm'.
    + rewrite Forall_forall in Hprev, Hlater. apply Forall_forall.
      intros p Hp. split; [by apply (Hlater p)|by apply (Hprev p)].
Qed.

(** X14.  Over a run of [check_tokens] on a new limiter, at readings of the
    clock that do not decrease and for numbers of tokens that are not
    negative: a request is allowed exactly when the tokens allowed less
    than a minute before it, together with its own, do not exceed
    [tokens_per_minute], and so at no reading do the tokens allowed less
    than a minute back exceed [tokens_per_minute]. *)
Theorem tokens_allowed_within_a_minute_are_limited
    (requests_per_minute tokens_per_minute : Z) (asks : list (Q * Z))
    (i : nat) (t : Q) (n : Z) (ok : bool) :
  StronglySorted (λ p q, (p.1 <= q.1)%Q) asks →
  Forall (λ p, 0 ≤ p.2) asks →
  run_tokens (new requests_per_minute tokens_per_minute) asks !! i
  = Some (t, n, ok) →
  (ok = true ↔
     total (usage_within t
              (take i (run_tokens
                         (new requests_per_minute tokens_per_minute) asks)))
     + n ≤ tokens_per_minute)
  ∧ total (usage_within t
             (take (S i) (run_tokens
                            (new requests_per_minute tokens_per_minute) asks)))
    ≤ Z.max 0 tokens_per_minute.
Proof.
  intros Hsorted Hpos Hi. destruct asks as [|[t0 n0] asks]; [done|].
  apply (run_tokens_window ((t0, n0) :: asks)
           (new requests_per_minute tokens_per_minute) [] t0); try done.
  - cbn. lia.
  - apply StronglySorted_inv in Hsorted as [_ Hlater].
    apply Forall_cons in Hpos as [Hn0 Hpos].
    constructor; [split; [apply Qle_refl|done]|].
    rewrite Forall_forall in Hpos, Hlater. apply Forall_forall.
    intros p Hp. split; [by apply (Hlater p)|by apply (Hpos p)].
Qed.

(** A hundred tokens a minute. *)
Example a_hundred_tokens_a_minute :
  run_tokens (new 60 100) [(0%Q, 60); (10%Q, 50); (20%Q, 40); (61%Q, 50); (62%Q, 20)]
  = [(0%Q, 60, true); (10%Q, 50, false); (20%Q, 40, true); (61%Q, 50, true);
     (62%Q, 20, false)].
Proof. reflexivity. Qed.

Lemma tokens_allowed_within_a_minute_are_limited_witness :
  StronglySorted (λ p q : Q * Z, (p.1 <= q.1)%Q)
                 [(0%Q, 60); (10%Q, 50); (20%Q, 40)] ∧
  Forall (λ p : Q * Z, 0 ≤ p.2) [(0%Q, 60); (10%Q, 50); (20%Q, 40)] ∧
  (false = true ↔
     total (usage_within 10%Q
              (take 1 (run_tokens (new 60 100)
                         [(0%Q, 60); (10%Q, 50); (20%Q, 40)])))
     + 50 ≤ 100)
  ∧ total (usage_within 10%Q
             (take 2 (run_tokens (new 60 100)
                        [(0%Q, 60); (10%Q, 50); (20%Q, 40)])))
    ≤ Z.max 0 100.
Proof.
  assert (Hs : StronglySorted (λ p q : Q * Z, (p.1 <= q.1)%Q)
                              [(0%Q, 60); (10%Q, 50); (20%Q, 40)]).
  { repeat constructor; discriminate. }
  assert (Hp : Forall (λ p : Q * Z, 0 ≤ p.2) [(0%Q, 60); (10%Q, 50); (20%Q, 40)]).
  { repeat constructor; discriminate. }
  split; [exact Hs|]. split; [exact Hp|].
  exact (tokens_allowed_within_a_minute_are_limited
           60 100 [(0%Q, 60); (10%Q, 50); (20%Q, 40)] 1 10%Q 50 false Hs Hp eq_refl).
Defined.

End RateLimiter.


(** ** governance/safety.py: CostTracker *)

Module CostTracker.

Record CostTracker := mkCostTracker {
  budget_limit : Q;
  alert_threshold : Q;
  total_cost : Q;
  cost_by_model : gmap string Q
}.

(** [CostTracker.__init__] *)
Definition new (budget_limit alert_threshold : Q) : CostTracker :=
  mkCostTracker budget_limit alert_threshold 0 ∅.

Definition track (model : string) (cost : Q) (ct : CostTracker) : CostTracker :=
  mkCostTracker (budget_limit ct) (alert_threshold ct)
    (total_cost ct + cost)
    (<[model := (default 0%Q (cost_by_model ct !! model) + cost)%Q]>
       (cost_by_model ct)).

(** [self.total_cost < self.budget_limit] *)
Definition check_budget (ct : CostTracker) : bool :=
  negb (Qle_bool (budget_limit ct) (total_cost ct)).

(** [self.total_cost >= self.budget_limit * self.alert_threshold] *)
Definition should_alert (ct : CostTracker) : bool :=
  Qle_bool (budget_limit ct * alert_threshold ct) (total_cost ct).

Definition get_remaining_budget (ct : CostTracker) : Q :=
  Qmax 0 (budget_limit ct - total_cost ct).

Definition ZeroDivisionError : exn :=
  Exn "ZeroDivisionError" "float division by zero" None.

(** [get_stats]: the dict, as the list of its items; the quotient raises
    when the budget limit is zero. *)
Definition get_stats (ct : CostTracker) : outcome (list (string * pyval)) :=
  if Qeq_bool (budget_limit ct) 0 then Raised ZeroDivisionError
  else Returned
         [("total_cost", PyFloat (total_cost ct));
          ("budget_limit", PyFloat (budget_limit ct));
          ("remaining_budget", PyFloat (get_remaining_budget ct));
          ("utilization", PyFloat (total_cost ct / budget_limit ct));
          ("cost_by_model",
           PyDict (prod_map id PyFloat <$> map_to_list (cost_by_model ct)))].

(** *** The budget *)

Lemma check_budget_lt (ct : CostTracker) :
  check_budget ct = true ↔ (total_cost ct < budget_limit ct)%Q.
Proof.
  unfold check_budget. destruct (Qle_bool _ _) eqn:H; cbn.
  - apply Qle_bool_iff in H. split; [done|]. intros Hlt. lra.
  - split; [|done]. intros _. apply Qnot_le_lt. intros Hle.
    apply Qle_bool_iff in Hle. congruence.
Qed.

(** X15.  With costs on exact rationals: the budget check succeeds exactly
    when the remaining budget is positive; once it fails it keeps failing
    however many costs that are not negative are tracked; a failed check
    implies an alert when the budget limit is not negative and the alert
    threshold is at most 1; and [get_stats] raises ZeroDivisionError
    exactly when the budget limit is zero. *)
Theorem budget_checks_agree (ct : CostTracker) :
  (check_budget ct = true ↔ (0 < get_remaining_budget ct)%Q)
  ∧ (∀ costs : list (string * Q),
       Forall (λ mc, 0 <= mc.2)%Q costs →
       check_budget ct = false →
       check_budget (foldl (λ ct mc, track mc.1 mc.2 ct) ct costs) = false)
  ∧ ((0 <= budget_limit ct)%Q → (alert_threshold ct <= 1)%Q →
     check_budget ct = false → should_alert ct = true)
  ∧ (get_stats ct = Raised ZeroDivisionError ↔ (budget_limit ct == 0)%Q).
Proof.
  split; [|split; [|split]].
  - rewrite check_budget_lt. unfold get_remaining_budget.
    destruct (Q.max_spec 0 (budget_limit ct - total_cost ct)) as [[Hlt ->]|[Hle ->]];
      split; intros H; lra.
  - intros costs. revert ct.
    induction costs as [|[m c] costs IH]; intros ct Hpos Hb; [done|].
    apply Forall_cons in Hpos as [Hc Hpos]. cbn [foldl]. apply IH; [done|].
    destruct (check_budget (track m c ct)) eqn:Hb'; [|done].
    apply check_budget_lt in Hb'. cbn in Hb', Hc.
    assert (¬ (total_cost ct < budget_limit ct)%Q) as Hn
      by (rewrite <- check_budget_lt; congruence).
    lra.
  - intros Hlimit Hthr Hb. unfold should_alert. apply Qle_bool_iff.
    assert (¬ (total_cost ct < budget_limit ct)%Q) as Hn
      by (rewrite <- check_budget_lt; congruence).
    apply Qnot_lt_le in Hn. nra.
  - unfold get_stats. destruct (Qeq_bool (budget_limit ct) 0) eqn:H.
    + apply Qeq_bool_iff in H. by split.
    + split; [discriminate|]. intros Heq. apply Qeq_bool_iff in Heq. congruence.
Qed.

End CostTracker.


(** ** guardrails/engine.py *)

Module Engine.

Import Guards.

Local Open Scope Z_scope.

Record GuardrailConfig := mkGuardrailConfig {
  fail_fast : bool;
  log_violations : bool
}.

(** [GuardrailConfig()] *)
Definition default_config : GuardrailConfig := mkGuardrailConfig true true.

(** The exception [GuardrailViolation], by its three attributes. *)
Record GuardrailViolation := mkViolation {
  guard_name : string;
  violation_message : string;
  violation_metadata : list (string * pyval)
}.

(** A registry [Dict[str, BaseGuard]], in insertion order: assigning to a
    key that is present replaces its value in place, assigning to a new key
    appends it. *)
Fixpoint dict_set (d : list (string * BaseGuard)) (key : string) (g : BaseGuard)
    : list (string * BaseGuard) :=
  match d with
  | [] => [(key, g)]
  | (k, g') :: d =>
      if decide (k = key) then (key, g) :: d else (k, g') :: dict_set d key g
  end.

Fixpoint dict_get (d : list (string * BaseGuard)) (key : string)
    : option BaseGuard :=
  match d with
  | [] => None
  | (k, g) :: d => if decide (k = key) then Some g else dict_get d key
  end.

(** [key in d], [d[key]] and [list(d.values())] *)
Definition dict_contains (d : list (string * BaseGuard)) (key : string) : bool :=
  bool_decide (is_Some (dict_get d key)).

Definition KeyError (key : string) : exn := Exn "KeyError" key None.

Definition dict_item (d : list (string * BaseGuard)) (key : string)
    : outcome BaseGuard :=
  match dict_get d key with
  | Some g => Returned g
  | None => Raised (KeyError key)
  end.

Definition dict_values (d : list (string * BaseGuard)) : list BaseGuard := d.*2.

Record GuardrailEngine := mkEngine {
  config : GuardrailConfig;
  input_guards : list (string * BaseGuard);
  output_guards : list (string * BaseGuard);
  action_guards : list (string * BaseGuard);
  _total_validations : Z;
  _total_violations : Z
}.

(** [GuardrailEngine.__init__]: [config or GuardrailConfig()]. *)
Definition new (cfg : option GuardrailConfig) : GuardrailEngine :=
  mkEngine (default default_config cfg) [] [] [] 0 0.

Definition register_input_guard (g : BaseGuard) (eng : GuardrailEngine)
    : GuardrailEngine :=
  mkEngine (config eng) (dict_set (input_guards eng) (name g) g)
           (output_guards eng) (action_guards eng)
           (_total_validations eng) (_total_violations eng).

Definition register_output_guard (g : BaseGuard) (eng : GuardrailEngine)
    : GuardrailEngine :=
  mkEngine (config eng) (input_guards eng)
           (dict_set (output_guards eng) (name g) g) (action_guards eng)
           (_total_validations eng) (_total_violations eng).

Definition register_action_guard (g : BaseGuard) (eng : GuardrailEngine)
    : GuardrailEngine :=
  mkEngine (config eng) (input_guards eng) (output_guards eng)
           (dict_set (action_guards eng) (name g) g)
           (_total_validations eng) (_total_violations eng).

Definition count_validation (eng : GuardrailEngine) : GuardrailEngine :=
  mkEngine (config eng) (input_guards eng) (output_guards eng)
           (action_guards eng) (_total_validations eng + 1)
           (_total_violations eng).

Definition count_violation (eng : GuardrailEngine) : GuardrailEngine :=
  mkEngine (config eng) (input_guards eng) (output_guards eng)
           (action_guards eng) (_total_validations eng)
           (_total_violations eng + 1).

(** The comprehension [[guard_dict[name] for name in guard_names if name in
    guard_dict]]; the subscript is the partial one, which raises KeyError
    on a missing key. *)
Fixpoint select_named (guard_dict : list (string * BaseGuard))
    (guard_names : list string) : outcome (list BaseGuard) :=
  match guard_names with
  | [] => Returned []
  | nm :: rest =>
      if dict_contains guard_dict nm then
        match dict_item guard_dict nm with
        | Raised e => Raised e
        | Returned g =>
            match select_named guard_dict rest with
            | Raised e => Raised e
            | Returned gs => Returned (g :: gs)
            end
        end
      else select_named guard_dict rest
  end.

Definition _select_guards (guard_dict : list (string * BaseGuard))
    (guard_names : option (list string)) : outcome (list BaseGuard) :=
  match guard_names with
  | None => Returned (dict_values guard_dict)
  | Some names => select_named guard_dict names
  end.

(** How a validation ends: the content is returned, a GuardrailViolation is
    raised, or an exception raised by a guard passes through. *)
Inductive verdict :=
| Valid (content : string)
| Violation (v : GuardrailViolation)
| Error (e : exn).

(** What a validation leaves behind: the engine with its counters, the
    verdict, and the names of the guards whose [validate] was called. *)
Record Validation := mkValidation {
  engine : GuardrailEngine;
  outcome_of : verdict;
  evaluated : list string
}.

(** [result.message or "Validation failed"] *)
Definition message_or_default (r : GuardResult) : string :=
  match message r with
  | None | Some EmptyString => "Validation failed"
  | Some m => m
  end.

Definition violation_entry (v : GuardrailViolation) : pyval :=
  PyDict [("guard", PyStr (guard_name v));
          ("message", PyStr (violation_message v));
          ("metadata", PyDict (violation_metadata v))].

Definition combined (violations : list GuardrailViolation) : GuardrailViolation :=
  mkViolation "multiple"
              (pretty (length violations) +:+ " guard(s) failed")
              [("violations", PyList (violation_entry <$> violations))].

Fixpoint run_loop (eng : GuardrailEngine) (guards : list BaseGuard)
    (content : string) (context : option (gmap string pyval))
    (violations : list GuardrailViolation) (seen : list string) : Validation :=
  match guards with
  | [] =>
      match violations with
      | [] => mkValidation eng (Valid content) seen
      | _ => mkValidation eng (Violation (combined violations)) seen
      end
  | guard :: rest =>
      let seen := seen ++ [name guard] in
      match validate guard content context with
      | Raised e => mkValidation eng (Error e) seen
      | Returned result =>
          if passed result then run_loop eng rest content context violations seen
          else
            let eng := count_violation eng in
            let violation :=
              mkViolation (name guard) (message_or_default result)
                          (metadata result) in
            if fail_fast (config eng)
            then mkValidation eng (Violation violation) seen
            else run_loop eng rest content context
                          (violations ++ [violation]) seen
      end
  end.

Definition _run_guards (eng : GuardrailEngine) (guards : list BaseGuard)
    (content : string) (context : option (gmap string pyval)) : Validation :=
  run_loop (count_validation eng) guards content context [] [].

(** The body shared by the three [validate_*] methods. *)
Definition validate_with (guard_dict : list (string * BaseGuard))
    (eng : GuardrailEngine) (content : string)
    (guard_names : option (list string))
    (context : option (gmap string pyval)) : Validation :=
  match _select_guards guard_dict guard_names with
  | Raised e => mkValidation eng (Error e) []
  | Returned guards_to_run => _run_guards eng guards_to_run content context
  end.

Definition validate_input (eng : GuardrailEngine) :=
  validate_with (input_guards eng) eng.
Definition validate_output (eng : GuardrailEngine) :=
  validate_with (output_guards eng) eng.
Definition validate_action (eng : GuardrailEngine) :=
  validate_with (action_guards eng) eng.

(** The three guard groups, to state what holds of each. *)
Inductive Group := Input | Output | Action.

Definition guards_of (grp : Group) (eng : GuardrailEngine)
    : list (string * BaseGuard) :=
  match grp with
  | Input => input_guards eng
  | Output => output_guards eng
  | Action => action_guards eng
  end.

Definition register (grp : Group) :=
  match grp with
  | Input => register_input_guard
  | Output => register_output_guard
  | Action => register_action_guard
  end.

Definition validate_in (grp : Group) :=
  match grp with
  | Input => validate_input
  | Output => validate_output
  | Action => validate_action
  end.

(** *** Running the guards *)

Lemma validate_in_unfold (grp : Group) (eng : GuardrailEngine) :
  validate_in grp eng = validate_with (guards_of grp eng) eng.
Proof. by destruct grp. Qed.

Lemma guards_of_register (grp : Group) (g : BaseGuard) (eng : GuardrailEngine) :
  guards_of grp (register grp g eng) = dict_set (guards_of grp eng) (name g) g
  ∧ config (register grp g eng) = config eng.
Proof. by destruct grp. Qed.

Lemma select_named_registered (d : list (string * BaseGuard)) (names : list string) :
  select_named d names = Returned (omap (dict_get d) names).
Proof.
  induction names as [|nm names IH]; simpl; [done|].
  unfold dict_contains, dict_item.
  destruct (dict_get d nm) as [g|] eqn:Hg.
  - rewrite bool_decide_eq_true_2 by eauto. by rewrite IH.
  - rewrite bool_decide_eq_false_2 by (by intros [? ?]). exact IH.
Qed.

(** The guards evaluated are an initial segment of the guards selected. *)
Lemma run_loop_evaluated (guards : list BaseGuard) :
  ∀ eng content context violations seen,
    ∃ k, evaluated (run_loop eng guards content context violations seen)
         = seen ++ (name <$> take k guards).
Proof.
  induction guards as [|g guards IH]; intros eng content context violations seen;
    simpl.
  - exists 0%nat. destruct violations; simpl; by rewrite app_nil_r.
  - destruct (validate g content context) as [r|e].
    + destruct (passed r).
      * destruct (IH eng content context violations (seen ++ [name g])) as [k Hk].
        exists (S k). rewrite Hk. simpl. by rewrite <- app_assoc.
      * destruct (fail_fast (config eng)).
        -- by exists 1%nat.
        -- destruct (IH (count_violation eng) content context
                        (violations ++ [mkViolation (name g) (message_or_default r)
                                                    (metadata r)])
                        (seen ++ [name g])) as [k Hk].
           exists (S k). rewrite Hk. simpl. by rewrite <- app_assoc.
    + by exists 1%nat.
Qed.




Lemma omap_unregistered (d : list (string * BaseGuard)) (names : list string) :
  Forall (λ key, dict_get d key = None) names → omap (dict_get d) names = [].
Proof.
  induction 1 as [|key keys Hkey _ IH]; simpl; [done|]. by rewrite Hkey.
Qed.

(** C10.  With an explicit list of guard names, the selection never raises
    a lookup error and is the list of the guards registered under the given
    names, the names that are not registered being skipped; the guards
    evaluated are among these; and when none of the names is registered, no
    guard is evaluated and the content is returned as it is.  This holds for
    [validate_input], [validate_output] and [validate_action]. *)
Theorem unregistered_guard_names_are_skipped
    (grp : Group) (eng : GuardrailEngine) (names : list string)
    (content : string) (context : option (gmap string pyval)) :
  let guard_dict := guards_of grp eng in
  let run := validate_in grp eng content (Some names) context in
  _select_guards guard_dict (Some names) = Returned (omap (dict_get guard_dict) names)
  ∧ run = _run_guards eng (omap (dict_get guard_dict) names) content context
  ∧ (∀ nm, nm ∈ evaluated run →
           ∃ key g, key ∈ names ∧ dict_get guard_dict key = Some g ∧ name g = nm)
  ∧ (Forall (λ key, dict_get guard_dict key = None) names →
     outcome_of run = Valid content ∧ evaluated run = []).
Proof.
  intros guard_dict run.
  assert (Hsel : _select_guards guard_dict (Some names)
                 = Returned (omap (dict_get guard_dict) names))
    by apply select_named_registered.
  assert (Hrun : run = _run_guards eng (omap (dict_get guard_dict) names)
                                   content context).
  { subst run. rewrite validate_in_unfold. unfold validate_with.
    fold guard_dict. by rewrite Hsel. }
  split; [exact Hsel|]. split; [exact Hrun|]. split.
  - intros nm Hnm. rewrite Hrun in Hnm. unfold _run_guards in Hnm.
    destruct (run_loop_evaluated (omap (dict_get guard_dict) names)
                (count_validation eng) content context [] []) as [k Hk].
    rewrite Hk in Hnm. simpl in Hnm.
    apply list_elem_of_fmap in Hnm as (g & -> & Hg).
    apply elem_of_take in Hg as (i & Hg & _).
    apply list_elem_of_lookup_2 in Hg.
    apply list_elem_of_omap in Hg as (key & Hkey & Hget).
    by exists key, g.
  - intros Hnone. rewrite Hrun.
    by rewrite (omap_unregistered guard_dict names Hnone).
Qed.

(** An engine with a toxicity guard and a length guard on its outputs. *)
Definition tox : BaseGuard := toxicity_guard (new_toxicity_guard "toxicity" None).
Definition short : BaseGuard := length_guard (mkLengthGuard "length" 0 (Some 3%nat)).
Definition demo_engine (cfg : option GuardrailConfig) : GuardrailEngine :=
  register_output_guard short (register_output_guard tox (new cfg)).

Example demo_fail_fast :
  let run := validate_output (demo_engine None) "kill" None None in
  outcome_of run
  = Violation (mkViolation "toxicity" "Toxic content detected (score: 1.00)"
                           [("toxicity_score", PyFloat 1)])
  ∧ evaluated run = ["toxicity"] ∧ _total_violations (engine run) = 1.
Proof. vm_compute. repeat split. Qed.

Example demo_collect_all :
  let run := validate_output
               (demo_engine (Some (mkGuardrailConfig false true)))
               "kill" None None in
  outcome_of run
  = Violation
      (mkViolation "multiple" "2 guard(s) failed"
         [("violations",
           PyList [PyDict [("guard", PyStr "toxicity");
                           ("message", PyStr "Toxic content detected (score: 1.00)");
                           ("metadata", PyDict [("toxicity_score", PyFloat 1)])];
                   PyDict [("guard", PyStr "length");
                           ("message", PyStr "Output too long: 4 > 3");
                           ("metadata", PyDict [("length", PyInt 4);
                                                ("max_length", PyInt 3)])]])])
  ∧ evaluated run = ["toxicity"; "length"] ∧ _total_violations (engine run) = 2.
Proof. vm_compute. repeat split. Qed.

Example demo_unknown_names :
  let run := validate_output (demo_engine None) "kill"
                             (Some ["pii"; "format"]) None in
  outcome_of run = Valid "kill" ∧ evaluated run = []
  ∧ _total_validations (engine run) = 1.
Proof. vm_compute. repeat split. Qed.

Example demo_some_unknown_names :
  let run := validate_output (demo_engine None) "ok"
                             (Some ["pii"; "length"; "format"]) None in
  outcome_of run = Valid "ok" ∧ evaluated run = ["length"].
Proof. vm_compute. repeat split. Qed.


(** *** Any number of guards *)

(** The violation that [_run_guards] builds from a failed result. *)
Definition violation_of (g : BaseGuard) (r : GuardResult) : GuardrailViolation :=
  mkViolation (name g) (message_or_default r) (metadata r).

(** Each guard returns its result on the content. *)
Definition return_results (guards : list BaseGuard) (content : string)
    (context : option (gmap string pyval)) (results : list GuardResult) : Prop :=
  Forall2 (λ g r, validate g content context = Returned r) guards results.

(** The violations of the guards that failed, in the order of the guards. *)
Definition failures (guards : list BaseGuard) (results : list GuardResult)
    : list GuardrailViolation :=
  (λ gr, violation_of gr.1 gr.2)
    <$> filter (λ gr : BaseGuard * GuardResult, passed gr.2 = false)
               (zip guards results).

Definition count_violations (n : Z) (eng : GuardrailEngine) : GuardrailEngine :=
  mkEngine (config eng) (input_guards eng) (output_guards eng)
           (action_guards eng) (_total_validations eng)
           (_total_violations eng + n).

Lemma failures_cons (g : BaseGuard) (r : GuardResult) guards results :
  failures (g :: guards) (r :: results)
  = (if passed r then [] else [violation_of g r]) ++ failures guards results.
Proof.
  unfold failures. cbn [zip zip_with].
  destruct (passed r) eqn:Hp.
  - by rewrite filter_cons_False by (cbn; congruence).
  - by rewrite filter_cons_True by done.
Qed.

(** The guards that return, run while the loop goes on: until the end with
    fail-fast off, and while they pass with fail-fast on. *)
Lemma run_loop_prefix (pre : list BaseGuard) :
  ∀ results eng rest content context violations seen,
    return_results pre content context results →
    (fail_fast (config eng) = true → Forall (λ r, passed r = true) results) →
    run_loop eng (pre ++ rest) content context violations seen
    = run_loop (count_violations (Z.of_nat (length (failures pre results))) eng)
               rest content context
               (violations ++ failures pre results)
               (seen ++ (name <$> pre)).
Proof.
  induction pre as [|g pre IH];
    intros results eng rest content context violations seen Hres Hff.
  - apply Forall2_nil_inv_l in Hres as ->. cbn.
    rewrite !app_nil_r. f_equal. unfold count_violations. destruct eng; cbn.
    f_equal. lia.
  - apply Forall2_cons_inv_l in Hres as (r & results' & Hr & Hres & ->).
    cbn [app run_loop]. rewrite Hr, failures_cons.
    destruct (passed r) eqn:Hp.
    + rewrite (IH results'); [|done|].
      * cbn [app fmap list_fmap]. by rewrite <- app_assoc.
      * intros H. specialize (Hff H). by apply Forall_cons in Hff as [_ ?].
    + destruct (fail_fast (config eng)) eqn:Hfast.
      { specialize (Hff eq_refl). apply Forall_cons in Hff as [? _]. congruence. }
      change (config (count_violation eng)) with (config eng). rewrite Hfast.
      rewrite (IH results'); [|done|].
      * cbn [app fmap list_fmap length]. rewrite <- !app_assoc. cbn [app].
        f_equal. unfold count_violations, count_violation. cbn. f_equal. lia.
      * cbn. intros H. congruence.
Qed.



(** X18.  An exception raised by a guard leaves the validation as it is: it
    is not turned into a GuardrailViolation, and the guards after it are not
    evaluated.  With fail-fast off, the violations of the guards that failed
    before it are counted but not reported. *)
Theorem guard_exception_passes_through
    (eng : GuardrailEngine) (pre : list BaseGuard) (g : BaseGuard)
    (post : list BaseGuard) (content : string)
    (context : option (gmap string pyval))
    (results : list GuardResult) (e : exn) :
  return_results pre content context results →
  (fail_fast (config eng) = true → Forall (λ r, passed r = true) results) →
  validate g content context = Raised e →
  outcome_of (_run_guards eng (pre ++ g :: post) content context) = Error e
  ∧ evaluated (_run_guards eng (pre ++ g :: post) content context)
    = (name <$> pre) ++ [name g]
  ∧ _total_violations (engine (_run_guards eng (pre ++ g :: post) content context))
    = _total_violations eng + Z.of_nat (length (failures pre results)).
Proof.
  intros Hres Hff Hr. unfold _run_guards.
  rewrite (run_loop_prefix pre results); [|done|done].
  cbn [run_loop]. rewrite Hr. cbn. done.
Qed.

Lemma dict_get_set (d : list (string * BaseGuard)) (key : string) (g : BaseGuard)
    (nm : string) :
  dict_get (dict_set d key g) nm
  = if decide (nm = key) then Some g else dict_get d nm.
Proof.
  induction d as [|[k g'] d IH]; cbn.
  - repeat case_decide; congruence.
  - repeat (case_decide; cbn); try congruence.
Qed.

Lemma dict_keys_set (d : list (string * BaseGuard)) (key : string) (g : BaseGuard) :
  (dict_set d key g).*1 = if decide (key ∈ d.*1) then d.*1 else d.*1 ++ [key].
Proof.
  induction d as [|[k g'] d IH]; cbn.
  - by rewrite decide_False by (by intros ?%elem_of_nil).
  - destruct (decide (k = key)) as [->|Hne]; cbn.
    + by rewrite decide_True by left.
    + rewrite IH. destruct (decide (key ∈ d.*1)) as [Hin|Hout].
      * by rewrite decide_True by (by right).
      * rewrite decide_False; [done|].
        intros [?|?]%elem_of_cons; congruence.
Qed.

(** X19.  Registering a guard makes it the guard that its name selects in
    its group and leaves the guards of the other names as they were.  If the
    name was registered already, the earlier guard is replaced where it
    stood: the names keep their order and their number; otherwise the name
    is added last.  The other two groups, the configuration and the
    counters are left as they were. *)
Theorem registering_replaces_in_place
    (grp : Group) (g : BaseGuard) (eng : GuardrailEngine) :
  (∀ nm, dict_get (guards_of grp (register grp g eng)) nm
         = if decide (nm = name g) then Some g
           else dict_get (guards_of grp eng) nm)
  ∧ (guards_of grp (register grp g eng)).*1
    = (if decide (name g ∈ (guards_of grp eng).*1)
       then (guards_of grp eng).*1
       else (guards_of grp eng).*1 ++ [name g])
  ∧ (∀ other, other ≠ grp →
       guards_of other (register grp g eng) = guards_of other eng)
  ∧ config (register grp g eng) = config eng
  ∧ _total_validations (register grp g eng) = _total_validations eng
  ∧ _total_violations (register grp g eng) = _total_violations eng.
Proof.
  destruct (guards_of_register grp g eng) as [Hset Hcfg].
  split; [|split; [|split; [|split; [|split]]]].
  - intros nm. rewrite Hset. apply dict_get_set.
  - rewrite Hset. apply dict_keys_set.
  - intros other Hne. by destruct grp, other.
  - exact Hcfg.
  - by destruct grp.
  - by destruct grp.
Qed.

(** A length guard without bounds, which every content passes. *)
Definition any_length : BaseGuard := length_guard (mkLengthGuard "any" 0 None).



Lemma guard_exception_passes_through_witness :
  ∃ results,
    return_results [any_length] " " None results ∧
    (fail_fast (config (new None)) = true →
     Forall (λ r, passed r = true) results) ∧
    validate tox " " None = Raised ZeroDivisionError ∧
    outcome_of (_run_guards (new None) ([any_length] ++ tox :: [short])
                            " " None)
    = Error ZeroDivisionError
    ∧ evaluated (_run_guards (new None) ([any_length] ++ tox :: [short])
                             " " None)
      = (name <$> [any_length]) ++ [name tox].
Proof.
  assert (Hres : return_results [any_length] " " None [pass])
    by (repeat constructor).
  assert (Hpass : fail_fast (config (new None)) = true →
                  Forall (λ r, passed r = true) [pass])
    by (intros _; repeat constructor).
  eexists. split; [exact Hres|]. split; [exact Hpass|].
  split; [reflexivity|].
  destruct (guard_exception_passes_through
              (new None) [any_length] tox [short] " " None [pass]
              ZeroDivisionError Hres Hpass eq_refl)
    as (Hout & Hev & _).
  split; [exact Hout|exact Hev].
Defined.


End Engine.

(** ** state/state.py *)

Module State.

(** [type(value).__name__] *)
Definition type_name (v : pyval) : string :=
  match v with
  | PyNone => "NoneType" | PyBool _ => "bool" | PyInt _ => "int"
  | PyFloat _ => "float" | PyStr _ => "str" | PyList _ => "list"
  | PyDict _ => "dict" | PyObject _ => "object"
  end.

(** [orjson.dumps] accepts JSON data with integers within 64 bits and with
    lists and dicts nested at most [RECURSION_LIMIT] deep, and raises
    JSONEncodeError, which is a TypeError, at the first value that it meets
    and cannot serialize.  [dumps_error] is the message of that error;
    [budget] is the number of levels of lists and dicts that may still be
    entered.  (Its two other refusals, of a dict key that is not a str and
    of a str that is not valid text, have no counterpart here: keys are
    strings, and strings are sequences of characters.) *)
Definition RECURSION_LIMIT : nat := 255.

Definition first_error {A} (f : A -> option string) (xs : list A)
    : option string :=
  foldr (λ x rest, match f x with Some msg => Some msg | None => rest end)
        None xs.

Fixpoint dumps_error (budget : nat) (v : pyval) {struct v} : option string :=
  match v with
  | PyNone | PyBool _ | PyFloat _ | PyStr _ => None
  | PyInt z =>
      if ((- 2 ^ 63 <=? z) && (z <? 2 ^ 64))%Z then None
      else Some "Integer exceeds 64-bit range"
  | PyList xs =>
      match budget with
      | O => Some "Recursion limit reached"
      | S budget => first_error (dumps_error budget) xs
      end
  | PyDict kv =>
      match budget with
      | O => Some "Recursion limit reached"
      | S budget => first_error (λ p, dumps_error budget p.2) kv
      end
  | PyObject _ => Some ("Type is not JSON serializable: " +:+ type_name v)
  end.

Definition json_serializable (v : pyval) : bool :=
  match dumps_error RECURSION_LIMIT v with
  | None => true
  | Some _ => false
  end.

Record State := mkState { _data : gmap string pyval }.

Definition ValueError (key : string) (value : pyval) (msg : string) : exn :=
  Exn "ValueError"
      ("State value for key '" +:+ key +:+ "' must be JSON-serializable. "
         +:+ "Got type: " +:+ type_name value)
      (Some (Exn "JSONEncodeError" msg None)).

Definition get (key : string) (default : pyval) (st : State) : pyval :=
  match _data st !! key with
  | Some v => v
  | None => default
  end.

Definition set (key : string) (value : pyval) (st : State) : outcome State :=
  match dumps_error RECURSION_LIMIT value with
  | None => Returned (mkState (<[key := value]> (_data st)))
  | Some msg => Raised (ValueError key value msg)
  end.

(** [clear_prefix]: collect the keys that start with the prefix, then delete
    them one by one. *)
Definition clear_prefix (prefix : string) (st : State) : State :=
  let keys_to_delete :=
    filter (λ k, PyString.startswith k prefix = true)
           (map_to_list (_data st)).*1 in
  mkState (foldl (λ data key, delete key data) (_data st) keys_to_delete).

Lemma lookup_foldl_delete (keys : list string) :
  ∀ (data : gmap string pyval) (k : string),
    foldl (λ data key, delete key data) data keys !! k
    = if decide (k ∈ keys) then None else data !! k.
Proof.
  induction keys as [|key keys IH]; intros data k; simpl.
  - done.
  - rewrite IH. destruct (decide (k ∈ keys)) as [Hin|Hout].
    + by rewrite decide_True by (by right).
    + destruct (decide (k = key)) as [->|Hne].
      * rewrite decide_True by left. apply lookup_delete_eq.
      * rewrite decide_False by (by intros [?|?]%elem_of_cons).
        by apply lookup_delete_ne.
Qed.

(** After [clear_prefix] a key that starts with the prefix is absent, and
    every other key has the value it had. *)
Lemma clear_prefix_lookup (prefix : string) (st : State) (k : string) :
  _data (clear_prefix prefix st) !! k
  = if PyString.startswith k prefix then None else _data st !! k.
Proof.
  unfold clear_prefix. cbn [_data]. rewrite lookup_foldl_delete.
  destruct (PyString.startswith k prefix) eqn:Hk.
  - case_decide as Hin; [done|].
    destruct (_data st !! k) as [v|] eqn:Hv; [|done].
    exfalso. apply Hin. apply list_elem_of_filter. split; [done|].
    apply list_elem_of_fmap. exists (k, v). split; [done|].
    by apply elem_of_map_to_list.
  - rewrite decide_False; [done|].
    intros [Hp _]%list_elem_of_filter. congruence.
Qed.

(** *** The other methods of [State] *)

(** [self._data.pop(key, None)] *)
Definition delete (key : string) (st : State) : State :=
  mkState (base.delete key (_data st)).

Definition has (key : string) (st : State) : bool :=
  bool_decide (is_Some (_data st !! key)).

Definition clear (st : State) : State := mkState ∅.

Definition get_by_prefix (prefix : string) (st : State) : gmap string pyval :=
  filter (λ kv, PyString.startswith kv.1 prefix = true) (_data st).

(** [any(k.startswith(p) for p in ["user:", "app:", "temp:"])] *)
Definition scoped (k : string) : bool :=
  existsb (PyString.startswith k) ["user:"; "app:"; "temp:"].

Definition get_session_state (st : State) : gmap string pyval :=
  filter (λ kv, scoped kv.1 = false) (_data st).

Definition get_user_state : State -> gmap string pyval := get_by_prefix "user:".
Definition get_app_state : State -> gmap string pyval := get_by_prefix "app:".
Definition get_temp_state : State -> gmap string pyval := get_by_prefix "temp:".

(** [self._data.update(other_state._data)] *)
Definition merge (other_state : State) (st : State) : State :=
  mkState (_data other_state ∪ _data st).

(** [State()], [to_dict] and [from_dict]; the class does not validate the
    dict it is given. *)
Definition empty : State := mkState ∅.
Definition to_dict (st : State) : gmap string pyval := _data st.
Definition from_dict (data : gmap string pyval) : State := mkState data.

(** [to_json] returns: [orjson.dumps(self._data)] accepts the dict. *)
Definition to_json_returns (st : State) : bool :=
  json_serializable (PyDict (map_to_list (_data st))).

(** *** The four scopes *)

Lemma prefixes_exclude (k : string) :
  (PyString.startswith k "user:" = true → PyString.startswith k "app:" = false
                                         ∧ PyString.startswith k "temp:" = false)
  ∧ (PyString.startswith k "app:" = true → PyString.startswith k "temp:" = false).
Proof.
  destruct k as [|c k]; [by split|]. cbn.
  split.
  - intros [Hc _]%andb_prop. apply bool_decide_eq_true in Hc as <-. by split.
  - intros [Hc _]%andb_prop. apply bool_decide_eq_true in Hc as <-. done.
Qed.

Lemma get_by_prefix_lookup (prefix : string) (st : State) (k : string) :
  get_by_prefix prefix st !! k
  = if PyString.startswith k prefix then _data st !! k else None.
Proof.
  unfold get_by_prefix. destruct (PyString.startswith k prefix) eqn:Hk.
  - destruct (_data st !! k) as [v|] eqn:Hv.
    + by apply map_lookup_filter_Some.
    + apply map_lookup_filter_None. left. done.
  - apply map_lookup_filter_None. right. intros v _ H. cbn [fst] in H. congruence.
Qed.

Lemma get_session_state_lookup (st : State) (k : string) :
  get_session_state st !! k = if scoped k then None else _data st !! k.
Proof.
  unfold get_session_state. destruct (scoped k) eqn:Hk.
  - apply map_lookup_filter_None. right. intros v _ H. cbn [fst] in H. congruence.
  - destruct (_data st !! k) as [v|] eqn:Hv.
    + by apply map_lookup_filter_Some.
    + apply map_lookup_filter_None. left. done.
Qed.

(** X20.  The four scope views of a state partition it: the session, user,
    app and temp views are pairwise disjoint, and together they hold every
    key of the state with its value. *)
Theorem scope_views_partition (st : State) :
  get_session_state st ∪ get_user_state st ∪ get_app_state st
    ∪ get_temp_state st = to_dict st
  ∧ get_session_state st ##ₘ get_user_state st
  ∧ get_session_state st ##ₘ get_app_state st
  ∧ get_session_state st ##ₘ get_temp_state st
  ∧ get_user_state st ##ₘ get_app_state st
  ∧ get_user_state st ##ₘ get_temp_state st
  ∧ get_app_state st ##ₘ get_temp_state st.
Proof.
  assert (Hview : ∀ k,
            (get_session_state st !! k, get_user_state st !! k,
             get_app_state st !! k, get_temp_state st !! k)
            = if PyString.startswith k "user:"
              then (None, _data st !! k, None, None)
              else if PyString.startswith k "app:"
              then (None, None, _data st !! k, None)
              else if PyString.startswith k "temp:"
              then (None, None, None, _data st !! k)
              else (_data st !! k, None, None, None)).
  { intros k. unfold get_user_state, get_app_state, get_temp_state.
    rewrite get_session_state_lookup, !get_by_prefix_lookup.
    unfold scoped. cbn [existsb].
    destruct (prefixes_exclude k) as [Hu Ha].
    destruct (PyString.startswith k "user:") eqn:Hku.
    { destruct (Hu eq_refl) as [-> ->]. done. }
    destruct (PyString.startswith k "app:") eqn:Hka.
    { rewrite (Ha eq_refl). done. }
    by destruct (PyString.startswith k "temp:"). }
  assert (Hdisj : ∀ (a b : gmap string pyval),
            (∀ k, a !! k = None ∨ b !! k = None) → a ##ₘ b).
  { intros a b H. apply map_disjoint_spec. intros k x y Ha Hb.
    destruct (H k); congruence. }
  split.
  - apply map_eq. intros k. specialize (Hview k).
    rewrite !lookup_union. unfold to_dict.
    repeat match type of Hview with
           | context [if ?b then _ else _] => destruct b
           end;
      injection Hview as H1 H2 H3 H4; rewrite H1, H2, H3, H4;
      by destruct (_data st !! k).
  - repeat split; apply Hdisj; intros k; specialize (Hview k);
      repeat match type of Hview with
             | context [if ?b then _ else _] => destruct b
             end;
      injection Hview as H1 H2 H3 H4; rewrite ?H1, ?H2, ?H3, ?H4; auto.
Qed.

(** [set] stores a value that [orjson.dumps] accepts. *)
Lemma set_returns (key : string) (value : pyval) (st : State) :
  json_serializable value = true →
  set key value st = Returned (mkState (<[key := value]> (_data st))).
Proof.
  unfold json_serializable, set. intros Hjson.
  destruct (dumps_error RECURSION_LIMIT value) as [msg|].
  - discriminate Hjson.
  - reflexivity.
Qed.

(** *** What a state can hold *)

(** The states that the methods of the class build from the empty state.
    Values are immutable here: a list or dict that its owner changes after
    storing it is not covered. *)
Inductive built : State -> Prop :=
| built_empty : built empty
| built_set key value st st' :
    built st → set key value st = Returned st' → built st'
| built_delete key st : built st → built (delete key st)
| built_clear st : built st → built (clear st)
| built_clear_prefix prefix st : built st → built (clear_prefix prefix st)
| built_merge other_state st :
    built st → built other_state → built (merge other_state st).

(** The number of lists and dicts around the innermost value. *)
Fixpoint nesting (v : pyval) : nat :=
  match v with
  | PyList xs => S (foldr (λ x n, Nat.max (nesting x) n) 0%nat xs)
  | PyDict kv => S (foldr (λ p n, Nat.max (nesting p.2) n) 0%nat kv)
  | _ => 0%nat
  end.

Lemma pyval_nested_ind (P : pyval -> Prop) :
  P PyNone → (∀ b, P (PyBool b)) → (∀ z, P (PyInt z)) → (∀ q, P (PyFloat q)) →
  (∀ s, P (PyStr s)) →
  (∀ xs, Forall P xs → P (PyList xs)) →
  (∀ kv, Forall (λ p, P p.2) kv → P (PyDict kv)) →
  (∀ tag, P (PyObject tag)) →
  ∀ v, P v.
Proof.
  intros Hnone Hbool Hint Hfloat Hstr Hlist Hdict Hobj.
  fix IH 1. intros [|b|z|q|s|xs|kv|tag].
  - apply Hnone.
  - apply Hbool.
  - apply Hint.
  - apply Hfloat.
  - apply Hstr.
  - apply Hlist. induction xs as [|x xs IHxs]; constructor; [apply IH|exact IHxs].
  - apply Hdict. induction kv as [|[k x] kv IHkv]; constructor;
      [apply IH|exact IHkv].
  - apply Hobj.
Qed.

Lemma first_error_None {A} (f : A -> option string) (xs : list A) :
  first_error f xs = None ↔ Forall (λ x, f x = None) xs.
Proof.
  unfold first_error. induction xs as [|x xs IH]; cbn [foldr].
  - split; [constructor|reflexivity].
  - rewrite Forall_cons. destruct (f x) as [msg|].
    + split; [discriminate|]. intros [H _]. discriminate H.
    + rewrite IH. split; [by split|by intros [_ ?]].
Qed.

Lemma foldr_max_le {A} (f : A -> nat) (xs : list A) (b : nat) :
  (foldr (λ x n, Nat.max (f x) n) 0 xs ≤ b)%nat ↔ Forall (λ x, f x ≤ b)%nat xs.
Proof.
  induction xs as [|x xs IH]; cbn [foldr].
  - split; [constructor|lia].
  - rewrite Forall_cons, <- IH. lia.
Qed.

(** A value is accepted within a budget exactly when it is accepted within
    the budget that its nesting asks for, and that is not more. *)
Lemma dumps_error_nesting (v : pyval) :
  ∀ n, dumps_error n v = None → (nesting v ≤ n)%nat.
Proof.
  induction v as [|?|?|?|?|xs IH|kv IH|?] using pyval_nested_ind;
    intros n Hb; cbn [nesting]; try lia.
  - destruct n as [|n]; [discriminate Hb|]. cbn [dumps_error] in Hb.
    apply first_error_None in Hb. apply le_n_S, foldr_max_le.
    rewrite Forall_forall in *. intros x Hx. by apply (IH x Hx), Hb.
  - destruct n as [|n]; [discriminate Hb|]. cbn [dumps_error] in Hb.
    apply first_error_None in Hb. apply le_n_S, foldr_max_le.
    rewrite Forall_forall in *. intros x Hx. by apply (IH x Hx), Hb.
Qed.

Lemma dumps_error_budget (v : pyval) :
  ∀ n n', dumps_error n v = None → (nesting v ≤ n')%nat →
           dumps_error n' v = None.
Proof.
  induction v as [|?|?|?|?|xs IH|kv IH|?] using pyval_nested_ind;
    intros n n' Hb Hn; try exact Hb.
  - cbn [nesting] in Hn. destruct n as [|n]; [discriminate Hb|].
    destruct n' as [|n']; [lia|]. cbn [dumps_error] in *.
    apply first_error_None in Hb. apply first_error_None.
    apply le_S_n, foldr_max_le in Hn. rewrite Forall_forall in *.
    intros x Hx. apply (IH x Hx n); [by apply Hb|by apply Hn].
  - cbn [nesting] in Hn. destruct n as [|n]; [discriminate Hb|].
    destruct n' as [|n']; [lia|]. cbn [dumps_error] in *.
    apply first_error_None in Hb. apply first_error_None.
    apply le_S_n, foldr_max_le in Hn. rewrite Forall_forall in *.
    intros x Hx. apply (IH x Hx n); [by apply Hb|by apply Hn].
Qed.

Lemma built_values (st : State) :
  built st → map_Forall (λ _ v, dumps_error RECURSION_LIMIT v = None) (_data st).
Proof.
  intros Hbuilt.
  induction Hbuilt as [|key value st st' _ IH Hset|key st _ IH|st _ IH
                      |prefix st _ IH|other st _ IH _ IHother].
  - apply map_Forall_empty.
  - unfold set in Hset.
    destruct (dumps_error RECURSION_LIMIT value) as [msg|] eqn:Hv;
      [discriminate Hset|].
    injection Hset as <-. cbn [_data]. by apply map_Forall_insert_2.
  - cbn [delete _data]. by apply map_Forall_delete.
  - apply map_Forall_empty.
  - intros k v Hk. rewrite clear_prefix_lookup in Hk.
    destruct (PyString.startswith k prefix); [discriminate Hk|]. by apply (IH k).
  - cbn [merge _data]. intros k v Hk.
    apply lookup_union_Some_raw in Hk as [Hk|[_ Hk]].
    + by apply (IHother k).
    + by apply (IH k).
Qed.

(** [to_json] serializes the dict that holds the values, which puts every
    value one level deeper than [set] has checked it. *)
Lemma to_json_returns_budget (st : State) :
  to_json_returns st = true
  ↔ map_Forall (λ _ v, dumps_error (pred RECURSION_LIMIT) v = None) (_data st).
Proof.
  unfold to_json_returns, json_serializable.
  change (dumps_error RECURSION_LIMIT (PyDict (map_to_list (_data st))))
    with (first_error (λ p, dumps_error (pred RECURSION_LIMIT) p.2)
                      (map_to_list (_data st))).
  rewrite map_Forall_to_list.
  destruct (first_error _ _) as [msg|] eqn:Hfirst.
  - split; [discriminate|]. intros Hall. exfalso.
    assert (Hnone : first_error (λ p : string * pyval,
                                   dumps_error (pred RECURSION_LIMIT) p.2)
                                (map_to_list (_data st)) = None).
    { apply first_error_None. eapply Forall_impl; [exact Hall|].
      intros [k v] H. exact H. }
    rewrite Hnone in Hfirst. discriminate Hfirst.
  - split; [|reflexivity]. intros _. apply first_error_None in Hfirst.
    eapply Forall_impl; [exact Hfirst|]. intros [k v] H. exact H.
Qed.

(** X21.  In a state built from the empty state with [set], [delete],
    [clear], [clear_prefix] and [merge], every value is one that
    [orjson.dumps] accepts on its own; [to_json] returns on the state exactly
    when no value is nested as deep as orjson's recursion limit, the dict of
    the state being one level more. *)
Theorem built_state_is_serializable (st : State) :
  built st →
  map_Forall (λ _ v, json_serializable v = true) (_data st)
  ∧ (to_json_returns st = true
     ↔ map_Forall (λ _ v, nesting v < RECURSION_LIMIT)%nat (_data st)).
Proof.
  intros Hbuilt. pose proof (built_values st Hbuilt) as Hvalues. split.
  - intros k v Hk. unfold json_serializable. by rewrite (Hvalues k v Hk).
  - rewrite to_json_returns_budget. split; intros Hall k v Hk.
    + specialize (Hall k v Hk). cbn beta in Hall.
      apply dumps_error_nesting in Hall.
      unfold RECURSION_LIMIT in *. cbn [pred] in Hall. lia.
    + apply (dumps_error_budget v RECURSION_LIMIT); [by apply (Hvalues k)|].
      specialize (Hall k v Hk). cbn beta in Hall.
      unfold RECURSION_LIMIT in *. cbn [pred]. lia.
Qed.

(** A list in a list in a list, and so on, [n] lists in all around 1. *)
Definition nested_list (n : nat) : pyval := Nat.iter n (λ v, PyList [v]) (PyInt 1).

(** [set] takes a value that is nested 255 deep, and [to_json] then raises;
    one level more and [set] raises. *)
Example set_accepts_what_to_json_refuses :
  (∃ st, set "tree" (nested_list 255) empty = Returned st
         ∧ to_json_returns st = false)
  ∧ (∃ st, set "tree" (nested_list 254) empty = Returned st
           ∧ to_json_returns st = true)
  ∧ set "tree" (nested_list 256) empty
    = Raised (ValueError "tree" (nested_list 256) "Recursion limit reached")
  ∧ exn_str (ValueError "tree" (nested_list 256) "Recursion limit reached")
    = "State value for key 'tree' must be JSON-serializable. Got type: list".
Proof.
  split; [eexists; split; [vm_compute; reflexivity|vm_compute; reflexivity]|].
  split; [eexists; split; [vm_compute; reflexivity|vm_compute; reflexivity]|].
  split; vm_compute; reflexivity.
Qed.

Lemma built_state_is_serializable_witness :
  built (mkState (<["tree" := nested_list 255]> (<["user:lang" := PyStr "pt"]> ∅)))
  ∧ json_serializable (nested_list 255) = true
  ∧ (to_json_returns
       (mkState (<["tree" := nested_list 255]> (<["user:lang" := PyStr "pt"]> ∅)))
     = true
     ↔ map_Forall (λ _ v, nesting v < RECURSION_LIMIT)%nat
         (_data (mkState (<["tree" := nested_list 255]>
                            (<["user:lang" := PyStr "pt"]> ∅))))).
Proof.
  assert (H : built (mkState (<["tree" := nested_list 255]>
                                (<["user:lang" := PyStr "pt"]> ∅)))).
  { apply (built_set "tree" (nested_list 255)
             (mkState (<["user:lang" := PyStr "pt"]> ∅)));
      [|vm_compute; reflexivity].
    apply (built_set "user:lang" (PyStr "pt") empty); [|vm_compute; reflexivity].
    apply built_empty. }
  split; [exact H|]. split; [vm_compute; reflexivity|].
  exact (proj2 (built_state_is_serializable _ H)).
Defined.


End State.

(** ** state/state.py: StateTemplate *)

Module StateTemplate.

Local Open Scope nat_scope.

(** The class [[a-zA-Z0-9_:]] of the pattern. *)
Definition key_char (c : ascii) : bool :=
  let n := nat_of_ascii c in
  ((97 <=? n) && (n <=? 122)) || ((65 <=? n) && (n <=? 90))
  || ((48 <=? n) && (n <=? 57)) || (n =? 95) || (n =? 58).

(** The longest run of key characters at the head of a string, and what
    follows it. *)
Fixpoint key_run (s : string) : string * string :=
  match s with
  | String c s' =>
      if key_char c then let '(key, rest) := key_run s' in (String c key, rest)
      else ("", s)
  | EmptyString => ("", "")
  end.

(** A match of the pattern [\{([a-zA-Z0-9_:]+)(\?)?\}] at the head of a
    string: group 1, and whether group 2 took part.  The run of key
    characters that matches is the longest one, since a shorter one is
    followed by a key character, which is neither "?" nor "}". *)
Definition match_here (s : string) : option (string * bool) :=
  match s with
  | String "{" s1 =>
      match key_run s1 with
      | (EmptyString, _) => None
      | (key, String "?" (String "}" _)) => Some (key, true)
      | (key, String "}" _) => Some (key, false)
      | _ => None
      end
  | _ => None
  end.

(** A template is read from left to right as its matches, which do not
    overlap, and the characters between them. *)
Inductive piece :=
| Text (c : ascii)
| Placeholder (key : string) (optional : bool).

(** [skip] is the number of characters still covered by the match found
    last. *)
Fixpoint scan (s : string) (skip : nat) : list piece :=
  match s with
  | EmptyString => []
  | String c s' =>
      match skip with
      | S skip => scan s' skip
      | O =>
          match match_here s with
          | Some (key, optional) =>
              Placeholder key optional
                :: scan s' (String.length key + (if optional then 2 else 1))
          | None => Text c :: scan s' 0
          end
      end
  end.

Definition pieces (template : string) : list piece := scan template 0.

(** [extract_keys]: [re.findall] gives the two groups of every match. *)
Definition extract_keys (template : string) : list (string * bool) :=
  omap (λ p, match p with
             | Placeholder key optional => Some (key, optional)
             | Text _ => None
             end)
       (pieces template).

Definition KeyError (key : string) : exn :=
  Exn "KeyError"
      ("Required state key '" +:+ key
         +:+ "' not found. Use {key?} for optional keys.")
      None.

Section Render.

(** Python's [str], applied to the values of the state. *)
Variable str : pyval -> string.

(** [replacer], the function that [re.sub] calls on every match, from left
    to right. *)
Definition replacer (st : State.State) (key : string) (optional : bool)
    : outcome string :=
  if State.has key st then Returned (str (State.get key PyNone st))
  else if optional then Returned ""
  else Raised (KeyError key).

Fixpoint substitute (st : State.State) (ps : list piece) : outcome string :=
  match ps with
  | [] => Returned ""
  | Text c :: ps =>
      match substitute st ps with
      | Returned out => Returned (String c out)
      | Raised e => Raised e
      end
  | Placeholder key optional :: ps =>
      match replacer st key optional with
      | Raised e => Raised e
      | Returned value =>
          match substitute st ps with
          | Returned out => Returned (value +:+ out)
          | Raised e => Raised e
          end
      end
  end.

Definition render (template : string) (st : State.State) : outcome string :=
  substitute st (pieces template).

(** *** Which templates render *)

(** A key that the template requires and the state lacks. *)
Definition missing (st : State.State) (entry : string * bool) : Prop :=
  entry.2 = false ∧ State.has entry.1 st = false.

#[local] Instance missing_dec st entry : Decision (missing st entry).
Proof. unfold missing. apply _. Defined.

Definition keys_of (ps : list piece) : list (string * bool) :=
  omap (λ p, match p with
             | Placeholder key optional => Some (key, optional)
             | Text _ => None
             end) ps.

Lemma substitute_first_missing (st : State.State) (ps : list piece) :
  match list_find (missing st) (keys_of ps) with
  | Some (_, (key, _)) => substitute st ps = Raised (KeyError key)
  | None => ∃ out, substitute st ps = Returned out
  end.
Proof.
  induction ps as [|[c|key optional] ps IH]; cbn [substitute].
  - cbn. by eexists.
  - change (keys_of (Text c :: ps)) with (keys_of ps).
    destruct (list_find (missing st) (keys_of ps)) as [[i [k o]]|].
    + by rewrite IH.
    + destruct IH as [out ->]. by eexists.
  - change (keys_of (Placeholder key optional :: ps))
      with ((key, optional) :: keys_of ps).
    cbn [list_find]. unfold replacer.
    destruct (decide (missing st (key, optional))) as [[Ho Hh]|Hpresent].
    + cbn in Ho, Hh. subst optional. cbn. by rewrite Hh.
    + assert (∃ value, (if State.has key st
                         then Returned (str (State.get key PyNone st))
                         else if optional then Returned ""
                              else Raised (KeyError key)) = Returned value)
        as [value ->].
      { unfold missing in Hpresent. cbn in Hpresent.
        destruct (State.has key st); [by eexists|].
        destruct optional; [by eexists|]. by destruct Hpresent. }
      destruct (list_find (missing st) (keys_of ps)) as [[i [k o]]|]; cbn.
      * by rewrite IH.
      * destruct IH as [out ->]. by eexists.
Qed.

Lemma substitute_text (st : State.State) (ps : list piece) :
  keys_of ps = [] →
  substitute st ps
  = Returned (String.string_of_list_ascii
                (omap (λ p, match p with Text c => Some c | _ => None end) ps)).
Proof.
  induction ps as [|[c|key optional] ps IH]; [done| |done].
  change (keys_of (Text c :: ps)) with (keys_of ps).
  intros Hk. cbn. by rewrite IH.
Qed.

Lemma scan_text (s : string) :
  keys_of (scan s 0) = [] →
  omap (λ p, match p with Text c => Some c | _ => None end) (scan s 0)
  = String.list_ascii_of_string s.
Proof.
  induction s as [|c s IH]; [done|]. cbn [scan].
  destruct (match_here (String c s)) as [[key optional]|]; [done|].
  change (keys_of (Text c :: scan s 0)) with (keys_of (scan s 0)).
  intros Hk. cbn. by rewrite IH.
Qed.

(** X28.  [render] raises KeyError for the first key, in the order of
    [extract_keys], that the template requires (no "?") and the state lacks,
    and returns a string when there is no such key; a template in which
    [extract_keys] finds no key is returned as it is. *)
Theorem render_raises_for_first_missing_required_key
    (template : string) (st : State.State) :
  match list_find (missing st) (extract_keys template) with
  | Some (_, (key, _)) => render template st = Raised (KeyError key)
  | None => ∃ out, render template st = Returned out
  end
  ∧ (extract_keys template = [] → render template st = Returned template).
Proof.
  split.
  - apply substitute_first_missing.
  - intros Hnone. unfold render, pieces.
    rewrite substitute_text by done.
    rewrite scan_text by done.
    by rewrite String.string_of_list_ascii_of_string.
Qed.

End Render.

(** Rendering with a [str] that is right on strings. *)
Definition str_of_text (v : pyval) : string :=
  match v with
  | PyStr s => s
  | _ => "?"
  end.

Definition topic_state : State.State :=
  State.mkState (<["topic" := PyStr "AI"]> (<["user:style" := PyStr "formal"]> ∅)).

Example render_examples :
  render str_of_text "Write about {topic} in {user:style} style{tone?}."
         topic_state
  = Returned "Write about AI in formal style."
  ∧ render str_of_text "{{topic}} {topic?x} {} {topic" topic_state
    = Returned "{AI} {topic?x} {} {topic"
  ∧ render str_of_text "{tone?} {tone} {mood}" topic_state
    = Raised (KeyError "tone")
  ∧ extract_keys "Hello {name}, topic: {topic?} {a{b}c}"
    = [("name", false); ("topic", true); ("b", false)].
Proof. vm_compute. repeat split. Qed.

End StateTemplate.


(** ** session/session.py *)

Module Session.

Local Open Scope Z_scope.

Section Session.

(** The event and artifact classes are imported from other modules; a
    session only stores their instances. *)
Variables DomainEvent Artifact : Type.

Record SessionMetadata := mkSessionMetadata {
  user_id : option string;
  app_name : string;
  tags : list string;
  custom_fields : gmap string pyval
}.

Record Session := mkSession {
  id : N;
  metadata : SessionMetadata;
  state : State.State;
  events : list DomainEvent;
  artifacts : list Artifact;
  created_at : Z;
  updated_at : Z;
  is_active : bool
}.

Definition with_state (st : State.State) (s : Session) : Session :=
  mkSession (id s) (metadata s) st (events s) (artifacts s)
            (created_at s) (updated_at s) (is_active s).
Definition with_events (es : list DomainEvent) (s : Session) : Session :=
  mkSession (id s) (metadata s) (state s) es (artifacts s)
            (created_at s) (updated_at s) (is_active s).
Definition with_artifacts (ars : list Artifact) (s : Session) : Session :=
  mkSession (id s) (metadata s) (state s) (events s) ars
            (created_at s) (updated_at s) (is_active s).
Definition with_updated_at (t : Z) (s : Session) : Session :=
  mkSession (id s) (metadata s) (state s) (events s) (artifacts s)
            (created_at s) t (is_active s).

(** [self.updated_at = datetime.utcnow()] *)
Definition touch (s : Session) (clk : Clock) : Session * Clock :=
  let '(now, clk) := utcnow clk in (with_updated_at now s, clk).

Definition add_event (event : DomainEvent) (s : Session) (clk : Clock)
    : Session * Clock :=
  touch (with_events (events s ++ [event]) s) clk.

Definition add_artifact (artifact : Artifact) (s : Session) (clk : Clock)
    : Session * Clock :=
  touch (with_artifacts (artifacts s ++ [artifact]) s) clk.

(** The setters: the session and the clock after the call, and the
    exception if [State.set] raised (the statement after it is then not
    reached). *)
Definition set_state (key : string) (value : pyval) (s : Session) (clk : Clock)
    : Session * Clock * option exn :=
  match State.set key value (state s) with
  | Raised e => (s, clk, Some e)
  | Returned st => let '(s, clk) := touch (with_state st s) clk in (s, clk, None)
  end.

Definition set_user_state (key : string) (value : pyval) (s : Session)
    (clk : Clock) : Session * Clock * option exn :=
  match State.set ("user:" +:+ key) value (state s) with
  | Raised e => (s, clk, Some e)
  | Returned st => let '(s, clk) := touch (with_state st s) clk in (s, clk, None)
  end.

Definition set_app_state (key : string) (value : pyval) (s : Session)
    (clk : Clock) : Session * Clock * option exn :=
  match State.set ("app:" +:+ key) value (state s) with
  | Raised e => (s, clk, Some e)
  | Returned st => let '(s, clk) := touch (with_state st s) clk in (s, clk, None)
  end.

Definition set_temp_state (key : string) (value : pyval) (s : Session)
    (clk : Clock) : Session * Clock * option exn :=
  match State.set ("temp:" +:+ key) value (state s) with
  | Raised e => (s, clk, Some e)
  | Returned st => (with_state st s, clk, None)
  end.

Definition get_temp_state (key : string) (default : pyval) (s : Session) : pyval :=
  State.get ("temp:" +:+ key) default (state s).

Definition clear_temp_state (s : Session) : Session :=
  with_state (State.clear_prefix "temp:" (state s)) s.

(** C5, amended.  With a value that [orjson.dumps] accepts: setting a
    temp-scoped key leaves [updated_at] as it was and does not read the
    clock, while setting a session-, user- or app-scoped key, appending an
    event and appending an artifact set [updated_at] to the reading of the
    clock, whatever it held; and [clear_temp_state] removes exactly the keys
    that start with "temp:", every other key keeping its value. *)
Theorem temp_state_leaves_updated_at
    (s : Session) (clk : Clock) (key : string) (value : pyval)
    (event : DomainEvent) (artifact : Artifact) :
  State.json_serializable value = true →
  let now := readings clk (position clk) in
  (let r := set_temp_state key value s clk in
   r.2 = None ∧ updated_at r.1.1 = updated_at s ∧ r.1.2 = clk ∧
   get_temp_state key PyNone r.1.1 = value)
  ∧ (let r := set_state key value s clk in
     r.2 = None ∧ updated_at r.1.1 = now ∧
     State.get key PyNone (state r.1.1) = value)
  ∧ (let r := set_user_state key value s clk in
     r.2 = None ∧ updated_at r.1.1 = now ∧
     State.get ("user:" +:+ key) PyNone (state r.1.1) = value)
  ∧ (let r := set_app_state key value s clk in
     r.2 = None ∧ updated_at r.1.1 = now ∧
     State.get ("app:" +:+ key) PyNone (state r.1.1) = value)
  ∧ (let r := add_event event s clk in
     updated_at r.1 = now ∧ events r.1 = events s ++ [event])
  ∧ (let r := add_artifact artifact s clk in
     updated_at r.1 = now ∧ artifacts r.1 = artifacts s ++ [artifact])
  ∧ (∀ k, State._data (state (clear_temp_state s)) !! k
          = if PyString.startswith k "temp:" then None
            else State._data (state s) !! k).
Proof.
  intros Hjson now.
  assert (Hset : ∀ k, State.set k value (state s)
                      = Returned (State.mkState (<[k := value]> (State._data (state s)))))
    by (intros k; by apply State.set_returns).
  assert (Hget : ∀ k, State.get k PyNone
                        (State.mkState (<[k := value]> (State._data (state s))))
                      = value)
    by (intros k; unfold State.get; cbn; by rewrite lookup_insert_eq).
  unfold set_temp_state, set_state, set_user_state, set_app_state,
    add_event, add_artifact, get_temp_state, touch, utcnow.
  rewrite !Hset. cbn.
  repeat split; try done; try apply Hget.
  intros k. apply State.clear_prefix_lookup.
Qed.

End Session.

(** A session with one temp-scoped and one session-scoped key, last updated
    at 100, on a clock that reads 250. *)
Definition demo_session : Session unit unit :=
  mkSession unit unit 7 (mkSessionMetadata None "demo" [] ∅)
            (State.mkState (<["temp:draft" := PyStr "x"]> (<["intent" := PyStr "buy"]> ∅)))
            [] [] 100 100 true.
Definition demo_clock : Clock := mkClock (fun _ => 250) 0.

Example demo_clear_temp_state :
  State._data (state unit unit (clear_temp_state unit unit demo_session))
  = <["intent" := PyStr "buy"]> ∅.
Proof. vm_compute. reflexivity. Qed.

Example demo_set_state_rejects_objects :
  let r := set_state unit unit "handle" (PyObject 0) demo_session demo_clock in
  exn_class <$> r.2 = Some "ValueError"
  ∧ updated_at unit unit r.1.1 = 100 ∧ position r.1.2 = 0%nat.
Proof. vm_compute. repeat split. Qed.

(** A clock that reads what [demo_session] holds as [updated_at], and one
    that has been set back. *)
Definition same_reading : Clock := mkClock (fun _ => 100) 0.
Definition set_back : Clock := mkClock (fun _ => 40) 0.

(** C5, as stated, fails.  The setters, [add_event] and [add_artifact]
    assign the reading of the clock without comparing it with the value
    held: on a clock that reads what [updated_at] holds they leave it as it
    is, and on a clock that has been set back they move it back.  Neither
    advances it. *)
Lemma updated_at_follows_the_clock :
  updated_at unit unit demo_session = 100
  ∧ State.json_serializable (PyInt 3) = true
  ∧ (set_state unit unit "n" (PyInt 3) demo_session same_reading).2 = None
  ∧ updated_at unit unit
      (set_state unit unit "n" (PyInt 3) demo_session same_reading).1.1 = 100
  ∧ updated_at unit unit
      (set_user_state unit unit "n" (PyInt 3) demo_session same_reading).1.1
    = 100
  ∧ updated_at unit unit
      (set_app_state unit unit "n" (PyInt 3) demo_session same_reading).1.1
    = 100
  ∧ updated_at unit unit (add_event unit unit tt demo_session same_reading).1
    = 100
  ∧ updated_at unit unit (add_artifact unit unit tt demo_session same_reading).1
    = 100
  ∧ ¬ (updated_at unit unit demo_session
       < updated_at unit unit
           (set_state unit unit "n" (PyInt 3) demo_session same_reading).1.1)
  ∧ updated_at unit unit
      (set_state unit unit "n" (PyInt 3) demo_session set_back).1.1 = 40
  ∧ updated_at unit unit (add_event unit unit tt demo_session set_back).1 = 40.
Proof. vm_compute. repeat split; intros H; discriminate H. Qed.

Lemma temp_state_leaves_updated_at_witness :
  State.json_serializable (PyInt 3) = true ∧
  updated_at unit unit
    (set_temp_state unit unit "n" (PyInt 3) demo_session demo_clock).1.1 = 100 ∧
  updated_at unit unit
    (set_state unit unit "n" (PyInt 3) demo_session demo_clock).1.1 = 250.
Proof.
  assert (H1 : State.json_serializable (PyInt 3) = true) by (vm_compute; reflexivity).
  split; [exact H1|].
  pose proof (temp_state_leaves_updated_at unit unit demo_session demo_clock
                "n" (PyInt 3) tt tt H1) as (Htemp & Hsess & _).
  cbv zeta in Htemp, Hsess.
  destruct Htemp as (_ & Htemp & _). destruct Hsess as (_ & Hsess & _).
  split; [exact Htemp|exact Hsess].
Defined.

End Session.

(** ** session/session_service.py: InMemorySessionService *)

Module SessionService.

Local Open Scope Z_scope.

Section SessionService.

Variables DomainEvent Artifact : Type.

#[warnings="-notation-for-abbreviation"]
Local Notation Session := (Session.Session DomainEvent Artifact).
#[warnings="-notation-for-abbreviation"]
Local Notation id := (Session.id DomainEvent Artifact).
#[warnings="-notation-for-abbreviation"]
Local Notation metadata := (Session.metadata DomainEvent Artifact).
#[warnings="-notation-for-abbreviation"]
Local Notation updated_at := (Session.updated_at DomainEvent Artifact).
#[warnings="-notation-for-abbreviation"]
Local Notation is_active := (Session.is_active DomainEvent Artifact).

(** The dict [_sessions], keyed by session id, in insertion order.  It
    holds the session objects; the model holds the value that a session has
    when it is stored, so it describes the service between two changes made
    to a stored session. *)
Fixpoint dict_set (d : list (N * Session)) (key : N) (s : Session)
    : list (N * Session) :=
  match d with
  | [] => [(key, s)]
  | (k, s') :: d =>
      if decide (k = key) then (key, s) :: d else (k, s') :: dict_set d key s
  end.

Fixpoint dict_get (d : list (N * Session)) (key : N) : option Session :=
  match d with
  | [] => None
  | (k, s) :: d => if decide (k = key) then Some s else dict_get d key
  end.

Fixpoint dict_del (d : list (N * Session)) (key : N) : list (N * Session) :=
  match d with
  | [] => []
  | (k, s) :: d => if decide (k = key) then d else (k, s) :: dict_del d key
  end.

Record InMemorySessionService := mkService {
  _sessions : list (N * Session)
}.

Definition new : InMemorySessionService := mkService [].

(** [create_session]; [uuid4] is the identifier that the default factory of
    [Session.id] draws, and the two timestamps are two readings of the
    clock. *)
Definition create_session (svc : InMemorySessionService) (uuid4 : N)
    (clk : Clock) (user_id : option string) (app_name : string)
    (tags : option (list string))
    : Session * InMemorySessionService * Clock :=
  let metadata := Session.mkSessionMetadata user_id app_name (default [] tags) ∅ in
  let '(created, clk) := utcnow clk in
  let '(updated, clk) := utcnow clk in
  let session :=
    Session.mkSession DomainEvent Artifact uuid4 metadata (State.mkState ∅)
                      [] [] created updated true in
  (session, mkService (dict_set (_sessions svc) (id session) session), clk).

Definition get_session (session_id : N) (svc : InMemorySessionService)
    : option Session :=
  dict_get (_sessions svc) session_id.

Definition update_session (session : Session) (svc : InMemorySessionService)
    : InMemorySessionService :=
  mkService (dict_set (_sessions svc) (id session) session).

Definition delete_session (session_id : N) (svc : InMemorySessionService)
    : bool * InMemorySessionService :=
  match dict_get (_sessions svc) session_id with
  | Some _ => (true, mkService (dict_del (_sessions svc) session_id))
  | None => (false, svc)
  end.

(** [sessions.sort(key=lambda s: s.updated_at, reverse=True)]: the sort is
    stable, also in reverse, so that sessions with equal keys keep their
    order. *)
Fixpoint insert_desc (s : Session) (sorted : list Session) : list Session :=
  match sorted with
  | [] => [s]
  | s' :: rest =>
      if updated_at s <? updated_at s' then s' :: insert_desc s rest
      else s :: s' :: rest
  end.

Definition sort_desc (sessions : list Session) : list Session :=
  foldr insert_desc [] sessions.

(** [l[start:stop]]: a negative index counts from the end, and both are
    clamped to the list. *)
Definition slice_index (n i : Z) : Z :=
  if i <? 0 then Z.max (i + n) 0 else Z.min i n.

Definition slice {A} (l : list A) (start stop : Z) : list A :=
  let n := Z.of_nat (length l) in
  let a := slice_index n start in
  let b := slice_index n stop in
  take (Z.to_nat (b - a)) (drop (Z.to_nat a) l).

(** The three filters of [list_sessions]; a [user_id] or [app_name] that is
    [None] or empty does not filter. *)
Definition filtered (svc : InMemorySessionService)
    (user_id app_name : option string) (active : option bool) : list Session :=
  let sessions := (_sessions svc).*2 in
  let sessions :=
    match user_id with
    | Some (String c u) =>
        filter (λ s, Session.user_id (metadata s) = Some (String c u)) sessions
    | _ => sessions
    end in
  let sessions :=
    match app_name with
    | Some (String c a) =>
        filter (λ s, Session.app_name (metadata s) = String c a) sessions
    | _ => sessions
    end in
  match active with
  | Some b => filter (λ s, is_active s = b) sessions
  | None => sessions
  end.

Definition list_sessions (svc : InMemorySessionService)
    (user_id app_name : option string) (active : option bool)
    (limit offset : Z) : list Session :=
  let sessions := sort_desc (filtered svc user_id app_name active) in
  slice sessions offset (offset + limit).

Definition get_user_sessions (svc : InMemorySessionService) (user_id : string)
    (app_name : option string) (limit : Z) : list Session :=
  list_sessions svc (Some user_id) app_name None limit 0.

Definition clear_all (svc : InMemorySessionService) : InMemorySessionService :=
  mkService [].

Definition count (svc : InMemorySessionService) : nat := length (_sessions svc).

(** *** Storing and finding sessions *)

Lemma stored_get_set (d : list (N * Session)) (key k : N) (s : Session) :
  dict_get (dict_set d key s) k
  = if decide (k = key) then Some s else dict_get d k.
Proof.
  induction d as [|[k' s'] d IH]; cbn.
  - repeat case_decide; congruence.
  - repeat (case_decide; cbn); congruence.
Qed.

Lemma dict_get_None (d : list (N * Session)) (key : N) :
  dict_get d key = None ↔ key ∉ d.*1.
Proof.
  induction d as [|[k s] d IH]; cbn.
  - split; [intros _ ?%elem_of_nil|]; done.
  - case_decide as Hk.
    + subst. split; [done|]. intros H. destruct H. left.
    + rewrite IH. split.
      * intros Hn [?|?]%elem_of_cons; congruence.
      * intros Hn Hin. apply Hn. by right.
Qed.

Lemma dict_del_set (d : list (N * Session)) (key : N) (s : Session) :
  key ∉ d.*1 → dict_del (dict_set d key s) key = d.
Proof.
  induction d as [|[k s'] d IH]; intros Hfresh; cbn.
  - by rewrite decide_True.
  - apply not_elem_of_cons in Hfresh as [Hne Hfresh]. cbn in Hne.
    rewrite decide_False by congruence. cbn.
    rewrite decide_False by congruence. by rewrite IH.
Qed.

Lemma length_dict_set (d : list (N * Session)) (key : N) (s : Session) :
  key ∉ d.*1 → length (dict_set d key s) = S (length d).
Proof.
  induction d as [|[k s'] d IH]; intros Hfresh; cbn; [done|].
  apply not_elem_of_cons in Hfresh as [Hne Hfresh]. cbn in Hne.
  rewrite decide_False by congruence. cbn. by rewrite IH.
Qed.

(** X22.  Creating a session under an identifier that the service does not
    hold stores it: [get_session] finds the session that [create_session]
    returned, which is active, has an empty state and the metadata given;
    the sessions under the other identifiers are as they were and one more
    session is counted.  Deleting it answers True and leaves the service as
    it was before the creation, and deleting it once more answers False. *)
Theorem created_session_is_stored_until_deleted
    (svc : InMemorySessionService) (uuid4 : N) (clk : Clock)
    (user_id : option string) (app_name : string)
    (tags : option (list string)) :
  get_session uuid4 svc = None →
  ∃ s svc1 clk1,
    create_session svc uuid4 clk user_id app_name tags = (s, svc1, clk1)
    ∧ id s = uuid4 ∧ is_active s = true
    ∧ Session.state DomainEvent Artifact s = State.mkState ∅
    ∧ metadata s = Session.mkSessionMetadata user_id app_name (default [] tags) ∅
    ∧ get_session uuid4 svc1 = Some s
    ∧ (∀ k, k ≠ uuid4 → get_session k svc1 = get_session k svc)
    ∧ count svc1 = S (count svc)
    ∧ delete_session uuid4 svc1 = (true, svc)
    ∧ delete_session uuid4 svc = (false, svc).
Proof.
  intros Hfresh. unfold get_session in Hfresh.
  assert (Hkeys : uuid4 ∉ (_sessions svc).*1) by (by apply dict_get_None).
  eexists _, _, _. split; [reflexivity|]. cbn.
  unfold get_session, delete_session, count. cbn.
  rewrite !stored_get_set, decide_True by done.
  rewrite dict_del_set, length_dict_set, Hfresh by done.
  repeat split; try done.
  - intros k Hk. by rewrite stored_get_set, decide_False.
  - by destruct svc.
Qed.

(** *** Listing sessions *)

(** Not older than: the order of the listing. *)
Definition newer_first (a b : Session) : Prop := updated_at b ≤ updated_at a.

Lemma insert_desc_Permutation (s : Session) (l : list Session) :
  insert_desc s l ≡ₚ s :: l.
Proof.
  induction l as [|s' l IH]; cbn; [done|].
  destruct (updated_at s <? updated_at s'); [|done].
  rewrite IH. apply Permutation_swap.
Qed.

Lemma sort_desc_Permutation (l : list Session) : sort_desc l ≡ₚ l.
Proof.
  induction l as [|s l IH]; cbn; [done|].
  by rewrite insert_desc_Permutation, IH.
Qed.

Lemma insert_desc_sorted (s : Session) (l : list Session) :
  StronglySorted newer_first l → StronglySorted newer_first (insert_desc s l).
Proof.
  induction l as [|s' l IH]; intros Hsorted; cbn.
  - repeat constructor.
  - apply StronglySorted_inv in Hsorted as [Hl Hs'].
    destruct (Z.ltb_spec (updated_at s) (updated_at s')).
    + constructor; [by apply IH|].
      rewrite insert_desc_Permutation. constructor; [|done].
      unfold newer_first. lia.
    + constructor; [by constructor|].
      constructor; [unfold newer_first; lia|].
      eapply Forall_impl; [exact Hs'|]. unfold newer_first. intros; lia.
Qed.

Lemma sort_desc_sorted (l : list Session) :
  StronglySorted newer_first (sort_desc l).
Proof.
  induction l as [|s l IH]; cbn; [constructor|]. by apply insert_desc_sorted.
Qed.

Lemma slice_sublist {A} (l : list A) (start stop : Z) :
  slice l start stop `sublist_of` l.
Proof.
  unfold slice. etrans; [apply sublist_take|apply sublist_drop].
Qed.

Lemma slice_nonneg {A} (l : list A) (start stop : Z) :
  0 ≤ start ≤ stop →
  slice l start stop
  = take (Z.to_nat stop - Z.to_nat start) (drop (Z.to_nat start) l).
Proof.
  intros Hle. unfold slice, slice_index.
  rewrite !(proj2 (Z.ltb_ge _ _)) by lia.
  destruct (Z.le_gt_cases (Z.of_nat (length l)) start) as [Hbig|Hsmall].
  - rewrite !drop_ge by lia. by rewrite !take_nil.
  - rewrite (Z.min_l start) by lia.
    destruct (Z.le_gt_cases stop (Z.of_nat (length l))).
    + rewrite Z.min_l by lia. f_equal. lia.
    + rewrite Z.min_r by lia.
      rewrite !take_ge; [done| |]; rewrite length_drop; lia.
Qed.

Lemma length_slice {A} (l : list A) (offset limit : Z) :
  0 ≤ limit → Z.of_nat (length (slice l offset (offset + limit))) ≤ limit.
Proof.
  intros Hlimit. unfold slice, slice_index. rewrite length_take.
  destruct (Z.ltb_spec offset 0), (Z.ltb_spec (offset + limit) 0); lia.
Qed.

Lemma filtered_spec (svc : InMemorySessionService)
    (user_id app_name : option string) (active : option bool) (s : Session) :
  s ∈ filtered svc user_id app_name active
  ↔ s ∈ (_sessions svc).*2
    ∧ (∀ u, user_id = Some u → u ≠ "" → Session.user_id (metadata s) = Some u)
    ∧ (∀ a, app_name = Some a → a ≠ "" → Session.app_name (metadata s) = a)
    ∧ (∀ b, active = Some b → is_active s = b).
Proof.
  unfold filtered.
  destruct active as [b|], app_name as [[|ca a]|], user_id as [[|cu u]|];
    rewrite ?list_elem_of_filter;
    (split;
     [intros H; repeat split; intros; simplify_eq; tauto
     |intros (Hin & Hu & Ha & Hb); repeat split;
      first [exact Hin | by apply Hb | by apply Ha | by apply Hu]]).
Qed.

(** X23.  [list_sessions] returns stored sessions only, each of which
    matches every filter given (a user or application name that is None or
    empty does not filter), ordered from the most recently updated to the
    least; when the limit is not negative it returns at most [limit]
    sessions, whatever the offset. *)
Theorem listing_is_filtered_and_newest_first
    (svc : InMemorySessionService) (user_id app_name : option string)
    (active : option bool) (limit offset : Z) :
  StronglySorted newer_first
    (list_sessions svc user_id app_name active limit offset)
  ∧ (∀ s, s ∈ list_sessions svc user_id app_name active limit offset →
          s ∈ (_sessions svc).*2
          ∧ (∀ u, user_id = Some u → u ≠ "" →
                  Session.user_id (metadata s) = Some u)
          ∧ (∀ a, app_name = Some a → a ≠ "" →
                  Session.app_name (metadata s) = a)
          ∧ (∀ b, active = Some b → is_active s = b))
  ∧ (0 ≤ limit →
     Z.of_nat (length (list_sessions svc user_id app_name active limit offset))
     ≤ limit).
Proof.
  unfold list_sessions. split; [|split].
  - pose proof (sort_desc_sorted (filtered svc user_id app_name active)) as Hs.
    unfold slice.
    set (l := sort_desc _) in *.
    rewrite <- (take_drop (Z.to_nat (slice_index (Z.of_nat (length l)) offset)) l)
      in Hs.
    apply StronglySorted_app_1_r in Hs.
    set (l' := drop _ l) in *.
    rewrite <- (take_drop
                  (Z.to_nat (slice_index (Z.of_nat (length l)) (offset + limit)
                             - slice_index (Z.of_nat (length l)) offset)) l')
      in Hs.
    by apply StronglySorted_app_1_l in Hs.
  - intros s Hs. apply filtered_spec.
    rewrite <- sort_desc_Permutation.
    eapply elem_of_sublist; [exact Hs|apply slice_sublist].
  - apply length_slice.
Qed.

(** X24.  With offsets and limits that are not negative, the pages of
    [list_sessions] tile the listing: a page of [limit1] sessions followed
    by the page of [limit2] sessions that starts where it ends is the page
    of [limit1 + limit2] sessions; and the listing without filters from
    offset 0 with the number of sessions as limit holds every stored
    session, once for each identifier it is stored under. *)
Theorem listing_pages_tile
    (svc : InMemorySessionService) (user_id app_name : option string)
    (active : option bool) (limit1 limit2 offset : Z) :
  0 ≤ offset → 0 ≤ limit1 → 0 ≤ limit2 →
  list_sessions svc user_id app_name active limit1 offset
    ++ list_sessions svc user_id app_name active limit2 (offset + limit1)
  = list_sessions svc user_id app_name active (limit1 + limit2) offset
  ∧ list_sessions svc None None None (Z.of_nat (count svc)) 0
    ≡ₚ (_sessions svc).*2.
Proof.
  intros Ho H1 H2. unfold list_sessions. split.
  - rewrite !slice_nonneg by lia.
    replace (Z.to_nat (offset + limit1)) with (Z.to_nat offset + Z.to_nat limit1)%nat
      by lia.
    rewrite <- drop_drop.
    replace (Z.to_nat (offset + limit1 + limit2) - (Z.to_nat offset + Z.to_nat limit1))%nat
      with (Z.to_nat limit2) by lia.
    replace (Z.to_nat offset + Z.to_nat limit1 - Z.to_nat offset)%nat
      with (Z.to_nat limit1) by lia.
    replace (Z.to_nat (offset + (limit1 + limit2)) - Z.to_nat offset)%nat
      with (Z.to_nat limit1 + Z.to_nat limit2)%nat by lia.
    apply take_take_drop.
  - rewrite slice_nonneg by lia. unfold count.
    change (Z.to_nat 0) with 0%nat. rewrite drop_0, take_ge.
    + apply sort_desc_Permutation.
    + rewrite sort_desc_Permutation. unfold filtered. rewrite length_fmap. lia.
Qed.

End SessionService.

(** A service with three sessions, created at readings 10 s apart. *)
Definition ticking : Clock := mkClock (fun n => Z.of_nat n * 10) 0.

Lemma created_session_is_stored_until_deleted_witness :
  get_session unit unit 7%N (new unit unit) = None ∧
  ∃ s svc1 clk1,
    create_session unit unit (new unit unit) 7%N ticking (Some "ana") "shop" None
    = (s, svc1, clk1)
    ∧ get_session unit unit 7%N svc1 = Some s
    ∧ delete_session unit unit 7%N svc1 = (true, new unit unit).
Proof.
  assert (H : get_session unit unit 7%N (new unit unit) = None) by reflexivity.
  split; [exact H|].
  destruct (created_session_is_stored_until_deleted unit unit (new unit unit)
              7%N ticking (Some "ana") "shop" None H)
    as (s & svc1 & clk1 & Hc & _ & _ & _ & _ & Hget & _ & _ & Hdel & _).
  exists s, svc1, clk1. split; [exact Hc|]. split; [exact Hget|exact Hdel].
Defined.

Definition three_sessions : InMemorySessionService unit unit :=
  let '(_, svc, clk) :=
    create_session unit unit (new unit unit) 1%N ticking (Some "ana") "shop" None in
  let '(_, svc, clk) :=
    create_session unit unit svc 2%N clk (Some "bo") "shop" None in
  let '(_, svc, _) :=
    create_session unit unit svc 3%N clk (Some "ana") "blog" None in
  svc.

Example demo_listing :
  Session.id unit unit <$> list_sessions unit unit three_sessions None None None 2 0
  = [3%N; 2%N]
  ∧ Session.id unit unit
      <$> list_sessions unit unit three_sessions None None None 2 2
    = [1%N]
  ∧ Session.id unit unit
      <$> list_sessions unit unit three_sessions (Some "ana") (Some "") None 100 0
    = [3%N; 1%N]
  ∧ Session.id unit unit
      <$> list_sessions unit unit three_sessions None None None 5 (-1)
    = [1%N].
Proof. vm_compute. repeat split. Qed.

Lemma listing_pages_tile_witness :
  0 ≤ 0 ∧ 0 ≤ 1 ∧ 0 ≤ 2 ∧
  list_sessions unit unit three_sessions None None None 1 0
    ++ list_sessions unit unit three_sessions None None None 2 (0 + 1)
  = list_sessions unit unit three_sessions None None None (1 + 2) 0.
Proof.
  assert (H0 : 0 ≤ 0) by lia. assert (H1 : 0 ≤ 1) by lia.
  assert (H2 : 0 ≤ 2) by lia.
  split; [exact H0|]. split; [exact H1|]. split; [exact H2|].
  exact (proj1 (listing_pages_tile unit unit three_sessions None None None
                  1 2 0 H0 H1 H2)).
Defined.

End SessionService.


(** ** orchestration/workflow.py *)

Module Workflow.

Inductive NodeType := AGENT | FUNCTION | CONDITION.

(** A handler is called as a function, [handler(state)], or as an agent,
    [handler.execute(task=..., context=state)]; an object need not support
    both.  Either call receives the state dict, which it may mutate. *)
Record Handler := mkHandler {
  call : option (gmap string pyval -> gmap string pyval * outcome pyval);
  execute_agent :
    option (pyval -> gmap string pyval -> gmap string pyval * outcome pyval)
}.

Record WorkflowNode := mkNode {
  name : string;
  node_type : NodeType;
  handler : Handler
}.

(** A router is the closure [conditional_router] that [add_conditional_edge]
    installs: from the state to the name of the next node, unless the
    condition raises. *)
Record Workflow := mkWorkflow {
  workflow_name : string;
  nodes : gmap string WorkflowNode;
  edges : gmap string (list string);
  conditional_edges : gmap string (gmap string pyval -> outcome string);
  entry_point : option string
}.

Definition new (nm : string) : Workflow := mkWorkflow nm ∅ ∅ ∅ None.

Definition add_node (nm : string) (h : Handler) (ty : NodeType) (wf : Workflow)
    : Workflow :=
  mkWorkflow (workflow_name wf) (<[nm := mkNode nm ty h]> (nodes wf))
             (edges wf) (conditional_edges wf) (entry_point wf).

Definition add_edge (from_node to_node : string) (wf : Workflow) : Workflow :=
  let targets := default [] (edges wf !! from_node) in
  mkWorkflow (workflow_name wf) (nodes wf)
             (<[from_node := targets ++ [to_node]]> (edges wf))
             (conditional_edges wf) (entry_point wf).

Definition END : string := "__end__".

(** [edge_mapping.get(condition(state), "__end__")] *)
Definition conditional_router (condition : gmap string pyval -> outcome string)
    (edge_mapping : gmap string string) (state : gmap string pyval)
    : outcome string :=
  match condition state with
  | Raised e => Raised e
  | Returned edge_key => Returned (default END (edge_mapping !! edge_key))
  end.

Definition add_conditional_edge (from_node : string)
    (condition : gmap string pyval -> outcome string)
    (edge_mapping : gmap string string) (wf : Workflow) : Workflow :=
  mkWorkflow (workflow_name wf) (nodes wf) (edges wf)
             (<[from_node := conditional_router condition edge_mapping]>
                (conditional_edges wf))
             (entry_point wf).

Definition set_entry_point (node_name : string) (wf : Workflow) : Workflow :=
  mkWorkflow (workflow_name wf) (nodes wf) (edges wf) (conditional_edges wf)
             (Some node_name).

Definition TypeError (msg : string) : exn := Exn "TypeError" msg None.
Definition AttributeError (msg : string) : exn := Exn "AttributeError" msg None.
Definition ValueError (msg : string) : exn := Exn "ValueError" msg None.

(** "Execute handler": the branch on the node type. *)
Definition run_handler (node : WorkflowNode) (state : gmap string pyval)
    : gmap string pyval * outcome pyval :=
  match node_type node with
  | AGENT =>
      match execute_agent (handler node) with
      | Some execute =>
          execute (default (PyStr "") (state !! "task")) state
      | None => (state, Raised (AttributeError "execute"))
      end
  | _ =>
      match call (handler node) with
      | Some f => f state
      | None => (state, Raised (TypeError "object is not callable"))
      end
  end.

(** "Determine next node" *)
Definition next_node (wf : Workflow) (current_node : string)
    (state : gmap string pyval) : outcome string :=
  match conditional_edges wf !! current_node with
  | Some router => router state
  | None =>
      match edges wf !! current_node with
      | Some next_nodes =>
          Returned (match next_nodes with
                    | nxt :: _ => nxt
                    | [] => END
                    end)
      | None => Returned END
      end
  end.

(** How [execute] ends, with the nodes run so far: it returns the state,
    it raises, or the walk is still going when the fuel is used up. *)
Inductive Walk :=
| Finished (state : gmap string pyval) (visited : list string)
| Failed (e : exn) (visited : list string)
| Running (state : gmap string pyval) (current_node : string)
          (visited : list string).

(** The [while current_node != "__end__"] loop, at most [fuel] rounds. *)
Fixpoint walk (fuel : nat) (wf : Workflow) (state : gmap string pyval)
    (current_node : string) (visited : list string) : Walk :=
  if decide (current_node = END) then Finished state visited else
  match fuel with
  | O => Running state current_node visited
  | S fuel =>
      match nodes wf !! current_node with
      | None =>
          Failed (ValueError ("Node " +:+ current_node +:+ " not found")) visited
      | Some node =>
          let visited := visited ++ [current_node] in
          let '(state, r) := run_handler node state in
          match r with
          | Raised e => Failed e visited
          | Returned result =>
              let state := <["last_result" := result]> state in
              let state := <[current_node +:+ "_result" := result]> state in
              match next_node wf current_node state with
              | Raised e => Failed e visited
              | Returned nxt => walk fuel wf state nxt visited
              end
          end
      end
  end.

(** [Workflow.execute]; an entry point that is [None] or empty is not set,
    and [initial_state or {}] is the empty dict for [None]. *)
Definition execute (fuel : nat) (wf : Workflow)
    (initial_state : option (gmap string pyval)) : Walk :=
  match entry_point wf with
  | None | Some EmptyString => Failed (ValueError "Entry point not set") []
  | Some entry => walk fuel wf (default ∅ initial_state) entry []
  end.

(** *** Choosing the next node *)

(** One round of the loop: the handler returns, the state is updated, and
    the walk goes on from the node that [next_node] gives. *)
Lemma walk_step (fuel : nat) (wf : Workflow) (state state' : gmap string pyval)
    (current_node : string) (visited : list string) (node : WorkflowNode)
    (result : pyval) :
  current_node ≠ END →
  nodes wf !! current_node = Some node →
  run_handler node state = (state', Returned result) →
  walk (S fuel) wf state current_node visited
  = match next_node wf current_node
            (<[current_node +:+ "_result" := result]>
               (<["last_result" := result]> state')) with
    | Raised e => Failed e (visited ++ [current_node])
    | Returned nxt =>
        walk fuel wf
             (<[current_node +:+ "_result" := result]>
                (<["last_result" := result]> state'))
             nxt (visited ++ [current_node])
    end.
Proof.
  intros Hne Hnode Hrun. cbn [walk].
  rewrite decide_False by done. by rewrite Hnode, Hrun.
Qed.

Lemma walk_end (fuel : nat) (wf : Workflow) (state : gmap string pyval)
    (visited : list string) :
  walk fuel wf state END visited = Finished state visited.
Proof. by destruct fuel. Qed.

(** C7.  After a node has run and the state has been updated: a router
    registered for the node decides the next node whatever the node's edges
    are; a router installed by [add_conditional_edge] whose condition gives
    a key that the mapping lacks gives the end sentinel, so that the walk
    ends, and gives the mapped node otherwise; without router and without
    edges the walk ends; without router the first edge is followed, which
    for two edges added in turn is the one added first. *)
Theorem next_node_router_then_first_edge
    (wf : Workflow) (fuel : nat) (state state' : gmap string pyval)
    (current_node : string) (visited : list string) (node : WorkflowNode)
    (result : pyval) :
  current_node ≠ END →
  nodes wf !! current_node = Some node →
  run_handler node state = (state', Returned result) →
  let updated := <[current_node +:+ "_result" := result]>
                   (<["last_result" := result]> state') in
  let visited' := visited ++ [current_node] in
  (∀ router nxt,
     conditional_edges wf !! current_node = Some router →
     router updated = Returned nxt →
     walk (S fuel) wf state current_node visited
     = walk fuel wf updated nxt visited')
  ∧ (∀ condition edge_mapping edge_key,
       condition updated = Returned edge_key →
       let wf' := add_conditional_edge current_node condition edge_mapping wf in
       match edge_mapping !! edge_key with
       | None =>
           next_node wf' current_node updated = Returned END ∧
           walk (S fuel) wf' state current_node visited
           = Finished updated visited'
       | Some target =>
           walk (S fuel) wf' state current_node visited
           = walk fuel wf' updated target visited'
       end)
  ∧ (conditional_edges wf !! current_node = None →
     edges wf !! current_node = None →
     walk (S fuel) wf state current_node visited = Finished updated visited')
  ∧ (∀ first rest,
       conditional_edges wf !! current_node = None →
       edges wf !! current_node = Some (first :: rest) →
       walk (S fuel) wf state current_node visited
       = walk fuel wf updated first visited')
  ∧ (∀ first second,
       conditional_edges wf !! current_node = None →
       edges wf !! current_node = None →
       let wf' := add_edge current_node second
                    (add_edge current_node first wf) in
       walk (S fuel) wf' state current_node visited
       = walk fuel wf' updated first visited').
Proof.
  intros Hne Hnode Hrun updated visited'.
  split; [|split; [|split; [|split]]].
  - intros router nxt Hrouter Hnxt.
    rewrite (walk_step fuel wf state state' current_node visited node result)
      by done.
    fold updated. unfold next_node. by rewrite Hrouter, Hnxt.
  - intros condition edge_mapping edge_key Hkey wf'.
    assert (Hnext : next_node wf' current_node updated
                    = Returned (default END (edge_mapping !! edge_key))).
    { unfold next_node, wf', add_conditional_edge. cbn.
      rewrite lookup_insert_eq. unfold conditional_router. by rewrite Hkey. }
    assert (Hwalk : walk (S fuel) wf' state current_node visited
                    = walk fuel wf' updated (default END (edge_mapping !! edge_key))
                           visited').
    { rewrite (walk_step fuel wf' state state' current_node visited node result)
        by done.
      fold updated. by rewrite Hnext. }
    destruct (edge_mapping !! edge_key) as [target|]; [exact Hwalk|].
    split; [exact Hnext|]. rewrite Hwalk. apply walk_end.
  - intros Hrouter Hedges.
    rewrite (walk_step fuel wf state state' current_node visited node result)
      by done.
    fold updated. unfold next_node. rewrite Hrouter, Hedges. apply walk_end.
  - intros first rest Hrouter Hedges.
    rewrite (walk_step fuel wf state state' current_node visited node result)
      by done.
    fold updated. unfold next_node. by rewrite Hrouter, Hedges.
  - intros first second Hrouter Hedges wf'.
    rewrite (walk_step fuel wf' state state' current_node visited node result)
      by done.
    fold updated. unfold next_node, wf', add_edge. cbn.
    rewrite Hrouter, Hedges. cbn. by rewrite !lookup_insert_eq.
Qed.

(** A two-way triage: "review" when the state has a key "risky", and an
    unmapped key otherwise. *)
Definition returns (v : pyval) : Handler :=
  mkHandler (Some (fun state => (state, Returned v))) None.
Definition risk (state : gmap string pyval) : outcome string :=
  Returned (match state !! "risky" with Some _ => "high" | None => "low" end).
Definition triage : Workflow :=
  set_entry_point "triage"
    (add_conditional_edge "triage" risk {["high" := "review"]}
       (add_edge "triage" "archive"
          (add_node "archive" (returns (PyStr "archived")) FUNCTION
             (add_node "review" (returns (PyStr "reviewed")) FUNCTION
                (add_node "triage" (returns (PyStr "seen")) FUNCTION
                   (new "triage")))))).

Example triage_risky :
  ∃ state,
    execute 5 triage (Some {["risky" := PyBool true]})
    = Finished state ["triage"; "review"].
Proof. eexists. vm_compute. reflexivity. Qed.

Example triage_unmapped_key_ends :
  ∃ state, execute 5 triage None = Finished state ["triage"].
Proof. eexists. vm_compute. reflexivity. Qed.

Lemma next_node_router_then_first_edge_witness :
  "triage" ≠ END ∧
  nodes triage !! "triage" = Some (mkNode "triage" FUNCTION (returns (PyStr "seen"))) ∧
  run_handler (mkNode "triage" FUNCTION (returns (PyStr "seen"))) ∅
  = (∅, Returned (PyStr "seen")) ∧
  walk 1 triage ∅ "triage" []
  = walk 0 triage (<["triage_result" := PyStr "seen"]>
                     (<["last_result" := PyStr "seen"]> ∅)) END ["triage"].
Proof.
  assert (H1 : "triage" ≠ END) by discriminate.
  assert (H2 : nodes triage !! "triage"
               = Some (mkNode "triage" FUNCTION (returns (PyStr "seen"))))
    by (vm_compute; reflexivity).
  assert (H3 : run_handler (mkNode "triage" FUNCTION (returns (PyStr "seen"))) ∅
               = (∅, Returned (PyStr "seen"))) by reflexivity.
  split; [exact H1|]. split; [exact H2|]. split; [exact H3|].
  apply (proj1 (next_node_router_then_first_edge
                  triage 0 ∅ ∅ "triage" [] _ (PyStr "seen") H1 H2 H3)
               (conditional_router risk {["high" := "review"]}) END).
  - vm_compute. reflexivity.
  - vm_compute. reflexivity.
Defined.

(** *** Chains and cycles *)

(** The node is registered and its handler returns, whatever the state. *)
Definition returns_always (wf : Workflow) (n : string) : Prop :=
  ∃ node, nodes wf !! n = Some node ∧
          ∀ state, ∃ state' result,
            run_handler node state = (state', Returned result).

(** After the node the walk goes to [nxt], whatever the state: by the first
    edge of the node, or by a router that always gives [nxt]. *)
Definition leads_to (wf : Workflow) (n nxt : string) : Prop :=
  ∀ state, next_node wf n state = Returned nxt.

(** A chain of nodes, each leading to the next and the last to [target]. *)
Fixpoint chain (wf : Workflow) (ns : list string) (target : string) : Prop :=
  match ns with
  | [] => True
  | n :: rest =>
      n ≠ END ∧ returns_always wf n ∧ leads_to wf n (hd target rest)
      ∧ chain wf rest target
  end.

Lemma walk_chain (wf : Workflow) (target : string) (ns : list string) :
  ∀ fuel state visited,
    chain wf ns target →
    ∃ state',
      walk fuel wf state (hd target ns) visited
      = walk (fuel - length ns) wf state' (hd target (drop fuel ns))
             (visited ++ take fuel ns)
      ∧ ((length ns ≤ fuel)%nat →
         match last ns with
         | None => state' = state
         | Some n =>
             ∃ result,
               state' !! "last_result" = Some result ∧
               state' !! (n +:+ "_result") = Some result
         end).
Proof.
  induction ns as [|n rest IH]; intros fuel state visited Hchain.
  - exists state. rewrite drop_nil, take_nil, app_nil_r, Nat.sub_0_r. done.
  - destruct Hchain as (Hne & (node & Hnode & Hret) & Hnext & Hrest).
    destruct fuel as [|fuel].
    + exists state. cbn. rewrite app_nil_r. split; [done|]. lia.
    + destruct (Hret state) as (state1 & result & Hrun).
      set (state2 := <[n +:+ "_result" := result]>
                       (<["last_result" := result]> state1)).
      destruct (IH fuel state2 (visited ++ [n]) Hrest) as (state' & Hwalk & Hlast).
      exists state'. split.
      * cbn [hd length drop take Nat.sub].
        rewrite (walk_step fuel wf state state1 n visited node result) by done.
        fold state2. rewrite Hnext, Hwalk, <- app_assoc. done.
      * intros Hlen. cbn [length] in Hlen.
        specialize (Hlast ltac:(lia)).
        destruct rest as [|n' rest'].
        2:{ rewrite last_cons_cons.
            destruct (last (n' :: rest')) as [x|] eqn:Hl; [exact Hlast|].
            by apply last_None in Hl. }
        cbn in Hlast. subst state'. cbn [last]. exists result. subst state2.
        split; [|by rewrite lookup_insert_eq].
        destruct (decide (n +:+ "_result" = "last_result")) as [->|Hk].
        -- by rewrite lookup_insert_eq.
        -- by rewrite lookup_insert_ne, lookup_insert_eq.
Qed.


(** X26.  A chain of registered nodes whose handlers return and whose last
    node leads back to the first is never left: however many rounds of the
    loop are run, [execute] has neither returned nor raised. *)
Theorem cycle_never_ends (wf : Workflow) (n : string) (rest : list string)
    (fuel : nat) (state : gmap string pyval) (visited : list string) :
  chain wf (n :: rest) n →
  ∃ state' current_node visited',
    walk fuel wf state n visited = Running state' current_node visited'.
Proof.
  intros Hchain. revert state visited.
  induction (lt_wf fuel) as [fuel _ IH]. intros state visited.
  destruct (walk_chain wf n (n :: rest) fuel state visited Hchain)
    as (state' & Hwalk & _).
  cbn [hd] in Hwalk. rewrite Hwalk.
  destruct (decide (fuel < length (n :: rest))%nat) as [Hlt|Hge].
  - replace (fuel - length (n :: rest))%nat with 0%nat by lia.
    destruct (lookup_lt_is_Some_2 (n :: rest) fuel Hlt) as [cur Hcur].
    assert (Hhd : hd n (drop fuel (n :: rest)) = cur).
    { rewrite <- (take_drop_middle _ _ _ Hcur).
      rewrite drop_app_length'; [done|]. rewrite length_take. lia. }
    rewrite Hhd.
    assert (Hcur_ne : cur ≠ END).
    { apply list_elem_of_lookup_2 in Hcur. clear -Hchain Hcur.
      revert Hchain. generalize n at 2. intros target.
      induction (n :: rest) as [|x l IHl]; intros Hch;
        [by apply elem_of_nil in Hcur|].
      destruct Hch as (Hx & _ & _ & Hl).
      apply elem_of_cons in Hcur as [->|Hin]; [done|by apply IHl]. }
    cbn [walk]. rewrite decide_False by done. by eexists _, _, _.
  - rewrite drop_ge by lia. cbn [hd].
    apply IH. cbn [length] in *. lia.
Qed.

(** Two nodes in a row, and the same two in a circle. *)
Definition in_a_row : Workflow :=
  set_entry_point "fetch"
    (add_edge "fetch" "store"
       (add_node "store" (returns (PyStr "stored")) FUNCTION
          (add_node "fetch" (returns (PyStr "fetched")) FUNCTION
             (new "pipeline")))).
Definition in_a_circle : Workflow := add_edge "store" "fetch" in_a_row.


Lemma cycle_never_ends_witness :
  chain in_a_circle ["fetch"; "store"] "fetch" ∧
  ∃ state' current_node visited',
    walk 1000 in_a_circle ∅ "fetch" [] = Running state' current_node visited'.
Proof.
  assert (Hc : chain in_a_circle ["fetch"; "store"] "fetch").
  { repeat split; try discriminate.
    - eexists. split; [vm_compute; reflexivity|]. intros st. by eexists _, _.
    - eexists. split; [vm_compute; reflexivity|]. intros st. by eexists _, _. }
  split; [exact Hc|].
  exact (cycle_never_ends in_a_circle "fetch" ["store"] 1000 ∅ [] Hc).
Defined.


End Workflow.

(** ** Fixed-width numerals *)

(** The zero-padded numerals that [str(uuid)] (32 hexadecimal digits) and
    [datetime.isoformat()] (decimal fields) print, and their reading back. *)
Module Numeral.

Local Open Scope N_scope.

(** The [width] low digits of [n] in [base], most significant first. *)
Fixpoint digits (base : N) (width : nat) (n : N) : list N :=
  match width with
  | O => []
  | S width => digits base width (n / base) ++ [n mod base]
  end.

Definition number (base : N) (ds : list N) : N :=
  foldl (λ acc d, acc * base + d) 0 ds.

Definition digit_char (d : N) : ascii :=
  match String.get (N.to_nat d) "0123456789abcdef" with
  | Some c => c
  | None => "?"%char
  end.

(** The value of a hexadecimal digit, in either case. *)
Definition hex_value (c : ascii) : option N :=
  let n := N_of_ascii c in
  if (48 <=? n) && (n <=? 57) then Some (n - 48)
  else if (97 <=? n) && (n <=? 102) then Some (n - 87)
  else if (65 <=? n) && (n <=? 70) then Some (n - 55)
  else None.

Definition dec_value (c : ascii) : option N :=
  let n := N_of_ascii c in
  if (48 <=? n) && (n <=? 57) then Some (n - 48) else None.

Definition print (base : N) (width : nat) (n : N) : list ascii :=
  digit_char <$> digits base width n.

(** Read exactly [width] digits off the front of [cs]. *)
Definition read (value : ascii -> option N) (base : N) (width : nat)
    (cs : list ascii) : option (N * list ascii) :=
  if decide (length (take width cs) = width) then
    ds ← mapM value (take width cs);
    Some (number base ds, drop width cs)
  else None.

Lemma length_digits (base : N) (width : nat) (n : N) :
  length (digits base width n) = width.
Proof.
  revert n. induction width as [|w IH]; intros n; simpl; [done|].
  rewrite length_app, IH. simpl. lia.
Qed.

Lemma digits_lt (base : N) (width : nat) (n : N) :
  0 < base → Forall (λ d, d < base) (digits base width n).
Proof.
  intros Hb. revert n. induction width as [|w IH]; intros n; simpl; [done|].
  apply Forall_app. split; [apply IH|].
  apply Forall_singleton. apply N.mod_lt. lia.
Qed.

Lemma number_digits (base : N) (width : nat) (n : N) :
  0 < base → n < base ^ N.of_nat width →
  number base (digits base width n) = n.
Proof.
  intros Hb. unfold number. revert n.
  induction width as [|w IH]; intros n Hn.
  - simpl in *. lia.
  - simpl. rewrite foldl_app. simpl. rewrite IH.
    + rewrite N.mul_comm. symmetry. apply N.div_mod. lia.
    + apply N.Div0.div_lt_upper_bound.
      rewrite Nat2N.inj_succ, N.pow_succ_r' in Hn. lia.
Qed.

Lemma hex_value_digit_char (d : N) :
  d < 16 → hex_value (digit_char d) = Some d.
Proof.
  intros Hd. rewrite <- (N2Nat.id d) in *.
  assert (N.to_nat d < 16)%nat as Hlt by lia.
  clear Hd. revert Hlt. generalize (N.to_nat d) as k. intros k Hlt.
  do 16 (destruct k as [|k]; [reflexivity|]). lia.
Qed.

Lemma dec_value_digit_char (d : N) :
  d < 10 → dec_value (digit_char d) = Some d.
Proof.
  intros Hd. rewrite <- (N2Nat.id d) in *.
  assert (N.to_nat d < 10)%nat as Hlt by lia.
  clear Hd. revert Hlt. generalize (N.to_nat d) as k. intros k Hlt.
  do 10 (destruct k as [|k]; [reflexivity|]). lia.
Qed.

Lemma mapM_value_digit_chars (value : ascii -> option N) (base : N) (ds : list N) :
  (∀ d, d < base → value (digit_char d) = Some d) →
  Forall (λ d, d < base) ds →
  mapM value (digit_char <$> ds) = Some ds.
Proof.
  intros Hvalue Hds. apply mapM_Some. apply Forall2_fmap_l.
  apply Forall_Forall2_diag. eapply Forall_impl; [exact Hds|].
  intros d Hd. by apply Hvalue.
Qed.

(** Reading back what was printed, whatever follows it. *)
Lemma read_print (value : ascii -> option N) (base : N) (width : nat) (n : N)
    (rest : list ascii) :
  0 < base → (∀ d, d < base → value (digit_char d) = Some d) →
  n < base ^ N.of_nat width →
  read value base width (print base width n ++ rest) = Some (n, rest).
Proof.
  intros Hb Hvalue Hn. unfold read, print.
  assert (Hlen : length (digit_char <$> digits base width n) = width)
    by (by rewrite length_fmap, length_digits).
  rewrite take_app_length' by done. rewrite drop_app_length' by done.
  rewrite decide_True by done.
  rewrite (mapM_value_digit_chars value base) by (done || by apply digits_lt).
  simpl. by rewrite number_digits.
Qed.

End Numeral.

(** ** events.py *)

Module Events.

Local Open Scope N_scope.

(** Sequencing of calls that may raise. *)
#[global] Instance outcome_ret : MRet outcome := @Returned.
#[global] Instance outcome_bind : MBind outcome := λ A B f m,
  match m with
  | Returned a => f a
  | Raised e => Raised e
  end.

(** *** uuid.UUID *)

(** A UUID is its 128-bit integer.  [uuid_str] is [str(uuid)]: 32
    hexadecimal digits in groups of 8, 4, 4, 4 and 12.  [uuid_of_str] is
    [UUID(hex)] on the spellings with or without dashes; the other
    spellings that the constructor accepts (braces, a urn prefix) are
    rejected here. *)
Definition uuid_wf (u : N) : Prop := u < 2 ^ 128.

Definition dash : ascii := "-"%char.

Definition uuid_str (u : N) : string :=
  let h := Numeral.print 16 32 u in
  String.string_of_list_ascii
    (take 8 h ++ dash :: take 4 (drop 8 h) ++ dash :: take 4 (drop 12 h)
       ++ dash :: take 4 (drop 16 h) ++ dash :: drop 20 h).

Definition ValueError (msg : string) : exn := Exn "ValueError" msg None.
Definition TypeError (msg : string) : exn := Exn "TypeError" msg None.
Definition KeyError (key : string) : exn := Exn "KeyError" key None.
Definition ValidationError (field : string) : exn :=
  Exn "ValidationError" field None.

Definition uuid_of_str (s : string) : outcome N :=
  let hex := filter (λ c, c ≠ dash) (String.list_ascii_of_string s) in
  if decide (length hex = 32%nat) then
    match mapM Numeral.hex_value hex with
    | Some ds => Returned (Numeral.number 16 ds)
    | None => Raised (ValueError "invalid literal for int() with base 16")
    end
  else Raised (ValueError "badly formed hexadecimal UUID string").

(** *** datetime *)

(** A naive datetime, as [datetime.utcnow()] gives. *)
Record datetime := mkDatetime {
  year : N; month : N; day : N;
  hour : N; minute : N; second : N; microsecond : N
}.

Definition is_leap (y : N) : bool :=
  (y mod 4 =? 0) && (negb (y mod 100 =? 0) || (y mod 400 =? 0)).

Definition days_in_month (y m : N) : N :=
  match m with
  | 1 | 3 | 5 | 7 | 8 | 10 | 12 => 31
  | 4 | 6 | 9 | 11 => 30
  | 2 => if is_leap y then 29 else 28
  | _ => 0
  end.

(** The field ranges that the [datetime] constructor enforces. *)
Definition valid_datetime (t : datetime) : bool :=
  (1 <=? year t) && (year t <=? 9999) && (1 <=? month t) && (month t <=? 12)
  && (1 <=? day t) && (day t <=? days_in_month (year t) (month t))
  && (hour t <? 24) && (minute t <? 60) && (second t <? 60)
  && (microsecond t <? 1000000).

(** [isoformat()]: YYYY-MM-DDTHH:MM:SS, followed by .ffffff when the
    microsecond is not zero. *)
Definition isoformat (t : datetime) : string :=
  String.string_of_list_ascii
    (Numeral.print 10 4 (year t) ++ "-"%char :: Numeral.print 10 2 (month t)
       ++ "-"%char :: Numeral.print 10 2 (day t)
       ++ "T"%char :: Numeral.print 10 2 (hour t)
       ++ ":"%char :: Numeral.print 10 2 (minute t)
       ++ ":"%char :: Numeral.print 10 2 (second t)
       ++ (if microsecond t =? 0 then []
           else "."%char :: Numeral.print 10 6 (microsecond t))).

Definition expect (c : ascii) (cs : list ascii) : option (list ascii) :=
  match cs with
  | c' :: cs => if decide (c' = c) then Some cs else None
  | [] => None
  end.

Definition read_field := Numeral.read Numeral.dec_value 10.

(** The fields of a string in the format that [isoformat] prints; the
    character between date and time may be any. *)
Definition parse_isoformat (cs : list ascii) : option datetime :=
  '(y, cs) ← read_field 4 cs;
  cs ← expect "-"%char cs;
  '(m, cs) ← read_field 2 cs;
  cs ← expect "-"%char cs;
  '(d, cs) ← read_field 2 cs;
  cs ← match cs with _ :: cs => Some cs | [] => None end;
  '(h, cs) ← read_field 2 cs;
  cs ← expect ":"%char cs;
  '(mi, cs) ← read_field 2 cs;
  cs ← expect ":"%char cs;
  '(sec, cs) ← read_field 2 cs;
  match cs with
  | [] => Some (mkDatetime y m d h mi sec 0)
  | c :: cs =>
      if decide (c = "."%char) then
        '(us, cs) ← read_field 6 cs;
        match cs with
        | [] => Some (mkDatetime y m d h mi sec us)
        | _ => None
        end
      else None
  end.

(** [datetime.fromisoformat], on the format that [isoformat] prints. *)
Definition fromisoformat (s : string) : outcome datetime :=
  match parse_isoformat (String.list_ascii_of_string s) with
  | Some t =>
      if valid_datetime t then Returned t
      else Raised (ValueError "field out of range")
  | None => Raised (ValueError ("Invalid isoformat string: " +:+ s))
  end.

(** *** EventType *)

Inductive EventType :=
| SESSION_CREATED
| SESSION_UPDATED
| SESSION_CLOSED
| AGENT_STARTED
| AGENT_COMPLETED
| AGENT_FAILED
| TASK_ASSIGNED
| TASK_STARTED
| TASK_COMPLETED
| TASK_FAILED
| TOOL_CALL_STARTED
| TOOL_CALL_COMPLETED
| TOOL_CALL_FAILED
| STATE_UPDATED
| STATE_CLEARED
| ARTIFACT_CREATED
| ARTIFACT_UPDATED
| MESSAGE_RECEIVED
| MESSAGE_SENT
| LLM_REQUEST_STARTED
| LLM_REQUEST_COMPLETED
| LLM_REQUEST_FAILED
| MEMORY_STORED
| MEMORY_RETRIEVED.

(** The string value of each member. *)
Definition value (t : EventType) : string :=
  match t with
  | SESSION_CREATED => "session.created"
  | SESSION_UPDATED => "session.updated"
  | SESSION_CLOSED => "session.closed"
  | AGENT_STARTED => "agent.started"
  | AGENT_COMPLETED => "agent.completed"
  | AGENT_FAILED => "agent.failed"
  | TASK_ASSIGNED => "task.assigned"
  | TASK_STARTED => "task.started"
  | TASK_COMPLETED => "task.completed"
  | TASK_FAILED => "task.failed"
  | TOOL_CALL_STARTED => "tool.call.started"
  | TOOL_CALL_COMPLETED => "tool.call.completed"
  | TOOL_CALL_FAILED => "tool.call.failed"
  | STATE_UPDATED => "state.updated"
  | STATE_CLEARED => "state.cleared"
  | ARTIFACT_CREATED => "artifact.created"
  | ARTIFACT_UPDATED => "artifact.updated"
  | MESSAGE_RECEIVED => "message.received"
  | MESSAGE_SENT => "message.sent"
  | LLM_REQUEST_STARTED => "llm.request.started"
  | LLM_REQUEST_COMPLETED => "llm.request.completed"
  | LLM_REQUEST_FAILED => "llm.request.failed"
  | MEMORY_STORED => "memory.stored"
  | MEMORY_RETRIEVED => "memory.retrieved"
  end.

Definition members : list EventType :=
  [SESSION_CREATED;
   SESSION_UPDATED;
   SESSION_CLOSED;
   AGENT_STARTED;
   AGENT_COMPLETED;
   AGENT_FAILED;
   TASK_ASSIGNED;
   TASK_STARTED;
   TASK_COMPLETED;
   TASK_FAILED;
   TOOL_CALL_STARTED;
   TOOL_CALL_COMPLETED;
   TOOL_CALL_FAILED;
   STATE_UPDATED;
   STATE_CLEARED;
   ARTIFACT_CREATED;
   ARTIFACT_UPDATED;
   MESSAGE_RECEIVED;
   MESSAGE_SENT;
   LLM_REQUEST_STARTED;
   LLM_REQUEST_COMPLETED;
   LLM_REQUEST_FAILED;
   MEMORY_STORED;
   MEMORY_RETRIEVED].

(** [EventType(value)]: the member with that value. *)
Definition of_value (s : string) : option EventType :=
  list_find (λ t, value t = s) members ≫= λ '(_, t), Some t.

(** *** DomainEvent *)

Record DomainEvent := mkDomainEvent {
  id : N;
  event_type : EventType;
  session_id : option N;
  agent_name : option string;
  data : list (string * pyval);
  timestamp : datetime;
  correlation_id : option N
}.

(** [str(u) if u else None]: a UUID object is always truthy. *)
Definition optional_uuid_str (u : option N) : pyval :=
  match u with
  | Some u => PyStr (uuid_str u)
  | None => PyNone
  end.

Definition optional_str (s : option string) : pyval :=
  match s with
  | Some s => PyStr s
  | None => PyNone
  end.

Definition to_dict (e : DomainEvent) : gmap string pyval :=
  <["id" := PyStr (uuid_str (id e))]>
    (<["event_type" := PyStr (value (event_type e))]>
       (<["session_id" := optional_uuid_str (session_id e)]>
          (<["agent_name" := optional_str (agent_name e)]>
             (<["data" := PyDict (data e)]>
                (<["timestamp" := PyStr (isoformat (timestamp e))]>
                   (<["correlation_id" := optional_uuid_str (correlation_id e)]>
                      ∅)))))).

(** Truth value of a Python value. *)
Definition truthy (v : pyval) : bool :=
  match v with
  | PyNone => false
  | PyBool b => b
  | PyInt z => negb (z =? 0)%Z
  | PyFloat q => negb (Qeq_bool q 0)
  | PyStr s => negb (String.eqb s "")
  | PyList xs => negb (bool_decide (length xs = 0%nat))
  | PyDict kv => negb (bool_decide (length kv = 0%nat))
  | PyObject _ => true
  end.

(** [data[key]] *)
Definition subscript (d : gmap string pyval) (key : string) : outcome pyval :=
  match d !! key with
  | Some v => Returned v
  | None => Raised (KeyError key)
  end.

(** [UUID(v)], [EventType(v)] and [datetime.fromisoformat(v)] *)
Definition UUID (v : pyval) : outcome N :=
  match v with
  | PyStr s => uuid_of_str s
  | _ => Raised (TypeError "UUID: a hex string is required")
  end.

Definition EventType_of (v : pyval) : outcome EventType :=
  match v with
  | PyStr s =>
      match of_value s with
      | Some t => Returned t
      | None => Raised (ValueError ("'" +:+ s +:+ "' is not a valid EventType"))
      end
  | _ => Raised (ValueError "not a valid EventType")
  end.

Definition datetime_of (v : pyval) : outcome datetime :=
  match v with
  | PyStr s => fromisoformat s
  | _ => Raised (TypeError "fromisoformat: argument must be str")
  end.

(** [UUID(data[key]) if data.get(key) else None] *)
Definition optional_uuid (d : gmap string pyval) (key : string)
    : outcome (option N) :=
  if truthy (default PyNone (d !! key))
  then v ← subscript d key; u ← UUID v; mret (Some u)
  else mret None.

(** The validation of the fields [agent_name: Optional[str]] and
    [data: Dict[str, Any]] by the model class. *)
Definition validate_agent_name (v : pyval) : outcome (option string) :=
  match v with
  | PyNone => Returned None
  | PyStr s => Returned (Some s)
  | _ => Raised (ValidationError "agent_name")
  end.

Definition validate_data (v : pyval) : outcome (list (string * pyval)) :=
  match v with
  | PyDict kv => Returned kv
  | _ => Raised (ValidationError "data")
  end.

(** [DomainEvent.from_dict]: the arguments are evaluated in the order
    written, then the model is constructed. *)
Definition from_dict (d : gmap string pyval) : outcome DomainEvent :=
  v ← subscript d "id"; id_ ← UUID v;
  v ← subscript d "event_type"; event_type_ ← EventType_of v;
  session_id_ ← optional_uuid d "session_id";
  let agent_name_ := default PyNone (d !! "agent_name") in
  let data_ := default (PyDict []) (d !! "data") in
  v ← subscript d "timestamp"; timestamp_ ← datetime_of v;
  correlation_id_ ← optional_uuid d "correlation_id";
  agent_name_ ← validate_agent_name agent_name_;
  data_ ← validate_data data_;
  mret (mkDomainEvent id_ event_type_ session_id_ agent_name_ data_
                      timestamp_ correlation_id_).

(** *** Round trips of the field codecs *)

Lemma digit_char_not_dash (d : N) : d < 16 → Numeral.digit_char d ≠ dash.
Proof.
  intros Hd. rewrite <- (N2Nat.id d) in *.
  assert (N.to_nat d < 16)%nat as Hlt by lia.
  clear Hd. revert Hlt. generalize (N.to_nat d) as k. intros k Hlt.
  do 16 (destruct k as [|k]; [discriminate|]). lia.
Qed.

Lemma filter_all {A} (P : A → Prop) `{∀ x, Decision (P x)} (l : list A) :
  Forall P l → filter P l = l.
Proof.
  induction 1 as [|x l Hx _ IH]; [done|].
  by rewrite filter_cons_True, IH.
Qed.

Lemma print_hex_no_dash (u : N) :
  Forall (λ c, c ≠ dash) (Numeral.print 16 32 u).
Proof.
  unfold Numeral.print. apply Forall_fmap.
  eapply Forall_impl; [apply (Numeral.digits_lt 16); lia|].
  intros d Hd. by apply digit_char_not_dash.
Qed.

Lemma regroup {A} (h : list A) :
  take 8 h ++ take 4 (drop 8 h) ++ take 4 (drop 12 h) ++ take 4 (drop 16 h)
    ++ drop 20 h = h.
Proof.
  replace (drop 20 h) with (drop 4 (drop 16 h)) by by rewrite drop_drop.
  rewrite take_drop.
  replace (drop 16 h) with (drop 4 (drop 12 h)) by by rewrite drop_drop.
  rewrite take_drop.
  replace (drop 12 h) with (drop 4 (drop 8 h)) by by rewrite drop_drop.
  rewrite take_drop. apply take_drop.
Qed.

Lemma uuid_roundtrip (u : N) : uuid_wf u → uuid_of_str (uuid_str u) = Returned u.
Proof.
  intros Hu. unfold uuid_of_str, uuid_str.
  rewrite String.list_ascii_of_string_of_list_ascii.
  pose proof (print_hex_no_dash u) as Hno.
  set (h := Numeral.print 16 32 u) in *.
  assert (Hfilter : filter (λ c, c ≠ dash)
                      (take 8 h ++ dash :: take 4 (drop 8 h) ++ dash ::
                       take 4 (drop 12 h) ++ dash :: take 4 (drop 16 h) ++
                       dash :: drop 20 h) = h).
  { rewrite <- (regroup h) at 6.
    repeat (rewrite filter_app || rewrite filter_cons_False by (by intros ?)).
    rewrite !filter_all; [done|..];
      repeat (apply Forall_take || apply Forall_drop); done. }
  rewrite Hfilter. subst h.
  rewrite decide_True
    by (unfold Numeral.print; by rewrite length_fmap, Numeral.length_digits).
  unfold Numeral.print.
  rewrite (Numeral.mapM_value_digit_chars Numeral.hex_value 16)
    by (apply Numeral.hex_value_digit_char || (apply Numeral.digits_lt; lia)).
  by rewrite Numeral.number_digits by (lia || exact Hu).
Qed.

Lemma uuid_str_truthy (u : N) : truthy (PyStr (uuid_str u)) = true.
Proof.
  unfold uuid_str, Numeral.print.
  destruct (Numeral.digits 16 32 u) as [|d ds] eqn:Hds.
  - apply (f_equal length) in Hds. by rewrite Numeral.length_digits in Hds.
  - reflexivity.
Qed.

Lemma days_in_month_le (y m : N) : days_in_month y m ≤ 31.
Proof.
  unfold days_in_month.
  repeat (match goal with
          | |- context [match ?x with _ => _ end] => destruct x
          end; try lia).
Qed.

Lemma isoformat_roundtrip (t : datetime) :
  valid_datetime t = true → fromisoformat (isoformat t) = Returned t.
Proof.
  intros Hvalid. unfold fromisoformat, isoformat.
  rewrite String.list_ascii_of_string_of_list_ascii.
  assert (Hbounds : year t < 10 ^ N.of_nat 4 ∧ month t < 10 ^ N.of_nat 2 ∧
                    day t < 10 ^ N.of_nat 2 ∧ hour t < 10 ^ N.of_nat 2 ∧
                    minute t < 10 ^ N.of_nat 2 ∧ second t < 10 ^ N.of_nat 2 ∧
                    microsecond t < 10 ^ N.of_nat 6).
  { unfold valid_datetime in Hvalid.
    repeat (apply andb_true_iff in Hvalid as [Hvalid ?]).
    repeat match goal with
           | H : (_ <=? _) = true |- _ => apply N.leb_le in H
           | H : (_ <? _) = true |- _ => apply N.ltb_lt in H
           end.
    pose proof (days_in_month_le (year t) (month t)).
    change (10 ^ N.of_nat 4) with 10000. change (10 ^ N.of_nat 2) with 100.
    change (10 ^ N.of_nat 6) with 1000000. lia. }
  destruct Hbounds as (Hy & Hm & Hd & Hh & Hmi & Hs & Hus).
  assert (Hread : ∀ w n rest, n < 10 ^ N.of_nat w →
            read_field w (Numeral.print 10 w n ++ rest) = Some (n, rest)).
  { intros w n rest Hn. unfold read_field.
    apply Numeral.read_print; [lia|apply Numeral.dec_value_digit_char|done]. }
  assert (Hparse : parse_isoformat
            (Numeral.print 10 4 (year t) ++ "-"%char :: Numeral.print 10 2 (month t)
               ++ "-"%char :: Numeral.print 10 2 (day t)
               ++ "T"%char :: Numeral.print 10 2 (hour t)
               ++ ":"%char :: Numeral.print 10 2 (minute t)
               ++ ":"%char :: Numeral.print 10 2 (second t)
               ++ (if microsecond t =? 0 then []
                   else "."%char :: Numeral.print 10 6 (microsecond t)))
            = Some t).
  { unfold parse_isoformat.
    rewrite Hread by done. cbn [mbind option_bind expect]. rewrite decide_True by done.
    cbn [mbind option_bind].
    rewrite Hread by done. cbn [mbind option_bind expect]. rewrite decide_True by done.
    cbn [mbind option_bind].
    rewrite Hread by done. cbn [mbind option_bind].
    rewrite Hread by done. cbn [mbind option_bind expect]. rewrite decide_True by done.
    cbn [mbind option_bind].
    rewrite Hread by done. cbn [mbind option_bind expect]. rewrite decide_True by done.
    cbn [mbind option_bind].
    rewrite Hread by done. cbn [mbind option_bind].
    destruct (N.eqb_spec (microsecond t) 0) as [Hzero|Hnonzero].
    - destruct t; simpl in *. by subst.
    - rewrite decide_True by done.
      rewrite <- (app_nil_r (Numeral.print 10 6 (microsecond t))).
      rewrite Hread by done. cbn [mbind option_bind]. by destruct t. }
  by rewrite Hparse, Hvalid.
Qed.

Lemma of_value_value (t : EventType) : of_value (value t) = Some t.
Proof. by destruct t. Qed.

Lemma of_value_not_member (s : string) :
  (∀ t, value t ≠ s) → of_value s = None.
Proof.
  intros Hs. unfold of_value.
  destruct (list_find _ members) as [[i t]|] eqn:Hfind; [|done].
  apply list_find_Some in Hfind as (_ & Ht & _). by destruct (Hs t).
Qed.

(** *** The wire format *)

(** The invariants of the field types: a UUID is a 128-bit integer and a
    datetime has its fields in range. *)
Definition event_wf (e : DomainEvent) : Prop :=
  uuid_wf (id e) ∧
  (∀ u, session_id e = Some u → uuid_wf u) ∧
  (∀ u, correlation_id e = Some u → uuid_wf u) ∧
  valid_datetime (timestamp e) = true.

Lemma optional_uuid_roundtrip (d : gmap string pyval) (key : string)
    (u : option N) :
  d !! key = Some (optional_uuid_str u) →
  (∀ x, u = Some x → uuid_wf x) →
  optional_uuid d key = Returned u.
Proof.
  intros Hkey Hwf. unfold optional_uuid, subscript. rewrite Hkey.
  destruct u as [x|]; [|done].
  cbn [optional_uuid_str from_option]. unfold Datatypes.id.
  rewrite uuid_str_truthy.
  cbn [mbind outcome_bind UUID]. by rewrite uuid_roundtrip by by apply Hwf.
Qed.

(** C8.  An event whose fields are well formed, of any of the event types,
    is reproduced by [from_dict] from its [to_dict]; and [from_dict] raises
    on a dictionary whose event type is a string that is the value of no
    member of the enumeration. *)
Theorem from_dict_to_dict (e : DomainEvent) :
  event_wf e →
  from_dict (to_dict e) = Returned e
  ∧ (∀ t, of_value (value t) = Some t)
  ∧ (∀ (d : gmap string pyval) (s : string),
       d !! "event_type" = Some (PyStr s) → (∀ t, value t ≠ s) →
       ∃ err, from_dict d = Raised err).
Proof.
  intros (Hid & Hsession & Hcorrelation & Htimestamp).
  split; [|split].
  - assert (Hl : to_dict e !! "id" = Some (PyStr (uuid_str (id e)))
               ∧ to_dict e !! "event_type" = Some (PyStr (value (event_type e)))
               ∧ to_dict e !! "session_id" = Some (optional_uuid_str (session_id e))
               ∧ to_dict e !! "agent_name" = Some (optional_str (agent_name e))
               ∧ to_dict e !! "data" = Some (PyDict (data e))
               ∧ to_dict e !! "timestamp" = Some (PyStr (isoformat (timestamp e)))
               ∧ to_dict e !! "correlation_id"
                 = Some (optional_uuid_str (correlation_id e)))
      by (unfold to_dict; repeat split;
          repeat (rewrite lookup_insert_ne by discriminate);
          apply lookup_insert_eq).
    destruct Hl as (Lid & Ltype & Lsession & Lagent & Ldata & Ltime & Lcorr).
    unfold from_dict, subscript.
    rewrite Lid, Ltype, Lagent, Ldata, Ltime.
    rewrite (optional_uuid_roundtrip _ _ _ Lsession Hsession).
    rewrite (optional_uuid_roundtrip _ _ _ Lcorr Hcorrelation).
    cbn [mbind outcome_bind UUID EventType_of datetime_of default].
    rewrite uuid_roundtrip by done. rewrite of_value_value.
    rewrite isoformat_roundtrip by done.
    cbn [mbind outcome_bind].
    destruct e as [i ty sid [nm|] dt ts cid]; reflexivity.
  - apply of_value_value.
  - intros d s Htype Hs. unfold from_dict, subscript.
    destruct (d !! "id") as [v|]; [|by eexists].
    cbn [mbind outcome_bind]. destruct (UUID v) as [u|err]; [|by eexists].
    cbn [mbind outcome_bind]. rewrite Htype.
    cbn [mbind outcome_bind EventType_of]. rewrite of_value_not_member by done.
    by eexists.
Qed.

(** An event and its wire format. *)
Definition sample_event : DomainEvent :=
  mkDomainEvent 0x123e4567e89b12d3a456426614174000 TOOL_CALL_FAILED
                (Some 0) (Some "planner") [("tool", PyStr "search")]
                (mkDatetime 2024 2 29 13 5 9 125000) None.

Example sample_wire :
  to_dict sample_event
  = <["id" := PyStr "123e4567-e89b-12d3-a456-426614174000"]>
      (<["event_type" := PyStr "tool.call.failed"]>
         (<["session_id" := PyStr "00000000-0000-0000-0000-000000000000"]>
            (<["agent_name" := PyStr "planner"]>
               (<["data" := PyDict [("tool", PyStr "search")]]>
                  (<["timestamp" := PyStr "2024-02-29T13:05:09.125000"]>
                     (<["correlation_id" := PyNone]> ∅)))))).
Proof. vm_compute. reflexivity. Qed.

Example unknown_event_type :
  from_dict (<["event_type" := PyStr "tool.call.retried"]> (to_dict sample_event))
  = Raised (ValueError "'tool.call.retried' is not a valid EventType").
Proof. vm_compute. reflexivity. Qed.

Lemma from_dict_to_dict_witness :
  event_wf sample_event ∧ from_dict (to_dict sample_event) = Returned sample_event.
Proof.
  assert (Hwf : event_wf sample_event).
  { split; [reflexivity|]. split; [by intros u [= <-]|].
    split; [discriminate|reflexivity]. }
  split; [exact Hwf|]. exact (proj1 (from_dict_to_dict sample_event Hwf)).
Defined.

(** *** Required and optional keys *)

(** X27.  [from_dict] requires the keys "id", "event_type" and "timestamp"
    and no other.  From a dictionary that holds a well-formed value under
    each of the three, no agent name and no data, and nothing or a falsy
    value (None, an empty string) under "session_id" and "correlation_id",
    it builds the event without session, agent and correlation and with
    empty data; without any one of the three keys it raises KeyError for
    that key. *)
Theorem from_dict_required_and_optional_keys
    (d : gmap string pyval) (u : N) (t : EventType) (ts : datetime) :
  uuid_wf u → valid_datetime ts = true →
  d !! "id" = Some (PyStr (uuid_str u)) →
  d !! "event_type" = Some (PyStr (value t)) →
  d !! "timestamp" = Some (PyStr (isoformat ts)) →
  truthy (default PyNone (d !! "session_id")) = false →
  truthy (default PyNone (d !! "correlation_id")) = false →
  d !! "agent_name" = None → d !! "data" = None →
  from_dict d = Returned (mkDomainEvent u t None None [] ts None)
  ∧ from_dict (delete "id" d) = Raised (KeyError "id")
  ∧ from_dict (delete "event_type" d) = Raised (KeyError "event_type")
  ∧ from_dict (delete "timestamp" d) = Raised (KeyError "timestamp").
Proof.
  intros Hu Hts Hid Htype Htime Hsession Hcorr Hagent Hdata.
  split; [|split; [|split]].
  - unfold from_dict, subscript, optional_uuid.
    rewrite Hid, Htype, Htime, Hsession, Hcorr, Hagent, Hdata.
    cbn [mbind outcome_bind mret outcome_ret UUID EventType_of datetime_of default].
    rewrite uuid_roundtrip by done. rewrite of_value_value.
    cbn [mbind outcome_bind].
    rewrite isoformat_roundtrip by done. reflexivity.
  - unfold from_dict, subscript. by rewrite lookup_delete_eq.
  - unfold from_dict, subscript.
    rewrite (lookup_delete_ne d "event_type" "id"), Hid by discriminate.
    cbn [mbind outcome_bind UUID]. rewrite uuid_roundtrip by done.
    cbn [mbind outcome_bind]. by rewrite lookup_delete_eq.
  - unfold from_dict, subscript, optional_uuid.
    rewrite (lookup_delete_ne d "timestamp" "id") by discriminate.
    rewrite (lookup_delete_ne d "timestamp" "event_type") by discriminate.
    rewrite !(lookup_delete_ne d "timestamp" "session_id") by discriminate.
    rewrite Hid, Htype, Hsession.
    cbn [mbind outcome_bind mret outcome_ret UUID EventType_of].
    rewrite uuid_roundtrip by done. rewrite of_value_value.
    cbn [mbind outcome_bind]. by rewrite lookup_delete_eq.
Qed.

(** The least dictionary of an event, with an empty session id. *)
Definition least_wire : gmap string pyval :=
  <["id" := PyStr (uuid_str 7)]>
    (<["event_type" := PyStr (value SESSION_CLOSED)]>
       (<["timestamp" := PyStr (isoformat (mkDatetime 2024 2 29 13 5 9 0))]>
          (<["session_id" := PyStr ""]> ∅))).

Lemma from_dict_required_and_optional_keys_witness :
  uuid_wf 7 ∧ valid_datetime (mkDatetime 2024 2 29 13 5 9 0) = true ∧
  from_dict least_wire
  = Returned (mkDomainEvent 7 SESSION_CLOSED None None []
                            (mkDatetime 2024 2 29 13 5 9 0) None)
  ∧ from_dict (delete "timestamp" least_wire) = Raised (KeyError "timestamp").
Proof.
  assert (H1 : uuid_wf 7) by reflexivity.
  assert (H2 : valid_datetime (mkDatetime 2024 2 29 13 5 9 0) = true)
    by reflexivity.
  split; [exact H1|]. split; [exact H2|].
  destruct (from_dict_required_and_optional_keys least_wire 7 SESSION_CLOSED
              (mkDatetime 2024 2 29 13 5 9 0) H1 H2)
    as (Hok & _ & _ & Hmiss);
    [unfold least_wire; repeat (rewrite lookup_insert_ne by discriminate);
     first [apply lookup_insert_eq | reflexivity]..|].
  split; [exact Hok|exact Hmiss].
Defined.


End Events.
